(** * Chinese word highlighter: the segmentation loop of [src/App.vue]

    A shallow embedding of [processScript] and of its local helper
    [GetSegmentsInCsv], with the properties of the segmentation engine
    proved over it; then of the rest of the component that the engine
    meets: the loop of [parseCsvData] that builds the curriculum from
    the parsed rows, [showDetails], and the two [v-for] blocks of the
    template that render the segments.

    Modelling conventions.
    - A JavaScript string is the list of its UTF-16 code units, so
      [length] is [String.prototype.length] and [scriptText[i]] is
      [nth_error scriptText i].
    - The two dictionaries are plain objects used as maps.  Each is
      modelled by the association list of its own properties in the
      enumeration order of [Object.keys] and [for ... in]; a property
      read [o[k]] gives the first binding of the key when the object
      has one, and otherwise the member that [Object.prototype] defines
      under that name, if it defines one ([read]); [lookup] is the own
      part of the read.  In [parseCsvData] the set of the inherited
      names is a parameter.
    - The reactive cells ([ref]) read and written by [processScript]
      are the fields of the record [App]; the function is a state
      transformer on it.  The proxies that Vue puts around the objects
      held by the cells are taken to be transparent: a read through a
      cell is the read of the object itself.
    - The [while] loop runs on fuel: [None] means that the fuel ran out
      before the cursor reached the end of the text. *)

From Stdlib Require Import List NArith Arith Bool Lia Ascii Sorted.
From Stdlib Require String.
Import ListNotations String.StringSyntax.
Delimit Scope string_scope with string.

Set Implicit Arguments.

(** ** Strings as lists of UTF-16 code units *)

Definition char := N.
Definition str := list char.

Fixpoint str_eqb (a b : str) : bool :=
  match a, b with
  | [], [] => true
  | x :: a', y :: b' => N.eqb x y && str_eqb a' b'
  | _, _ => false
  end.

(** Code units of an ASCII literal. *)
Fixpoint lit (s : String.string) : str :=
  match s with
  | String.EmptyString => []
  | String.String c r => N_of_ascii c :: lit r
  end.

(** The names that [Object.prototype] defines: a read of one of them on
    an object that has no key of that name gives the inherited member,
    a function, or [Object.prototype] itself for [__proto__]. *)
Definition objectPrototype (k : str) : bool :=
  existsb (str_eqb k)
          [lit "constructor"%string; lit "hasOwnProperty"%string;
           lit "isPrototypeOf"%string; lit "propertyIsEnumerable"%string;
           lit "toLocaleString"%string; lit "toString"%string;
           lit "valueOf"%string; lit "__proto__"%string;
           lit "__defineGetter__"%string; lit "__defineSetter__"%string;
           lit "__lookupGetter__"%string; lit "__lookupSetter__"%string].

(** Truthiness of [.length] of the member of that name: the number of
    parameters of the function, which is 0 for [toString], [valueOf]
    and [toLocaleString]; [Object.prototype] has no [length]. *)
Definition memberHasLength (k : str) : bool :=
  existsb (str_eqb k)
          [lit "constructor"%string; lit "hasOwnProperty"%string;
           lit "isPrototypeOf"%string; lit "propertyIsEnumerable"%string;
           lit "__defineGetter__"%string; lit "__defineSetter__"%string;
           lit "__lookupGetter__"%string; lit "__lookupSetter__"%string].

(** [prefixb w t]: [w] is a prefix of [t]. *)
Fixpoint prefixb (w t : str) : bool :=
  match w, t with
  | [], _ => true
  | x :: w', y :: t' => N.eqb x y && prefixb w' t'
  | _ :: _, [] => false
  end.

(** [text.startsWith(word, i)] for a position [i] inside the text. *)
Definition startsWith (text word : str) (i : nat) : bool :=
  prefixb word (skipn i text).

(** [word.substring(0, k)] and [word.substring(k)], for [k <= length]. *)
Definition substring_to (word : str) (k : nat) : str := firstn k word.
Definition substring_from (word : str) (k : nat) : str := skipn k word.

Definition newline : char := 10%N.

(** [c.match(/[a-z]/i)] on a one-unit string: without the [u] flag the
    case-insensitive class contains the ASCII letters only. *)
Definition isLatin (c : char) : bool :=
  ((97 <=? c) && (c <=? 122))%N || ((65 <=? c) && (c <=? 90))%N.

(** [!c.trim()] on a one-unit string: [c] is a WhiteSpace or a
    LineTerminator code unit of ECMAScript. *)
Definition isBlank (c : char) : bool :=
  ((9 <=? c) && (c <=? 13))%N
  || N.eqb c 32 || N.eqb c 160 || N.eqb c 5760
  || ((8192 <=? c) && (c <=? 8202))%N
  || N.eqb c 8232 || N.eqb c 8233 || N.eqb c 8239 || N.eqb c 8287
  || N.eqb c 12288 || N.eqb c 65279.

(** ** Types of the component *)

(** Entry of [Dictionary] (CC-CEDICT). *)
Record DictEntry := mkDictEntry {
  d_pinyin : str;
  d_meaning : str
}.

(** Entry of [CsvDictionary] (the curriculum). *)
Record CsvEntry := mkCsvEntry {
  c_chapter : str;
  c_pinyin : str;
  c_category : str;
  c_meaning : str
}.

Definition Dictionary := list (str * list DictEntry).
Definition CsvDictionary := list (str * list CsvEntry).

(** Element of [ProcessedSegment.data]; the fields that an object may
    lack are options. *)
Record Annotation := mkAnnotation {
  chapter : option str;
  pinyin : str;
  category : option str;
  meaning : option str
}.

(** The value stored in the [data] property of a segment: nothing, one
    bare object, an array of objects, or the member of
    [Object.prototype] of a given name. *)
Inductive SegmentData :=
| DataAbsent
| DataObject (a : Annotation)
| DataArray (l : list Annotation)
| DataMember (k : str).

Inductive SegmentType := found | not_found | unknown.

Record ProcessedSegment := mkSegment {
  text : str;
  type : SegmentType;
  data : SegmentData
}.

Record UnknownWord := mkUnknownWord {
  index : nat;
  word : str;
  u_pinyin : str;
  u_meaning : str
}.

(** ** Dictionaries as objects *)

Section Objects.
Variable V : Type.

(** [Object.keys(o)]. *)
Definition keys (o : list (str * V)) : list str := map fst o.

(** The own property of [o] under [k]: [None] when [o] has no such
    key. *)
Fixpoint lookup (o : list (str * V)) (k : str) : option V :=
  match o with
  | [] => None
  | (k', v) :: r => if str_eqb k' k then Some v else lookup r k
  end.

(** [k] is an own key of [o]. *)
Definition has (o : list (str * V)) (k : str) : bool :=
  match lookup o k with Some _ => true | None => false end.

(** [o[k]]: the own property, else the member inherited from
    [Object.prototype], else [undefined]. *)
Inductive Read :=
| Own (v : V)
| Member (k : str)
| Undefined.

Definition read (o : list (str * V)) (k : str) : Read :=
  match lookup o k with
  | Some v => Own v
  | None => if objectPrototype k then Member k else Undefined
  end.

(** Truthiness of [o[k]]: every array is truthy, and so is every
    member of [Object.prototype]. *)
Definition truthy (o : list (str * V)) (k : str) : bool :=
  match read o k with
  | Undefined => false
  | _ => true
  end.
End Objects.

Arguments Member {V} k.
Arguments Undefined {V}.

Definition annOfDict (e : DictEntry) : Annotation :=
  mkAnnotation None (d_pinyin e) None (Some (d_meaning e)).

Definition annOfCsv (e : CsvEntry) : Annotation :=
  mkAnnotation (Some (c_chapter e)) (c_pinyin e)
               (Some (c_category e)) (Some (c_meaning e)).

(** [data: ccCedict.value[word]] and [data: csvDictionary.value[word]]. *)
Definition dataOfDict (d : Dictionary) (w : str) : SegmentData :=
  match read d w with
  | Own l => DataArray (map annOfDict l)
  | Member k => DataMember k
  | Undefined => DataAbsent
  end.

Definition dataOfCsv (d : CsvDictionary) (w : str) : SegmentData :=
  match read d w with
  | Own l => DataArray (map annOfCsv l)
  | Member k => DataMember k
  | Undefined => DataAbsent
  end.

(** ** [Array.prototype.sort((a, b) => b.length - a.length)]

    The sort is stable: among keys of one length the enumeration order
    is kept. *)

Fixpoint insertByLength (w : str) (l : list str) : list str :=
  match l with
  | [] => [w]
  | x :: r =>
      if length w <? length x then x :: insertByLength w r else w :: l
  end.

Definition sortLongestFirst (l : list str) : list str :=
  fold_right insertByLength [] l.

(** The order of the sorted list: no key is longer than one before it. *)
Definition notLonger (a b : str) : Prop := length b <= length a.

(** ** [Set<string>]: insertion-ordered, [add] ignores a member *)

Definition setHas (s : list str) (w : str) : bool := existsb (str_eqb w) s.

Definition setAdd (s : list str) (w : str) : list str :=
  if setHas s w then s else s ++ [w].

(** ** The state of the component *)

Record App := mkApp {
  scriptInput : str;
  ccCedict : Dictionary;
  csvDictionary : CsvDictionary;
  processedOutput : list ProcessedSegment;
  unknownWords : list UnknownWord;
  console : list str
}.

Definition warnEmpty : str :=
  lit "CC-CEDICT is empty. Cannot process script."%string.
Definition errorText : str :=
  lit "Error: Dictionary not loaded or empty."%string.

(** ** The object literals that [processScript] pushes *)

(** [{ text: 'Error: Dictionary not loaded or empty.', type: 'not-found' }]. *)
Definition errorSegment : ProcessedSegment :=
  mkSegment errorText not_found DataAbsent.

(** [{ text: '\n', type: 'unknown' }]. *)
Definition newlineSegment : ProcessedSegment :=
  mkSegment [newline] unknown DataAbsent.

(** [{ text: scriptText[i], data: {pinyin: scriptText[i]}, type: 'found' }]:
    the [data] is the object itself, not an array that holds it. *)
Definition latinSegment (c : char) : ProcessedSegment :=
  mkSegment [c] found (DataObject (mkAnnotation None [c] None None)).

(** ** [GetSegmentsInCsv]

    The conditions [csvDictionary.value[word]] and
    [csvDictionary.value[left] && csvDictionary.value[right]] are the
    truthiness of property reads, which a name of [Object.prototype]
    passes as a curriculum key does. *)

Section Segmenter.
Variable scriptText : str.
Variable cedict : Dictionary.
Variable csv : CsvDictionary.

(** The [for] loop over the split points: [k] is the loop variable
    and [n] the number of iterations left, [word.length - k]. *)
Fixpoint scanSplits (word : str) (n k : nat) : option (list str) :=
  match n with
  | 0 => None
  | S n' =>
      let left := substring_to word k in
      let right := substring_from word k in
      if truthy csv left && truthy csv right then Some [left; right]
      else scanSplits word n' (S k)
  end.

Definition GetSegmentsInCsv (word : str) : option (list str) :=
  if truthy csv word then Some [word]
  else scanSplits word (length word - 1) 1.

(** ** The body of the [while] loop *)

Record LoopState := mkLoop {
  cursor : nat;
  results : list ProcessedSegment;
  unknownSet : list str
}.

Definition cedictWords : list str := sortLongestFirst (keys cedict).

(** The first key of [cedictWords], then of the curriculum, that the
    text starts with at position [i]. *)
Definition lexMatch (i : nat) : option str :=
  find (fun w => startsWith scriptText w i) cedictWords.

Definition csvMatch (i : nat) : option str :=
  find (fun w => startsWith scriptText w i) (keys csv).

Definition foundSegment (w : str) : ProcessedSegment :=
  mkSegment w found (dataOfCsv csv w).

Definition loopBody (st : LoopState) : LoopState :=
  let i := cursor st in
  match nth_error scriptText i with
  | None => st
  | Some c =>
      if N.eqb c newline then
        mkLoop (i + 1) (results st ++ [newlineSegment]) (unknownSet st)
      else if isLatin c then
        mkLoop (i + 1) (results st ++ [latinSegment c]) (unknownSet st)
      else if isBlank c then
        mkLoop (i + 1) (results st) (unknownSet st)
      else
        match lexMatch i with
        | Some word =>
            match GetSegmentsInCsv word with
            | Some validSegments =>
                mkLoop (i + length word)
                       (results st ++ map foundSegment validSegments)
                       (unknownSet st)
            | None =>
                mkLoop (i + length word)
                       (results st ++
                          [mkSegment word not_found (dataOfDict cedict word)])
                       (setAdd (unknownSet st) word)
            end
        | None =>
            match csvMatch i with
            | Some word =>
                mkLoop (i + length word)
                       (results st ++ [foundSegment word])
                       (unknownSet st)
            | None => mkLoop (i + 1) (results st) (unknownSet st)
            end
        end
  end.

Fixpoint whileLoop (fuel : nat) (st : LoopState) : option LoopState :=
  if cursor st <? length scriptText then
    match fuel with
    | 0 => None
    | S fuel' => whileLoop fuel' (loopBody st)
    end
  else Some st.

(** ** The iterations as a step relation

    [lexical i c]: the unit [c] at [i] passes the three character tests
    and reaches the dictionary matching. *)
Definition lexical (i : nat) (c : char) : Prop :=
  nth_error scriptText i = Some c /\ c <> newline /\
  isLatin c = false /\ isBlank c = false.

Inductive Iteration (st : LoopState) : LoopState -> Prop :=
| it_newline :
    nth_error scriptText (cursor st) = Some newline ->
    Iteration st
      (mkLoop (cursor st + 1) (results st ++ [newlineSegment]) (unknownSet st))
| it_latin c :
    nth_error scriptText (cursor st) = Some c ->
    c <> newline -> isLatin c = true ->
    Iteration st
      (mkLoop (cursor st + 1) (results st ++ [latinSegment c]) (unknownSet st))
| it_blank c :
    nth_error scriptText (cursor st) = Some c ->
    c <> newline -> isLatin c = false -> isBlank c = true ->
    Iteration st (mkLoop (cursor st + 1) (results st) (unknownSet st))
| it_known c w segs :
    lexical (cursor st) c ->
    lexMatch (cursor st) = Some w ->
    GetSegmentsInCsv w = Some segs ->
    Iteration st
      (mkLoop (cursor st + length w)
              (results st ++ map foundSegment segs)
              (unknownSet st))
| it_unmatched c w :
    lexical (cursor st) c ->
    lexMatch (cursor st) = Some w ->
    GetSegmentsInCsv w = None ->
    Iteration st
      (mkLoop (cursor st + length w)
              (results st ++ [mkSegment w not_found (dataOfDict cedict w)])
              (setAdd (unknownSet st) w))
| it_curriculum c w :
    lexical (cursor st) c ->
    lexMatch (cursor st) = None ->
    csvMatch (cursor st) = Some w ->
    Iteration st
      (mkLoop (cursor st + length w)
              (results st ++ [foundSegment w])
              (unknownSet st))
| it_skip c :
    lexical (cursor st) c ->
    lexMatch (cursor st) = None ->
    csvMatch (cursor st) = None ->
    Iteration st (mkLoop (cursor st + 1) (results st) (unknownSet st)).

End Segmenter.

(** [Array.from(unknownSet).map((word, index) => ...)].  The reading
    [o[word]?.[0]?.pinyin || ""] depends on the own property alone: a
    member of [Object.prototype] has no property [0], so that the
    reading is the empty string as for [undefined]. *)
Definition firstPinyin (o : option (list DictEntry)) : str :=
  match o with
  | Some (e :: _) => d_pinyin e
  | _ => []
  end.

Definition firstMeaning (o : option (list DictEntry)) : str :=
  match o with
  | Some (e :: _) => d_meaning e
  | _ => []
  end.

Fixpoint mapIndexed (A B : Type) (f : A -> nat -> B) (idx : nat) (l : list A)
  : list B :=
  match l with
  | [] => []
  | x :: r => f x idx :: mapIndexed f (S idx) r
  end.

Definition unknownWordOf (cedict : Dictionary) (w : str) (idx : nat)
  : UnknownWord :=
  mkUnknownWord (idx + 1) w
                (firstPinyin (lookup cedict w))
                (firstMeaning (lookup cedict w)).

(** ** [processScript] *)

Definition processScript (fuel : nat) (app : App) : option App :=
  match keys (ccCedict app) with
  | [] =>
      Some (mkApp (scriptInput app) (ccCedict app) (csvDictionary app)
                  (processedOutput app ++ [errorSegment])
                  (unknownWords app)
                  (console app ++ [warnEmpty]))
  | _ :: _ =>
      match whileLoop (scriptInput app) (ccCedict app) (csvDictionary app)
                      fuel (mkLoop 0 [] []) with
      | None => None
      | Some st =>
          Some (mkApp (scriptInput app) (ccCedict app) (csvDictionary app)
                      (results st)
                      (mapIndexed (unknownWordOf (ccCedict app)) 0
                                  (unknownSet st))
                      (console app))
      end
  end.

(** ** Preconditions on the dictionaries *)

Definition KeysNonEmpty (V : Type) (o : list (str * V)) : Prop :=
  Forall (fun k : str => k <> []) (keys o).

Definition KeysWithoutNewline (V : Type) (o : list (str * V)) : Prop :=
  Forall (fun k : str => ~ In newline k) (keys o).

(** ** The unknown-word collector as the specification words it

    A scan of the segments that keeps the [not_found] ones, drops a text
    already seen, numbers the survivors from 1 and reads pinyin and
    meaning at index 0 of the annotation list of the segment. *)

Definition isUnmatched (s : ProcessedSegment) : bool :=
  match type s with not_found => true | _ => false end.

Definition annotationPinyin (d : SegmentData) : str :=
  match d with
  | DataArray (a :: _) => pinyin a
  | _ => []
  end.

Definition annotationMeaning (d : SegmentData) : str :=
  match d with
  | DataArray (a :: _) =>
      match meaning a with Some m => m | None => [] end
  | _ => []
  end.

Fixpoint collectFrom (rank : nat) (seen : list str)
         (segs : list ProcessedSegment) : list UnknownWord :=
  match segs with
  | [] => []
  | s :: r =>
      if isUnmatched s && negb (setHas seen (text s)) then
        mkUnknownWord rank (text s)
                      (annotationPinyin (data s)) (annotationMeaning (data s))
        :: collectFrom (S rank) (seen ++ [text s]) r
      else collectFrom rank seen r
  end.

Definition collectUnknown (segs : list ProcessedSegment) : list UnknownWord :=
  collectFrom 1 [] segs.

(** The words that [collectFrom] keeps, in order. *)
Fixpoint unmatchedWords (seen : list str) (segs : list ProcessedSegment)
  : list str :=
  match segs with
  | [] => []
  | s :: r =>
      if isUnmatched s && negb (setHas seen (text s)) then
        text s :: unmatchedWords (seen ++ [text s]) r
      else unmatchedWords seen r
  end.

(** The loop invariant behind the report: the set holds the words of
    the Unmatched segments pushed so far, without repetition, and each
    such segment carries the Lexicon entries of its word. *)
Definition unknownInvariant (cedict : Dictionary) (st : LoopState) : Prop :=
  unknownSet st = unmatchedWords [] (results st) /\
  NoDup (unknownSet st) /\
  Forall (fun s => isUnmatched s = true ->
                   data s = dataOfDict cedict (text s)) (results st).

(** ** Reconstruction of the input from the segments

    The input cut into consecutive pieces, one per iteration of the
    loop: the code units that the iteration consumed and the segments
    that it emitted. *)

Record Piece := mkPiece {
  span : str;
  emitted : list ProcessedSegment
}.

Definition kept (p : Piece) : bool :=
  match emitted p with [] => false | _ :: _ => true end.

Definition spans (ps : list Piece) : str := concat (map span ps).

Definition keptSpans (ps : list Piece) : str :=
  concat (map span (filter kept ps)).

Definition segmentTexts (segs : list ProcessedSegment) : str :=
  concat (map text segs).

(** No key of [ks] occurs in [text] at position [i]. *)
Definition noKeyAt (scriptText : str) (ks : list str) (i : nat) : Prop :=
  forall w, In w ks -> startsWith scriptText w i = false.

(** The unit at [i] is one that the loop passes over without output:
    white space other than the newline, or a unit at which neither
    dictionary has a key. *)
Definition passedOver (scriptText : str) (cedict : Dictionary)
           (csv : CsvDictionary) (i : nat) : Prop :=
  exists c, nth_error scriptText i = Some c /\ c <> newline /\
            isLatin c = false /\
            (isBlank c = true \/
             (noKeyAt scriptText (keys cedict) i /\
              noKeyAt scriptText (keys csv) i)).

(** A piece that starts at [i] is either covered by its one or two
    segments, whose texts concatenate to its span, or is one unit that
    was passed over. *)
Definition pieceOk (scriptText : str) (cedict : Dictionary)
           (csv : CsvDictionary) (i : nat) (p : Piece) : Prop :=
  match emitted p with
  | [] => length (span p) = 1 /\ passedOver scriptText cedict csv i
  | _ :: _ => segmentTexts (emitted p) = span p /\ length (emitted p) <= 2
  end.

Fixpoint wellCut (scriptText : str) (cedict : Dictionary)
         (csv : CsvDictionary) (i : nat) (ps : list Piece) : Prop :=
  match ps with
  | [] => True
  | p :: r =>
      pieceOk scriptText cedict csv i p /\
      wellCut scriptText cedict csv (i + length (span p)) r
  end.

(** The loop invariant behind the reconstruction. *)
Definition cutInvariant (scriptText : str) (cedict : Dictionary)
           (csv : CsvDictionary) (st : LoopState) : Prop :=
  cursor st <= length scriptText /\
  exists ps,
    spans ps = firstn (cursor st) scriptText /\
    concat (map emitted ps) = results st /\
    wellCut scriptText cedict csv 0 ps.

Definition isMatched (s : ProcessedSegment) : bool :=
  match type s with found => true | _ => false end.

Definition isStructural (s : ProcessedSegment) : bool :=
  match type s with unknown => true | _ => false end.

Definition structuralCount (segs : list ProcessedSegment) : nat :=
  length (filter isStructural segs).

Definition newlineCount (t : str) : nat :=
  length (filter (N.eqb newline) t).

(** The loop invariant behind the count of the markers: as many
    structural segments as newlines behind the cursor, and every
    structural segment is the marker. *)
Definition newlineInvariant (scriptText : str) (st : LoopState) : Prop :=
  cursor st <= length scriptText /\
  structuralCount (results st) =
  newlineCount (firstn (cursor st) scriptText) /\
  Forall (fun s => isStructural s = true -> s = newlineSegment) (results st).

(** The three shapes of a Matched segment that the loop pushes: the one
    of a Latin letter, a curriculum key with the list of its entries,
    and a name of [Object.prototype] that is no curriculum key, with
    the member of that name. *)
Definition matchedShape (csv : CsvDictionary) (s : ProcessedSegment) : Prop :=
  type s = found ->
  (exists c, isLatin c = true /\ s = latinSegment c) \/
  (exists es, lookup csv (text s) = Some es /\
              data s = DataArray (map annOfCsv es)) \/
  (lookup csv (text s) = None /\ objectPrototype (text s) = true /\
   data s = DataMember (text s)).

(** The strings at which the read of the curriculum is truthy: its
    keys and the names of [Object.prototype]. *)
Definition readable (csv : CsvDictionary) (k : str) : Prop :=
  In k (keys csv) \/ objectPrototype k = true.

(** The data-model condition on the curriculum: no key with an empty
    list of entries. *)
Definition EntriesNonEmpty (V : Type) (o : list (str * list V)) : Prop :=
  forall k, lookup o k <> Some [].

(** What the specification asks of the annotations of a Matched
    segment: a list, and not the empty one. *)
Definition carriesAnnotationList (s : ProcessedSegment) : Prop :=
  exists a l, data s = DataArray (a :: l).

(** ** What the claims say of the cells after a run *)

(** The segments cover the input up to the units passed over. *)
Definition reconstructs (app : App) : Prop :=
  exists pieces,
    spans pieces = scriptInput app /\
    concat (map emitted pieces) = processedOutput app /\
    wellCut (scriptInput app) (ccCedict app) (csvDictionary app) 0 pieces /\
    segmentTexts (processedOutput app) = keptSpans pieces.

(** The report is the one of the collector, with unique words, ranks
    1..N and the index-0 readings of the Lexicon. *)
Definition reportCorrect (app : App) : Prop :=
  unknownWords app = collectUnknown (processedOutput app) /\
  (forall w, In w (map word (unknownWords app)) <->
             exists s, In s (processedOutput app) /\
                       type s = not_found /\ text s = w) /\
  NoDup (map word (unknownWords app)) /\
  map index (unknownWords app) = seq 1 (length (unknownWords app)) /\
  Forall (fun u =>
            u_pinyin u = firstPinyin (lookup (ccCedict app) (word u)) /\
            u_meaning u = firstMeaning (lookup (ccCedict app) (word u)) /\
            (lookup (ccCedict app) (word u) = Some [] ->
             u_pinyin u = [] /\ u_meaning u = []))
         (unknownWords app).

(** One marker per newline of the input, and no other structural
    segment. *)
Definition markersMatchNewlines (app : App) : Prop :=
  structuralCount (processedOutput app) = newlineCount (scriptInput app) /\
  Forall (fun s => isStructural s = true -> s = newlineSegment)
         (processedOutput app).

(** A segment whose text is a name of [Object.prototype] and whose data
    is the member of that name. *)
Definition carriesMember (s : ProcessedSegment) : Prop :=
  objectPrototype (text s) = true /\ data s = DataMember (text s).

(** Every Matched segment is the segment of a Latin letter, or carries a
    curriculum list, or carries a member of [Object.prototype]. *)
Definition matchedShapes (app : App) : Prop :=
  Forall (matchedShape (csvDictionary app)) (processedOutput app) /\
  (EntriesNonEmpty (csvDictionary app) ->
   Forall (fun s => type s = found ->
                    (exists c, isLatin c = true /\ s = latinSegment c) \/
                    carriesAnnotationList s \/ carriesMember s)
          (processedOutput app)).

(** ** Sample data *)

Definition zh_ni : str := [20320%N].
Definition zh_hao : str := [22909%N].
Definition zh_ma : str := [21527%N].
Definition zh_nihao : str := zh_ni ++ zh_hao.
Definition zh_nihaoma : str := zh_ni ++ zh_hao ++ zh_ma.

(** The CC-CEDICT headword for a T-shirt: a Latin letter, then U+6064. *)
Definition tshirt : str := [84%N; 24676%N].

Definition sampleEntry : DictEntry :=
  mkDictEntry (lit "ni3"%string) (lit "you"%string).

Definition sampleCsvEntry : CsvEntry :=
  mkCsvEntry (lit "1"%string) (lit "ni3 hao3"%string)
             (lit "phrase"%string) (lit "hello"%string).

Definition sampleCedict : Dictionary :=
  [(zh_ni, [sampleEntry]); (zh_nihao, [sampleEntry])].

Definition sampleCsv : CsvDictionary :=
  [(zh_nihao, [sampleCsvEntry]); (zh_ma, [sampleCsvEntry])].

Definition tshirtCedict : Dictionary :=
  [(tshirt, [mkDictEntry (lit "T xu4"%string) (lit "T-shirt"%string)])].

Definition tshirtCsvEntry : CsvEntry :=
  mkCsvEntry (lit "3"%string) (lit "T xu4"%string)
             (lit "noun"%string) (lit "T-shirt"%string).

Definition tshirtCsv : CsvDictionary := [(tshirt, [tshirtCsvEntry])].

Definition text_ni_hao : str := lit "ni hao"%string.

(** A Lexicon word that ends in a name of [Object.prototype], and a
    curriculum that has the first character and the two halves of the
    word cut after its third code unit. *)
Definition zh_ni_toString : str := zh_ni ++ lit "toString"%string.

Definition inheritedCedict : Dictionary := [(zh_ni_toString, [sampleEntry])].



Definition inheritedCsv : CsvDictionary :=
  [(zh_ni, [sampleCsvEntry]);
   (zh_ni ++ lit "to"%string, [sampleCsvEntry]);
   (lit "String"%string, [sampleCsvEntry])].

Definition text_ni_newline_hao : str := zh_ni ++ [newline] ++ zh_hao.

(** * The rest of the component *)

(** ** Repeated clicks on the button

    [clicks fuel n app]: [processScript] run [n] times in a row, each
    run on the cells that the run before left. *)
Fixpoint clicks (fuel n : nat) (app : App) : option App :=
  match n with
  | 0 => Some app
  | S n' =>
      match processScript fuel app with
      | Some app' => clicks fuel n' app'
      | None => None
      end
  end.

(** ** Text that needs no dictionary *)

(** The code units that the first three tests of the loop body take:
    the newline is among the white space of [isBlank]. *)
Definition isPlain (c : char) : bool := isLatin c || isBlank c.

(** What the body pushes for such a unit. *)
Definition plainSegments (c : char) : list ProcessedSegment :=
  if N.eqb c newline then [newlineSegment]
  else if isLatin c then [latinSegment c]
  else [].

(** ** The shape of the Unmatched segments *)

(** An Unmatched segment that the loop pushes: a Lexicon key with the
    Lexicon list of the key, which the curriculum covers neither
    directly nor by the two halves of one split. *)
Definition unmatchedShape (cedict : Dictionary) (csv : CsvDictionary)
           (s : ProcessedSegment) : Prop :=
  type s = not_found ->
  In (text s) (keys cedict) /\
  data s = dataOfDict cedict (text s) /\
  ~ In (text s) (keys csv) /\
  forall k, 1 <= k < length (text s) ->
            ~ (In (firstn k (text s)) (keys csv) /\
               In (skipn k (text s)) (keys csv)).

(** A reported word is a Lexicon key that the curriculum covers neither
    directly nor by two halves. *)
Definition outsideCurriculum (cedict : Dictionary) (csv : CsvDictionary)
           (w : str) : Prop :=
  In w (keys cedict) /\
  ~ In w (keys csv) /\
  forall k, 1 <= k < length w ->
            ~ (In (firstn k w) (keys csv) /\ In (skipn k w) (keys csv)).

Definition unmatchedOutsideCurriculum (app : App) : Prop :=
  Forall (unmatchedShape (ccCedict app) (csvDictionary app))
         (processedOutput app) /\
  Forall (fun u => outsideCurriculum (ccCedict app) (csvDictionary app)
                                     (word u))
         (unknownWords app).

(** A word that the dictionary matching can select at the cursor: its
    first code unit, if it has one, is no newline, no ASCII letter and
    no white space. *)
Definition startsLexical (w : str) : Prop :=
  match w with
  | [] => True
  | c :: _ => c <> newline /\ isLatin c = false /\ isBlank c = false
  end.

Definition unmatchedStartLexical (app : App) : Prop :=
  Forall (fun s => type s = not_found -> startsLexical (text s))
         (processedOutput app) /\
  Forall (fun u => startsLexical (word u)) (unknownWords app).

(** ** Sizes *)

Definition textsNonEmpty (app : App) : Prop :=
  Forall (fun s => text s <> []) (processedOutput app).

Definition outputBounded (app : App) : Prop :=
  length (processedOutput app) <= length (scriptInput app) /\
  length (unknownWords app) <=
  length (filter isUnmatched (processedOutput app)).

(** Cells for the examples of the reruns. *)
Definition staleApp : App :=
  mkApp [20320%N; 22909%N; 21527%N]
        [([20320%N], [mkDictEntry (lit "ni3"%string) (lit "you"%string)]);
         ([20320%N; 22909%N],
          [mkDictEntry (lit "ni3"%string) (lit "you"%string)])]
        [([20320%N; 22909%N],
          [mkCsvEntry (lit "1"%string) (lit "ni3 hao3"%string)
                      (lit "phrase"%string) (lit "hello"%string)]);
         ([21527%N],
          [mkCsvEntry (lit "1"%string) (lit "ni3 hao3"%string)
                      (lit "phrase"%string) (lit "hello"%string)])]
        [errorSegment] [] [].

(** ** [showDetails]

    The cell [selectedSegmentDetails] is the second argument and the
    result; [None] is its initial [null]. *)

(** Truthiness of [data?.length]: [undefined] for an absent [data] and
    for a bare object, the length for an array, and for a member of
    [Object.prototype] the [length] of the member. *)
Definition hasLength (d : SegmentData) : bool :=
  match d with
  | DataArray (_ :: _) => true
  | DataMember k => memberHasLength k
  | _ => false
  end.

Definition showDetails (segment : ProcessedSegment)
           (selectedSegmentDetails : option ProcessedSegment)
  : option ProcessedSegment :=
  match type segment with
  | found =>
      if hasLength (data segment) then Some segment
      else selectedSegmentDetails
  | _ => selectedSegmentDetails
  end.

(** ** The two [v-for] blocks of the template

    One node per segment: [<br>] for a segment whose text is the
    newline, otherwise the [<span>] of the highlighted view, and in the
    annotated view a [<ruby>] with the pinyin of [data[0]] when
    [segment.data && segment.data.length] holds and a bare [<span>]
    when it does not.  A member of [Object.prototype] has no property
    [0]: when its [length] is truthy, the read of [data[0].pinyin]
    throws a [TypeError] and the annotated view is not rendered,
    which is [None]. *)

Inductive Node :=
| Br
| Span (cls : SegmentType) (t : str)
| Ruby (t rt : str)
| Bare (t : str).

Definition isLineBreak (s : ProcessedSegment) : bool :=
  str_eqb (text s) [newline].


Definition annotatedNode (s : ProcessedSegment) : option Node :=
  if isLineBreak s then Some Br
  else match data s with
       | DataArray (a :: _) => Some (Ruby (text s) (pinyin a))
       | DataMember k =>
           if memberHasLength k then None else Some (Bare (text s))
       | _ => Some (Bare (text s))
       end.





(** The ruby text of a dictionary word: the pinyin at index 0 of its
    list, when the list has an entry. *)
Definition rubyOfCedict (cedict : Dictionary) (w : str) : Node :=
  match lookup cedict w with
  | Some (e :: _) => Ruby w (d_pinyin e)
  | _ => Bare w
  end.

Definition rubyOfCsv (csv : CsvDictionary) (w : str) : Node :=
  match lookup csv w with
  | Some (e :: _) => Ruby w (c_pinyin e)
  | _ => Bare w
  end.

(** The annotated node of a segment that carries a member of
    [Object.prototype]: none when the member has a truthy [length]. *)
Definition nodeOfMember (w : str) : option Node :=
  if memberHasLength w then None else Some (Bare w).

(** The annotated node of each segment of the output, by the kind of
    the segment. *)
Definition annotatedAsExpected (app : App) : Prop :=
  Forall (fun s =>
            isLineBreak s = false ->
            match type s with
            | unknown => True
            | not_found =>
                annotatedNode s = Some (rubyOfCedict (ccCedict app) (text s))
            | found =>
                (exists c, isLatin c = true /\ s = latinSegment c /\
                           annotatedNode s = Some (Bare [c])) \/
                (In (text s) (keys (csvDictionary app)) /\
                 annotatedNode s =
                 Some (rubyOfCsv (csvDictionary app) (text s))) \/
                (~ In (text s) (keys (csvDictionary app)) /\
                 objectPrototype (text s) = true /\
                 annotatedNode s = nodeOfMember (text s))
            end)
         (processedOutput app).

(** What a click on a segment of the output does to the selection:
    nothing on a segment that is not Matched or is the one of a Latin
    letter; on another Matched segment the click selects it when its
    text is a curriculum key, and otherwise the text is a name of
    [Object.prototype] and the click selects the segment when the
    member of that name has a truthy [length]. *)
Definition clicksAsExpected (app : App) : Prop :=
  forall s selected,
    In s (processedOutput app) ->
    ((exists c, isLatin c = true /\ s = latinSegment c) \/ type s <> found ->
     showDetails s selected = selected) /\
    (type s = found -> (forall c, s <> latinSegment c) ->
     (In (text s) (keys (csvDictionary app)) /\
      showDetails s selected = Some s) \/
     (~ In (text s) (keys (csvDictionary app)) /\
      objectPrototype (text s) = true /\
      showDetails s selected =
      if memberHasLength (text s) then Some s else selected)).

(** ** [parseCsvData]: the dictionary built from the parsed rows

    [Papa.parse] is a library; its result [result.data] is the input
    here.  A row is the object that [header: true] gives, read at the
    five column names; [None] is a column that the row lacks. *)

Record Row := mkRow {
  Simplified : option str;
  Chapter : option str;
  Pinyin : option str;
  Category : option str;
  Meaning : option str
}.

(** [String.prototype.trim]: the white space of [isBlank] removed at
    both ends. *)
Fixpoint trimStart (s : str) : str :=
  match s with
  | [] => []
  | c :: r => if isBlank c then trimStart r else s
  end.

Fixpoint trimEnd (s : str) : str :=
  match s with
  | [] => []
  | c :: r =>
      match trimEnd r with
      | [] => if isBlank c then [] else [c]
      | r' => c :: r'
      end
  end.

Definition trim (s : str) : str := trimEnd (trimStart s).

(** The enumeration order of the own keys of an object: the keys that
    are array indices (canonical decimal numerals below [2^32 - 1])
    first, in ascending numeric order, then the other keys in the order
    of their creation. *)
Definition isDigit (c : char) : bool := ((48 <=? c) && (c <=? 57))%N.

Fixpoint decimalValue (acc : N) (s : str) : N :=
  match s with
  | [] => acc
  | c :: r => decimalValue (acc * 10 + (c - 48))%N r
  end.

Definition arrayIndex (k : str) : option N :=
  match k with
  | [] => None
  | c :: r =>
      if forallb isDigit k
         && (negb (N.eqb c 48) || match r with [] => true | _ => false end)
         && (decimalValue 0 k <? 4294967295)%N
      then Some (decimalValue 0 k)
      else None
  end.

Section OwnKeys.
Variable V : Type.

Fixpoint insertIndexKey (n : N) (k : str) (v : V) (o : list (str * V))
  : list (str * V) :=
  match o with
  | [] => [(k, v)]
  | (k', v') :: r =>
      match arrayIndex k' with
      | Some m =>
          if (m <? n)%N then (k', v') :: insertIndexKey n k v r
          else (k, v) :: o
      | None => (k, v) :: o
      end
  end.

(** [o[k] = v] for a key that [o] does not have. *)
Definition defineKey (o : list (str * V)) (k : str) (v : V)
  : list (str * V) :=
  match arrayIndex k with
  | Some n => insertIndexKey n k v o
  | None => o ++ [(k, v)]
  end.

(** The value of an own key changed in place. *)
Fixpoint updateKey (o : list (str * V)) (k : str) (f : V -> V)
  : list (str * V) :=
  match o with
  | [] => []
  | (k', v') :: r =>
      if str_eqb k' k then (k', f v') :: r else (k', v') :: updateKey r k f
  end.
End OwnKeys.

Section ParseCsv.
(** The names that resolve on [Object.prototype] ([constructor],
    [toString], [__proto__], ...): read on the fresh object they give a
    truthy value that has no [push], so that the call throws. *)
Variable inherited : str -> bool.

(** The callback of [parsedData.forEach], on the dictionary built so
    far; [None] is a [TypeError]. *)
Definition addRow (newDictionary : CsvDictionary) (entry_raw : Row)
  : option CsvDictionary :=
  match Simplified entry_raw with
  | None => Some newDictionary
  | Some [] => Some newDictionary
  | Some simplified =>
      match Chapter entry_raw, Pinyin entry_raw,
            Category entry_raw, Meaning entry_raw with
      | Some ch, Some p, Some cat, Some m =>
          let entry := mkCsvEntry (trim ch) (trim p) (trim cat) (trim m) in
          if has newDictionary simplified then
            Some (updateKey newDictionary simplified (fun l => l ++ [entry]))
          else if inherited simplified then None
          else Some (defineKey newDictionary simplified [entry])
      | _, _, _, _ => None
      end
  end.

Fixpoint forEachRow (newDictionary : CsvDictionary) (parsedData : list Row)
  : option CsvDictionary :=
  match parsedData with
  | [] => Some newDictionary
  | entry_raw :: rest =>
      match addRow newDictionary entry_raw with
      | Some d => forEachRow d rest
      | None => None
      end
  end.

(** The value assigned to the cell [csvDictionary]; on [None] the
    exception leaves the cell as it was. *)
Definition parseRows (parsedData : list Row) : option CsvDictionary :=
  forEachRow [] parsedData.

End ParseCsv.

(** The entry that a complete row stores. *)
Definition entryOf (r : Row) : option CsvEntry :=
  match Chapter r, Pinyin r, Category r, Meaning r with
  | Some ch, Some p, Some cat, Some m =>
      Some (mkCsvEntry (trim ch) (trim p) (trim cat) (trim m))
  | _, _, _, _ => None
  end.

(** A row that the callback skips: no [Simplified], or the empty one. *)
Definition skipped (r : Row) : bool :=
  match Simplified r with
  | None | Some [] => true
  | Some (_ :: _) => false
  end.

(** A row at which the callback throws: it is not skipped and it lacks
    a column or names an inherited member. *)
Definition offending (inherited : str -> bool) (r : Row) : bool :=
  match Simplified r with
  | None | Some [] => false
  | Some k =>
      match entryOf r with
      | None => true
      | Some _ => inherited k
      end
  end.

(** The entries of the rows filed under [k], in row order. *)
Fixpoint entriesFor (k : str) (rows : list Row) : list CsvEntry :=
  match rows with
  | [] => []
  | r :: rest =>
      match Simplified r, entryOf r with
      | Some (c :: k'), Some e =>
          if str_eqb (c :: k') k then e :: entriesFor k rest
          else entriesFor k rest
      | _, _ => entriesFor k rest
      end
  end.

(** The list under a key once more entries are filed under it. *)
Definition fileEntries (old : option (list CsvEntry)) (es : list CsvEntry)
  : option (list CsvEntry) :=
  match old, es with
  | _, [] => old
  | Some l, _ => Some (l ++ es)
  | None, _ => Some es
  end.

(** What a read of the built dictionary gives for [k]. *)
Definition filedUnder (k : str) (rows : list Row) : option (list CsvEntry) :=
  match entriesFor k rows with
  | [] => None
  | es => Some es
  end.

(** The keys that the rows name, in row order, with repetitions. *)
Fixpoint simplifiedKeys (rows : list Row) : list str :=
  match rows with
  | [] => []
  | r :: rest =>
      match Simplified r with
      | Some (c :: k) => (c :: k) :: simplifiedKeys rest
      | _ => simplifiedKeys rest
      end
  end.

(** The first occurrences of a list of keys. *)
Fixpoint keepFirst (seen ks : list str) : list str :=
  match ks with
  | [] => []
  | k :: r =>
      if setHas seen k then keepFirst seen r
      else k :: keepFirst (seen ++ [k]) r
  end.

Definition isIndexKey (k : str) : bool :=
  match arrayIndex k with Some _ => true | None => false end.

(** Ascending numeric order of array-index keys. *)
Definition indexLe (a b : str) : Prop :=
  match arrayIndex a, arrayIndex b with
  | Some m, Some n => (m <= n)%N
  | _, _ => False
  end.

(** The enumeration order of a built dictionary: the index keys first,
    in ascending order, then the other keys in the order of their first
    rows. *)
Definition ownKeyOrder (ks : list str) (rows : list Row) : Prop :=
  exists idx,
    ks = idx ++ keepFirst [] (filter (fun k => negb (isIndexKey k))
                                     (simplifiedKeys rows)) /\
    Forall (fun k => isIndexKey k = true) idx /\
    StronglySorted indexLe idx.

Definition fieldsTrimmed (e : CsvEntry) : Prop :=
  trim (c_chapter e) = c_chapter e /\ trim (c_pinyin e) = c_pinyin e /\
  trim (c_category e) = c_category e /\ trim (c_meaning e) = c_meaning e.

(** Every Matched segment is the segment of a Latin letter, or carries
    a non-empty list, or carries the member of [Object.prototype] that
    its text names. *)
Definition matchedCarryLists (app : App) : Prop :=
  Forall (fun s => type s = found ->
                   (exists c, isLatin c = true /\ s = latinSegment c) \/
                   carriesAnnotationList s \/ carriesMember s)
         (processedOutput app).

(** Sample rows: two rows for one word, a row without [Simplified], a
    row whose key is an array index, and a row that lacks a column. *)
Definition rowOf (k ch p cat m : str) : Row :=
  mkRow (Some k) (Some ch) (Some p) (Some cat) (Some m).

Definition sampleRows : list Row :=
  [rowOf zh_nihao (lit " 1 "%string) (lit "ni3 hao3"%string)
         (lit "phrase"%string) (lit " hello"%string);
   mkRow None (Some []) (Some []) (Some []) (Some []);
   rowOf (lit "7"%string) (lit "2"%string) (lit "qi1"%string)
         (lit "number"%string) (lit "seven"%string);
   rowOf zh_ma (lit "2"%string) (lit "ma5"%string)
         (lit "particle"%string) (lit "question"%string);
   rowOf zh_nihao (lit "3"%string) (lit "ni3 hao3"%string)
         (lit "phrase"%string) (lit "hi "%string)].

Definition brokenRow : Row :=
  mkRow (Some zh_ni) (Some (lit "1"%string)) None (Some []) (Some []).

(** The state of a dictionary that [parseRows] returns. *)
Definition wellBuilt (inherited : str -> bool) (d : CsvDictionary) : Prop :=
  KeysNonEmpty d /\ EntriesNonEmpty d /\ NoDup (keys d) /\
  Forall (fun k => inherited k = false) (keys d) /\
  Forall (fun kv => Forall fieldsTrimmed (snd kv)) d.

Unset Implicit Arguments.

(** * Properties *)

(** ** Strings *)

Lemma str_eqb_eq (a b : str) : str_eqb a b = true <-> a = b.
Proof.
  revert b; induction a as [|x a IH]; intros [|y b]; simpl;
    try (split; [discriminate | discriminate]); try tauto.
  rewrite andb_true_iff, N.eqb_eq, IH.
  split; [intros [-> ->]; reflexivity | intros H; inversion H; auto].
Qed.

Lemma str_eqb_refl (a : str) : str_eqb a a = true.
Proof. apply str_eqb_eq; reflexivity. Qed.

Lemma str_eqb_neq (a b : str) : str_eqb a b = false <-> a <> b.
Proof.
  rewrite <- str_eqb_eq. destruct (str_eqb a b); split; congruence.
Qed.

Lemma prefixb_app (w t : str) :
  prefixb w t = true <-> exists r, t = w ++ r.
Proof.
  revert t; induction w as [|x w IH]; intros t; simpl.
  - split; [intros _; exists t; reflexivity | trivial].
  - destruct t as [|y t].
    + split; [discriminate | intros [r H]; discriminate].
    + rewrite andb_true_iff, N.eqb_eq, IH. split.
      * intros [-> [r ->]]. exists r; reflexivity.
      * intros [r H]. inversion H; subst. split; [reflexivity | exists r; reflexivity].
Qed.

Lemma prefixb_length (w t : str) :
  prefixb w t = true -> length w <= length t.
Proof.
  intros H. apply prefixb_app in H as [r ->]. rewrite length_app. lia.
Qed.

Lemma prefixb_refl (w : str) : prefixb w w = true.
Proof. apply prefixb_app. exists []. symmetry; apply app_nil_r. Qed.

(** Two prefixes of one string are comparable: the one that is not
    shorter equals the other when the lengths agree. *)
Lemma prefixb_eq (a b t : str) :
  prefixb a t = true -> prefixb b t = true ->
  length a = length b -> a = b.
Proof.
  intros Ha Hb Hl.
  apply prefixb_app in Ha as [ra ->]. apply prefixb_app in Hb as [rb Hb].
  apply (f_equal (firstn (length a))) in Hb.
  rewrite firstn_app, Nat.sub_diag, firstn_all in Hb. simpl in Hb.
  rewrite app_nil_r in Hb. rewrite Hb, Hl.
  rewrite firstn_app, Nat.sub_diag, firstn_all. simpl.
  apply app_nil_r.
Qed.

Lemma startsWith_app (text w : str) (i : nat) :
  startsWith text w i = true <-> exists r, skipn i text = w ++ r.
Proof. apply prefixb_app. Qed.

Lemma startsWith_bound (text w : str) (i : nat) :
  startsWith text w i = true -> i <= length text ->
  i + length w <= length text.
Proof.
  intros H Hi. apply prefixb_length in H.
  rewrite length_skipn in H. lia.
Qed.

Lemma startsWith_whole (w k : str) :
  startsWith w k 0 = true -> length w <= length k -> k = w.
Proof.
  unfold startsWith; simpl. intros H Hl.
  apply (prefixb_eq k w w H (prefixb_refl w)).
  apply prefixb_length in H. lia.
Qed.

Lemma startsWith_empty (text : str) (i : nat) : startsWith text [] i = true.
Proof. reflexivity. Qed.

(** The segment cut out by a match is the matched word. *)
Lemma startsWith_slice (text w : str) (i : nat) :
  i <= length text ->
  startsWith text w i = true ->
  firstn (i + length w) text = firstn i text ++ w.
Proof.
  intros Hi H. apply startsWith_app in H as [r Hr].
  rewrite <- (firstn_skipn i text) at 1.
  rewrite Hr, firstn_app.
  rewrite length_firstn, Nat.min_l by exact Hi.
  rewrite firstn_all2 by (rewrite length_firstn; lia).
  replace (i + length w - i) with (length w) by lia.
  rewrite firstn_app, Nat.sub_diag, firstn_all. simpl.
  rewrite app_nil_r. reflexivity.
Qed.

(** ** Objects *)

Lemma lookup_In_keys (V : Type) (o : list (str * V)) (k : str) (v : V) :
  lookup o k = Some v -> In k (keys o).
Proof.
  induction o as [|[k' v'] o IH]; simpl; [discriminate|].
  destruct (str_eqb k' k) eqn:E.
  - apply str_eqb_eq in E. auto.
  - auto.
Qed.

Lemma In_keys_lookup (V : Type) (o : list (str * V)) (k : str) :
  In k (keys o) -> exists v, lookup o k = Some v.
Proof.
  induction o as [|[k' v'] o IH]; simpl; [tauto|].
  intros [->|H].
  - rewrite str_eqb_refl. eauto.
  - destruct (str_eqb k' k); eauto.
Qed.

Lemma has_In_keys (V : Type) (o : list (str * V)) (k : str) :
  has o k = true <-> In k (keys o).
Proof.
  unfold has. split.
  - destruct (lookup o k) eqn:E; [|discriminate].
    intros _. eapply lookup_In_keys; eauto.
  - intros H. apply In_keys_lookup in H as [v ->]. reflexivity.
Qed.

Lemma has_lookup (V : Type) (o : list (str * V)) (k : str) (v : V) :
  lookup o k = Some v -> has o k = true.
Proof. unfold has. intros ->. reflexivity. Qed.

Lemma has_false_lookup (V : Type) (o : list (str * V)) (k : str) :
  has o k = false <-> lookup o k = None.
Proof. unfold has. destruct (lookup o k); split; congruence. Qed.

Lemma read_lookup (V : Type) (o : list (str * V)) (k : str) (v : V) :
  lookup o k = Some v -> read o k = Own v.
Proof. unfold read. intros ->. reflexivity. Qed.

Lemma read_inherited (V : Type) (o : list (str * V)) (k : str) :
  lookup o k = None -> objectPrototype k = true -> read o k = Member k.
Proof. unfold read. intros -> ->. reflexivity. Qed.

Lemma read_undefined (V : Type) (o : list (str * V)) (k : str) :
  lookup o k = None -> objectPrototype k = false -> read o k = Undefined.
Proof. unfold read. intros -> ->. reflexivity. Qed.

(** The read is truthy at the own keys and at the names of
    [Object.prototype], and nowhere else. *)
Lemma truthy_spec (V : Type) (o : list (str * V)) (k : str) :
  truthy o k = has o k || objectPrototype k.
Proof.
  unfold truthy, read, has. destruct (lookup o k); [reflexivity|].
  destruct (objectPrototype k); reflexivity.
Qed.

Lemma truthy_lookup (V : Type) (o : list (str * V)) (k : str) (v : V) :
  lookup o k = Some v -> truthy o k = true.
Proof. intros H. rewrite truthy_spec, (has_lookup _ _ _ _ H). reflexivity. Qed.

Lemma truthy_In_keys (V : Type) (o : list (str * V)) (k : str) :
  In k (keys o) -> truthy o k = true.
Proof.
  intros H. apply In_keys_lookup in H as [v H]. eapply truthy_lookup; eauto.
Qed.

Lemma truthy_true (V : Type) (o : list (str * V)) (k : str) :
  truthy o k = true <-> In k (keys o) \/ objectPrototype k = true.
Proof. rewrite truthy_spec, orb_true_iff, has_In_keys. tauto. Qed.

Lemma truthy_false (V : Type) (o : list (str * V)) (k : str) :
  truthy o k = false <-> ~ In k (keys o) /\ objectPrototype k = false.
Proof.
  rewrite truthy_spec, orb_false_iff, <- has_In_keys.
  destruct (has o k); intuition congruence.
Qed.

(** No name of [Object.prototype] is the empty string. *)
Lemma objectPrototype_nonempty (k : str) :
  objectPrototype k = true -> k <> [].
Proof. intros H ->. discriminate. Qed.

Lemma truthy_empty_object (V : Type) (k : str) :
  truthy (@nil (str * V)) k = objectPrototype k.
Proof. rewrite truthy_spec. reflexivity. Qed.

(** ** The sort of the keys *)

Lemma In_insertByLength (w x : str) (l : list str) :
  In x (insertByLength w l) <-> x = w \/ In x l.
Proof.
  induction l as [|y l IH]; simpl.
  - intuition congruence.
  - destruct (length w <? length y); simpl; rewrite ?IH; intuition congruence.
Qed.

Lemma In_sortLongestFirst (x : str) (l : list str) :
  In x (sortLongestFirst l) <-> In x l.
Proof.
  induction l as [|y l IH]; simpl; [tauto|].
  rewrite In_insertByLength, IH. intuition congruence.
Qed.

Lemma insertByLength_sorted (w : str) (l : list str) :
  StronglySorted notLonger l ->
  StronglySorted notLonger (insertByLength w l).
Proof.
  induction 1 as [|y l Hs IH Hall]; simpl.
  - constructor; constructor.
  - destruct (length w <? length y) eqn:E.
    + apply Nat.ltb_lt in E. constructor; [exact IH|].
      apply Forall_forall. intros x Hx.
      apply In_insertByLength in Hx as [->|Hx].
      * unfold notLonger; lia.
      * rewrite Forall_forall in Hall. auto.
    + apply Nat.ltb_ge in E. constructor.
      * constructor; assumption.
      * constructor; [exact E|].
        rewrite Forall_forall in Hall |- *. intros x Hx.
        specialize (Hall x Hx). unfold notLonger in *. lia.
Qed.

Lemma sortLongestFirst_sorted (l : list str) :
  StronglySorted notLonger (sortLongestFirst l).
Proof.
  induction l; simpl; [constructor | apply insertByLength_sorted; assumption].
Qed.

Lemma length_insertByLength (w : str) (l : list str) :
  length (insertByLength w l) = S (length l).
Proof.
  induction l as [|y l IH]; simpl; [reflexivity|].
  destruct (length w <? length y); simpl; congruence.
Qed.

Lemma length_sortLongestFirst (l : list str) :
  length (sortLongestFirst l) = length l.
Proof.
  induction l; simpl; [reflexivity|].
  rewrite length_insertByLength. congruence.
Qed.

(** The sort is stable: keys of one length keep their enumeration
    order. *)
Lemma sortLongestFirst_example :
  sortLongestFirst [zh_ni; zh_nihao; zh_hao; zh_nihaoma; zh_ma ++ zh_ma] =
  [zh_nihaoma; zh_nihao; zh_ma ++ zh_ma; zh_ni; zh_hao].
Proof. reflexivity. Qed.

(** In a list sorted longest first, the first element that satisfies a
    test is a longest one among those that satisfy it. *)
Lemma find_longest (p : str -> bool) (l : list str) (w : str) :
  StronglySorted notLonger l ->
  find p l = Some w ->
  forall k, In k l -> p k = true -> length k <= length w.
Proof.
  induction 1 as [|y l Hs IH Hall]; simpl; [discriminate|].
  destruct (p y) eqn:E.
  - intros [= ->] k [->|Hk] _; [lia|].
    rewrite Forall_forall in Hall. exact (Hall k Hk).
  - intros Hf k [->|Hk] Hp; [congruence|]. eauto.
Qed.

(** ** The two dictionary matches *)

Lemma lexMatch_Some (scriptText : str) (cedict : Dictionary) (i : nat) (w : str) :
  lexMatch scriptText cedict i = Some w ->
  In w (keys cedict) /\ startsWith scriptText w i = true /\
  forall k, In k (keys cedict) -> startsWith scriptText k i = true ->
            length k <= length w.
Proof.
  unfold lexMatch, cedictWords. intros H.
  pose proof (find_some _ _ H) as [Hin Hp].
  rewrite In_sortLongestFirst in Hin.
  split; [exact Hin|]. split; [exact Hp|].
  intros k Hk Hs.
  apply (find_longest _ _ w (sortLongestFirst_sorted (keys cedict)) H);
    [|exact Hs].
  rewrite In_sortLongestFirst. exact Hk.
Qed.

Lemma lexMatch_None (scriptText : str) (cedict : Dictionary) (i : nat) :
  lexMatch scriptText cedict i = None <->
  noKeyAt scriptText (keys cedict) i.
Proof.
  unfold lexMatch, cedictWords, noKeyAt. split.
  - intros H w Hw. apply (find_none _ _ H).
    rewrite In_sortLongestFirst. exact Hw.
  - intros H. destruct (find _ _) eqn:E; [|reflexivity].
    apply find_some in E as [Hin Hp]. rewrite In_sortLongestFirst in Hin.
    rewrite (H _ Hin) in Hp. discriminate.
Qed.

Lemma csvMatch_Some (scriptText : str) (csv : CsvDictionary) (i : nat) (w : str) :
  csvMatch scriptText csv i = Some w ->
  In w (keys csv) /\ startsWith scriptText w i = true.
Proof. unfold csvMatch. intros H. apply find_some in H. exact H. Qed.

Lemma csvMatch_None (scriptText : str) (csv : CsvDictionary) (i : nat) :
  csvMatch scriptText csv i = None <-> noKeyAt scriptText (keys csv) i.
Proof.
  unfold csvMatch, noKeyAt. split.
  - intros H w Hw. exact (find_none _ _ H w Hw).
  - intros H. destruct (find _ _) eqn:E; [|reflexivity].
    apply find_some in E as [Hin Hp]. rewrite (H _ Hin) in Hp. discriminate.
Qed.

(** The longest key that starts the text at [i] is found, whatever the
    enumeration order of the dictionary. *)
Lemma lexMatch_whole (w : str) (cedict : Dictionary) :
  In w (keys cedict) -> lexMatch w cedict 0 = Some w.
Proof.
  intros Hin. destruct (lexMatch w cedict 0) as [k|] eqn:E.
  - apply lexMatch_Some in E as (Hk & Hs & Hmax).
    f_equal. apply startsWith_whole; [exact Hs|].
    apply Hmax; [exact Hin|]. apply prefixb_refl.
  - apply lexMatch_None in E. specialize (E w Hin).
    unfold startsWith in E; simpl in E. rewrite prefixb_refl in E. discriminate.
Qed.

(** ** [GetSegmentsInCsv] *)

Section SplitFacts.
Variable csv : CsvDictionary.

(** What a successful scan returns: the first split point, counted from
    [k], at which the reads of both halves are truthy. *)
Lemma scanSplits_Some (w : str) (n k : nat) (segs : list str) :
  scanSplits csv w n k = Some segs ->
  exists j, k <= j < k + n /\
            segs = [firstn j w; skipn j w] /\
            truthy csv (firstn j w) = true /\ truthy csv (skipn j w) = true /\
            forall m, k <= m < j ->
                      truthy csv (firstn m w) && truthy csv (skipn m w) = false.
Proof.
  revert k; induction n as [|n IH]; intros k; simpl; [discriminate|].
  unfold substring_to, substring_from.
  destruct (truthy csv (firstn k w) && truthy csv (skipn k w)) eqn:E.
  - intros [= <-]. apply andb_true_iff in E as [E1 E2].
    exists k. repeat split; auto; lia.
  - intros H. apply IH in H as (j & Hj & -> & H1 & H2 & Hmin).
    exists j. repeat split; auto; try lia.
    intros m Hm. destruct (Nat.eq_dec m k) as [->|Hne]; [exact E|].
    apply Hmin. lia.
Qed.

Lemma scanSplits_first (w : str) (n k j : nat) :
  k <= j < k + n ->
  truthy csv (firstn j w) = true -> truthy csv (skipn j w) = true ->
  (forall m, k <= m < j ->
             truthy csv (firstn m w) && truthy csv (skipn m w) = false) ->
  scanSplits csv w n k = Some [firstn j w; skipn j w].
Proof.
  revert k; induction n as [|n IH]; intros k Hj H1 H2 Hmin; [lia|].
  simpl. unfold substring_to, substring_from.
  destruct (Nat.eq_dec j k) as [->|Hne].
  - rewrite H1, H2. reflexivity.
  - rewrite (Hmin k) by lia. apply IH; auto; try lia.
    intros m Hm. apply Hmin. lia.
Qed.

Lemma scanSplits_None (w : str) (n k : nat) :
  scanSplits csv w n k = None ->
  forall m, k <= m < k + n ->
            truthy csv (firstn m w) && truthy csv (skipn m w) = false.
Proof.
  revert k; induction n as [|n IH]; intros k; simpl; [intros _ m Hm; lia|].
  unfold substring_to, substring_from.
  destruct (truthy csv (firstn k w) && truthy csv (skipn k w)) eqn:E; [discriminate|].
  intros H m Hm. destruct (Nat.eq_dec m k) as [->|Hne]; [exact E|].
  apply (IH _ H). lia.
Qed.

(** The segments returned cover the word, and the read of each is
    truthy. *)
Lemma GetSegmentsInCsv_Some (w : str) (segs : list str) :
  GetSegmentsInCsv csv w = Some segs ->
  concat segs = w /\ segs <> [] /\ Forall (fun s => truthy csv s = true) segs.
Proof.
  unfold GetSegmentsInCsv. destruct (truthy csv w) eqn:E.
  - intros [= <-]. simpl. rewrite app_nil_r. repeat split; auto; discriminate.
  - intros H. apply scanSplits_Some in H as (j & _ & -> & H1 & H2 & _).
    simpl. rewrite app_nil_r, firstn_skipn.
    repeat split; auto; discriminate.
Qed.

Lemma GetSegmentsInCsv_direct (w : str) :
  truthy csv w = true -> GetSegmentsInCsv csv w = Some [w].
Proof. unfold GetSegmentsInCsv. intros ->. reflexivity. Qed.

Lemma GetSegmentsInCsv_single (w : str) :
  length w <= 1 -> truthy csv w = false -> GetSegmentsInCsv csv w = None.
Proof.
  unfold GetSegmentsInCsv. intros Hl ->.
  replace (length w - 1) with 0 by lia. reflexivity.
Qed.

End SplitFacts.

(** ** The loop *)

Section LoopFacts.
Variable scriptText : str.
Variable cedict : Dictionary.
Variable csv : CsvDictionary.

Local Abbreviation body := (loopBody scriptText cedict csv).
Local Abbreviation loop := (whileLoop scriptText cedict csv).
Local Abbreviation Iter := (Iteration scriptText cedict csv).

(** Every run of the body is one of the seven iterations. *)
Lemma loopBody_Iteration (st : LoopState) :
  cursor st < length scriptText -> Iter st (body st).
Proof.
  intros Hlt. unfold loopBody.
  destruct (nth_error scriptText (cursor st)) as [c|] eqn:Hc.
  2:{ apply nth_error_None in Hc. lia. }
  destruct (N.eqb c newline) eqn:Hnl.
  { apply N.eqb_eq in Hnl; subst c. apply it_newline; exact Hc. }
  apply N.eqb_neq in Hnl.
  destruct (isLatin c) eqn:Hla.
  { eapply it_latin; eauto. }
  destruct (isBlank c) eqn:Hbl.
  { eapply it_blank; eauto. }
  assert (Hlex : lexical scriptText (cursor st) c) by (repeat split; auto).
  destruct (lexMatch scriptText cedict (cursor st)) as [w|] eqn:Hm.
  - destruct (GetSegmentsInCsv csv w) as [segs|] eqn:Hg.
    + eapply it_known; eauto.
    + eapply it_unmatched; eauto.
  - destruct (csvMatch scriptText csv (cursor st)) as [w|] eqn:Hcm.
    + eapply it_curriculum; eauto.
    + eapply it_skip; eauto.
Qed.

(** No iteration moves the cursor past the end of the text. *)
Lemma Iteration_bound (st st' : LoopState) :
  cursor st < length scriptText -> Iter st st' ->
  cursor st' <= length scriptText.
Proof.
  intros Hlt H.
  destruct H as [ | | | c w segs _ Hm _ | c w _ Hm _ | c w _ _ Hm | ];
    simpl; try lia.
  - apply lexMatch_Some in Hm as (_ & Hs & _).
    apply startsWith_bound in Hs; lia.
  - apply lexMatch_Some in Hm as (_ & Hs & _).
    apply startsWith_bound in Hs; lia.
  - apply csvMatch_Some in Hm as (_ & Hs).
    apply startsWith_bound in Hs; lia.
Qed.

(** With no empty key, every iteration moves the cursor forward. *)
Lemma Iteration_advance (st st' : LoopState) :
  KeysNonEmpty cedict -> KeysNonEmpty csv ->
  Iter st st' -> cursor st < cursor st'.
Proof.
  unfold KeysNonEmpty. rewrite !Forall_forall. intros Hd Hc H.
  assert (Hpos : forall w : str, w <> [] -> 0 < length w)
    by (intros [|x w] Hw; [congruence | simpl; lia]).
  destruct H as [ | | | c w segs _ Hm _ | c w _ Hm _ | c w _ _ Hm | ];
    simpl; try lia.
  - apply lexMatch_Some in Hm as (Hin & _). specialize (Hpos w (Hd w Hin)). lia.
  - apply lexMatch_Some in Hm as (Hin & _). specialize (Hpos w (Hd w Hin)). lia.
  - apply csvMatch_Some in Hm as (Hin & _). specialize (Hpos w (Hc w Hin)). lia.
Qed.

(** A property kept by every iteration holds when the loop ends, and
    the cursor is then at the end of the text. *)
Lemma whileLoop_invariant (P : LoopState -> Prop) :
  (forall st st', P st -> cursor st < length scriptText ->
                  Iter st st' -> P st') ->
  forall fuel st r, P st -> loop fuel st = Some r ->
                    P r /\ length scriptText <= cursor r.
Proof.
  intros Hstep. induction fuel as [|fuel IH]; intros st r HP; simpl;
    destruct (cursor st <? length scriptText) eqn:E;
    try discriminate.
  - apply Nat.ltb_ge in E. intros [= <-]. auto.
  - apply Nat.ltb_lt in E. intros H. apply (IH (body st)); [|exact H].
    eapply Hstep; eauto. apply loopBody_Iteration; exact E.
  - apply Nat.ltb_ge in E. intros [= <-]. auto.
Qed.

Lemma whileLoop_cursor (fuel : nat) (st r : LoopState) :
  cursor st <= length scriptText -> loop fuel st = Some r ->
  cursor r = length scriptText.
Proof.
  intros Hle H.
  apply (whileLoop_invariant (fun s => cursor s <= length scriptText))
    in H as [H1 H2]; [lia| |exact Hle].
  intros s s' _ Hlt Hit. eapply Iteration_bound; eauto.
Qed.

(** Enough fuel: one unit per code unit left. *)
Lemma whileLoop_terminates (fuel : nat) (st : LoopState) :
  KeysNonEmpty cedict -> KeysNonEmpty csv ->
  length scriptText - cursor st <= fuel ->
  exists r, loop fuel st = Some r.
Proof.
  intros Hd Hc. revert st. induction fuel as [|fuel IH]; intros st Hf; simpl;
    destruct (cursor st <? length scriptText) eqn:E; eauto.
  - apply Nat.ltb_lt in E. lia.
  - apply Nat.ltb_lt in E. apply IH.
    pose proof (Iteration_advance _ _ Hd Hc (loopBody_Iteration st E)). lia.
Qed.

(** More fuel does not change a result. *)
Lemma whileLoop_more_fuel (fuel extra : nat) (st r : LoopState) :
  loop fuel st = Some r -> loop (fuel + extra) st = Some r.
Proof.
  revert st. induction fuel as [|fuel IH]; intros st; simpl;
    destruct (cursor st <? length scriptText) eqn:E; try discriminate.
  - intros [= <-]. destruct extra; simpl; rewrite E; reflexivity.
  - apply IH.
  - trivial.
Qed.

End LoopFacts.

(** ** The branches of the body, as equations *)

Section BodyEquations.
Variable scriptText : str.
Variable cedict : Dictionary.
Variable csv : CsvDictionary.

Local Abbreviation body := (loopBody scriptText cedict csv).
Local Abbreviation loop := (whileLoop scriptText cedict csv).

Lemma isLatin_not_newline (c : char) : isLatin c = true -> c <> newline.
Proof. intros H ->. discriminate H. Qed.

Lemma loopBody_newline (st : LoopState) :
  nth_error scriptText (cursor st) = Some newline ->
  body st = mkLoop (cursor st + 1) (results st ++ [newlineSegment])
                   (unknownSet st).
Proof. unfold loopBody. intros ->. reflexivity. Qed.

Lemma loopBody_latin (st : LoopState) (c : char) :
  nth_error scriptText (cursor st) = Some c -> isLatin c = true ->
  body st = mkLoop (cursor st + 1) (results st ++ [latinSegment c])
                   (unknownSet st).
Proof.
  unfold loopBody. intros -> H.
  destruct (N.eqb c newline) eqn:E.
  - apply N.eqb_eq in E. destruct (isLatin_not_newline c H E).
  - rewrite H. reflexivity.
Qed.

Lemma loopBody_blank (st : LoopState) (c : char) :
  nth_error scriptText (cursor st) = Some c ->
  c <> newline -> isLatin c = false -> isBlank c = true ->
  body st = mkLoop (cursor st + 1) (results st) (unknownSet st).
Proof.
  unfold loopBody. intros -> Hn Hl Hb.
  apply N.eqb_neq in Hn. rewrite Hn, Hl, Hb. reflexivity.
Qed.

Lemma loopBody_lexical (st : LoopState) (c : char) :
  lexical scriptText (cursor st) c ->
  body st =
  match lexMatch scriptText cedict (cursor st) with
  | Some w =>
      match GetSegmentsInCsv csv w with
      | Some segs =>
          mkLoop (cursor st + length w)
                 (results st ++ map (foundSegment csv) segs)
                 (unknownSet st)
      | None =>
          mkLoop (cursor st + length w)
                 (results st ++ [mkSegment w not_found (dataOfDict cedict w)])
                 (setAdd (unknownSet st) w)
      end
  | None =>
      match csvMatch scriptText csv (cursor st) with
      | Some w =>
          mkLoop (cursor st + length w)
                 (results st ++ [foundSegment csv w])
                 (unknownSet st)
      | None => mkLoop (cursor st + 1) (results st) (unknownSet st)
      end
  end.
Proof.
  unfold loopBody. intros (-> & Hn & Hl & Hb).
  apply N.eqb_neq in Hn. rewrite Hn, Hl, Hb. reflexivity.
Qed.

Lemma loopBody_known (st : LoopState) (c : char) (w : str) (segs : list str) :
  lexical scriptText (cursor st) c ->
  lexMatch scriptText cedict (cursor st) = Some w ->
  GetSegmentsInCsv csv w = Some segs ->
  body st = mkLoop (cursor st + length w)
                   (results st ++ map (foundSegment csv) segs)
                   (unknownSet st).
Proof. intros H Hm Hg. rewrite (loopBody_lexical st c H), Hm, Hg. reflexivity. Qed.

Lemma loopBody_unmatched (st : LoopState) (c : char) (w : str) :
  lexical scriptText (cursor st) c ->
  lexMatch scriptText cedict (cursor st) = Some w ->
  GetSegmentsInCsv csv w = None ->
  body st = mkLoop (cursor st + length w)
                   (results st ++ [mkSegment w not_found (dataOfDict cedict w)])
                   (setAdd (unknownSet st) w).
Proof. intros H Hm Hg. rewrite (loopBody_lexical st c H), Hm, Hg. reflexivity. Qed.

Lemma whileLoop_step (fuel : nat) (st : LoopState) :
  cursor st < length scriptText ->
  loop (S fuel) st = loop fuel (body st).
Proof. intros H. apply Nat.ltb_lt in H. simpl. rewrite H. reflexivity. Qed.

Lemma whileLoop_done (fuel : nat) (st : LoopState) :
  length scriptText <= cursor st -> loop fuel st = Some st.
Proof. intros H. apply Nat.ltb_ge in H. destruct fuel; simpl; rewrite H; reflexivity. Qed.

End BodyEquations.

(** [processScript] on a dictionary that has a key runs the loop. *)
Lemma processScript_loaded (fuel : nat) (t : str) (d : Dictionary)
      (c : CsvDictionary) (out : list ProcessedSegment)
      (unk : list UnknownWord) (log : list str) :
  keys d <> [] ->
  processScript fuel (mkApp t d c out unk log) =
  match whileLoop t d c fuel (mkLoop 0 [] []) with
  | None => None
  | Some st =>
      Some (mkApp t d c (results st)
                  (mapIndexed (unknownWordOf d) 0 (unknownSet st)) log)
  end.
Proof.
  unfold processScript; simpl. destruct (keys d); [congruence | reflexivity].
Qed.

Lemma In_keys_nonempty (V : Type) (o : list (str * V)) (k : str) :
  In k (keys o) -> keys o <> [].
Proof. destruct o; simpl; [tauto | discriminate]. Qed.

(** ** Termination *)

(** C10. Under the precondition that no key of the Lexicon and no key of
    the CurriculumLexicon is the empty string, every iteration of the
    segmentation loop moves the cursor forward by at least one code
    unit, so the loop and [processScript] return for every text: fuel
    equal to the number of code units left is enough. *)
Theorem segmentation_terminates
        (scriptText : str) (cedict : Dictionary) (csv : CsvDictionary) :
  KeysNonEmpty cedict -> KeysNonEmpty csv ->
  (forall st, cursor st < length scriptText ->
              cursor st + 1 <= cursor (loopBody scriptText cedict csv st)) /\
  (forall fuel st, length scriptText - cursor st <= fuel ->
                   exists r, whileLoop scriptText cedict csv fuel st = Some r) /\
  (forall fuel out unk log,
      length scriptText <= fuel ->
      exists app,
        processScript fuel (mkApp scriptText cedict csv out unk log) = Some app).
Proof.
  intros Hd Hc. split; [|split].
  - intros st Hlt.
    pose proof (Iteration_advance _ _ _ _ _ Hd Hc
                  (loopBody_Iteration scriptText cedict csv st Hlt)).
    lia.
  - intros fuel st Hf. apply whileLoop_terminates; assumption.
  - intros fuel out unk log Hf. unfold processScript; simpl.
    destruct (keys cedict); [eauto|].
    destruct (whileLoop_terminates scriptText cedict csv fuel
                                   (mkLoop 0 [] []) Hd Hc)
      as [r ->]; [simpl; lia | eauto].
Qed.

Lemma segmentation_terminates_witness :
  exists app,
    processScript 2 (mkApp zh_nihao sampleCedict [] [] [] []) = Some app.
Proof.
  refine (proj2 (proj2 (segmentation_terminates zh_nihao sampleCedict [] _ _))
                2 [] [] [] _).
  - repeat constructor; discriminate.
  - constructor.
  - simpl; lia.
Defined.

(** The precondition is needed: with the empty string as a Lexicon key
    the cursor stays where no longer key matches, and no amount of fuel
    lets the loop return. *)
Lemma empty_key_never_returns (fuel : nat) (st : LoopState) :
  cursor st = 0 ->
  whileLoop zh_ni [([], [sampleEntry])] [] fuel st = None.
Proof.
  revert st. induction fuel as [|fuel IH]; intros [i r u]; simpl;
    intros ->; [reflexivity|].
  apply IH. reflexivity.
Qed.

(** ** Longest match *)

Lemma lexical_zh_ni (rest : str) : lexical (zh_ni ++ rest) 0 20320%N.
Proof. repeat split; discriminate. Qed.

(** C2.  The Lexicon keys are tried longest first and the first one
    that the text starts with at the cursor is taken.  So, where the
    loop attempts a Lexicon match, the key it selects is a Lexicon key
    that the text starts with at the cursor and no Lexicon key that the
    text starts with there is longer; a key is selected whenever some
    Lexicon key matches; the cursor moves by the length of the selected
    key.  In particular, with a Lexicon that contains both the
    one-character word and the two-character word and an empty
    curriculum, the two-character text gives exactly one Unmatched
    segment, the two-character word. *)
Theorem longest_match_wins :
  (forall scriptText cedict i,
      StronglySorted notLonger (cedictWords cedict) /\
      (forall k, In k (cedictWords cedict) <-> In k (keys cedict)) /\
      lexMatch scriptText cedict i =
      find (fun w => startsWith scriptText w i) (cedictWords cedict)) /\
  (forall scriptText cedict csv st c,
      lexical scriptText (cursor st) c ->
      (forall w,
          lexMatch scriptText cedict (cursor st) = Some w ->
          In w (keys cedict) /\
          startsWith scriptText w (cursor st) = true /\
          (forall k, In k (keys cedict) ->
                     startsWith scriptText k (cursor st) = true ->
                     length k <= length w) /\
          cursor (loopBody scriptText cedict csv st) = cursor st + length w) /\
      (forall k, In k (keys cedict) ->
                 startsWith scriptText k (cursor st) = true ->
                 exists w, lexMatch scriptText cedict (cursor st) = Some w)) /\
  (forall cedict fuel out unk log,
      In zh_ni (keys cedict) -> In zh_nihao (keys cedict) -> 1 <= fuel ->
      processScript fuel (mkApp zh_nihao cedict [] out unk log) =
      Some (mkApp zh_nihao cedict []
                  [mkSegment zh_nihao not_found (dataOfDict cedict zh_nihao)]
                  [unknownWordOf cedict zh_nihao 0] log)).
Proof.
  split; [|split].
  - intros scriptText cedict i. split; [apply sortLongestFirst_sorted|].
    split; [intros k; apply In_sortLongestFirst | reflexivity].
  - intros scriptText cedict csv st c Hlex. split.
    + intros w Hm. pose proof (lexMatch_Some _ _ _ _ Hm) as (Hin & Hs & Hmax).
      repeat split; auto.
      rewrite (loopBody_lexical scriptText cedict csv st c Hlex), Hm.
      destruct (GetSegmentsInCsv csv w); reflexivity.
    + intros k Hk Hs.
      destruct (lexMatch scriptText cedict (cursor st)) as [w|] eqn:E; eauto.
      apply lexMatch_None in E. rewrite (E k Hk) in Hs. discriminate.
  - intros cedict fuel out unk log _ Hin Hf.
    rewrite processScript_loaded by (eapply In_keys_nonempty; eauto).
    destruct fuel as [|fuel]; [lia|].
    rewrite whileLoop_step by (simpl; lia).
    rewrite (loopBody_unmatched zh_nihao cedict [] _ 20320%N zh_nihao);
      [ | apply (lexical_zh_ni zh_hao) | apply lexMatch_whole; exact Hin
        | reflexivity ].
    rewrite whileLoop_done by (simpl; lia). reflexivity.
Qed.

Lemma longest_match_wins_witness :
  (In zh_nihao (keys sampleCedict) /\
   startsWith zh_nihao zh_nihao 0 = true /\
   (forall k, In k (keys sampleCedict) ->
              startsWith zh_nihao k 0 = true -> length k <= length zh_nihao) /\
   cursor (loopBody zh_nihao sampleCedict [] (mkLoop 0 [] [])) =
   0 + length zh_nihao) /\
  processScript 1 (mkApp zh_nihao sampleCedict [] [] [] []) =
  Some (mkApp zh_nihao sampleCedict []
              [mkSegment zh_nihao not_found (dataOfDict sampleCedict zh_nihao)]
              [unknownWordOf sampleCedict zh_nihao 0] []).
Proof.
  split.
  - apply (proj1 (proj1 (proj2 longest_match_wins) zh_nihao sampleCedict []
                        (mkLoop 0 [] []) 20320%N
                        (lexical_zh_ni zh_hao))
                 zh_nihao).
    reflexivity.
  - apply (proj2 (proj2 longest_match_wins) sampleCedict 1 [] [] []).
    + simpl; auto.
    + simpl; auto.
    + lia.
Defined.

(** ** Binary decomposition *)

(** The split that the loop takes: where the read of the Lexicon match
    [w] itself is not truthy, the first split point at which the reads
    of both halves are truthy.  The two segments carry what the reads
    of the halves give. *)
Lemma first_truthy_split_wins
      (scriptText : str) (cedict : Dictionary) (csv : CsvDictionary)
      (st : LoopState) (c : char) (w : str) (k : nat) :
  lexical scriptText (cursor st) c ->
  lexMatch scriptText cedict (cursor st) = Some w ->
  truthy csv w = false ->
  1 <= k < length w ->
  truthy csv (firstn k w) = true -> truthy csv (skipn k w) = true ->
  (forall j, 1 <= j < k ->
             truthy csv (firstn j w) && truthy csv (skipn j w) = false) ->
  loopBody scriptText cedict csv st =
  mkLoop (cursor st + length w)
         (results st ++
            [mkSegment (firstn k w) found (dataOfCsv csv (firstn k w));
             mkSegment (skipn k w) found (dataOfCsv csv (skipn k w))])
         (unknownSet st).
Proof.
  intros Hlex Hm Hw Hk H1 H2 Hmin.
  rewrite (loopBody_known scriptText cedict csv st c w
                          [firstn k w; skipn k w] Hlex Hm); [reflexivity|].
  unfold GetSegmentsInCsv. rewrite Hw.
  apply scanSplits_first; auto. lia.
Qed.

(** Where neither the word nor a half of a split up to [k] is a name of
    [Object.prototype], the split taken is the first one whose halves
    are both curriculum keys, and the two segments carry the curriculum
    lists of the halves. *)
Lemma binary_decomposition_on_own_keys
      (scriptText : str) (cedict : Dictionary) (csv : CsvDictionary)
      (st : LoopState) (c : char) (w : str) (k : nat)
      (e1 e2 : list CsvEntry) :
  lexical scriptText (cursor st) c ->
  lexMatch scriptText cedict (cursor st) = Some w ->
  lookup csv w = None -> objectPrototype w = false ->
  1 <= k < length w ->
  lookup csv (firstn k w) = Some e1 ->
  lookup csv (skipn k w) = Some e2 ->
  (forall j, 1 <= j < k ->
             has csv (firstn j w) && has csv (skipn j w) = false) ->
  (forall j, 1 <= j < k ->
             objectPrototype (firstn j w) = false /\
             objectPrototype (skipn j w) = false) ->
  loopBody scriptText cedict csv st =
  mkLoop (cursor st + length w)
         (results st ++
            [mkSegment (firstn k w) found (DataArray (map annOfCsv e1));
             mkSegment (skipn k w) found (DataArray (map annOfCsv e2))])
         (unknownSet st).
Proof.
  intros Hlex Hm Hw Hp Hk H1 H2 Hmin Hown.
  rewrite (first_truthy_split_wins scriptText cedict csv st c w k Hlex Hm).
  - unfold dataOfCsv.
    rewrite (read_lookup _ _ _ _ H1), (read_lookup _ _ _ _ H2). reflexivity.
  - rewrite truthy_spec, Hp, (proj2 (has_false_lookup _ csv w) Hw). reflexivity.
  - exact Hk.
  - eapply truthy_lookup; eauto.
  - eapply truthy_lookup; eauto.
  - intros j Hj. rewrite !truthy_spec.
    destruct (Hown j Hj) as [-> ->]. rewrite !orb_false_r. auto.
Qed.

(** The example of the split preference: the three-character word as
    the only Lexicon key, the two-character word and the particle as
    the curriculum keys. *)
Lemma split_preference_example
      (es : list DictEntry) (c1 c2 : list CsvEntry) (fuel : nat)
      (out : list ProcessedSegment) (unk : list UnknownWord) (log : list str) :
  1 <= fuel ->
  processScript fuel (mkApp zh_nihaoma [(zh_nihaoma, es)]
                            [(zh_nihao, c1); (zh_ma, c2)] out unk log) =
  Some (mkApp zh_nihaoma [(zh_nihaoma, es)] [(zh_nihao, c1); (zh_ma, c2)]
              [mkSegment zh_nihao found (DataArray (map annOfCsv c1));
               mkSegment zh_ma found (DataArray (map annOfCsv c2))]
              [] log).
Proof.
  intros Hf. rewrite processScript_loaded by discriminate.
  destruct fuel as [|fuel]; [lia|].
  rewrite whileLoop_step by (simpl; lia).
  rewrite whileLoop_done by (simpl; lia). reflexivity.
Qed.

(** C3.  The code at the failing input.  The Lexicon match is the one
    key of the Lexicon, a word of nine code units that is no curriculum
    key; the first split point at which both halves are curriculum keys
    is 3.  The test of line 129 is the truthiness of the two reads, and
    at the split point 1 the read of the right half, [toString], gives
    the function that [Object.prototype] defines under that name: the
    scan returns there, and the loop emits the first character with
    its curriculum list and then a Matched segment [toString] whose
    data is that function. *)
Theorem split_stops_at_an_inherited_name :
  lexMatch zh_ni_toString inheritedCedict 0 = Some zh_ni_toString /\
  ~ In zh_ni_toString (keys inheritedCsv) /\
  In (firstn 3 zh_ni_toString) (keys inheritedCsv) /\
  In (skipn 3 zh_ni_toString) (keys inheritedCsv) /\
  ~ In (skipn 1 zh_ni_toString) (keys inheritedCsv) /\
  ~ In (firstn 2 zh_ni_toString) (keys inheritedCsv) /\
  GetSegmentsInCsv inheritedCsv zh_ni_toString =
  Some [zh_ni; lit "toString"%string] /\
  processScript 1 (mkApp zh_ni_toString inheritedCedict inheritedCsv
                         [] [] []) =
  Some (mkApp zh_ni_toString inheritedCedict inheritedCsv
              [mkSegment zh_ni found
                         (DataArray (map annOfCsv [sampleCsvEntry]));
               mkSegment (lit "toString"%string) found
                         (DataMember (lit "toString"%string))]
              [] []) /\
  processScript 1 (mkApp zh_ni_toString inheritedCedict inheritedCsv
                         [] [] []) <>
  Some (mkApp zh_ni_toString inheritedCedict inheritedCsv
              [mkSegment (firstn 3 zh_ni_toString) found
                         (DataArray (map annOfCsv [sampleCsvEntry]));
               mkSegment (skipn 3 zh_ni_toString) found
                         (DataArray (map annOfCsv [sampleCsvEntry]))]
              [] []).
Proof.
  assert (Hne : forall a b : str, str_eqb a b = false -> a <> b)
    by (intros a b H; apply str_eqb_neq; exact H).
  split; [reflexivity|].
  split.
  { simpl. intros [H|[H|[H|[]]]]; revert H; apply Hne; reflexivity. }
  split; [simpl; auto|]. split; [simpl; auto|].
  split.
  { simpl. intros [H|[H|[H|[]]]]; revert H; apply Hne; reflexivity. }
  split.
  { simpl. intros [H|[H|[H|[]]]]; revert H; apply Hne; reflexivity. }
  split; [reflexivity|]. split; [reflexivity|].
  intros H. discriminate H.
Qed.

(** ** Latin letters *)

Lemma isLatin_spec (c : char) :
  isLatin c = true <->
  ((97 <= c <= 122)%N \/ (65 <= c <= 90)%N).
Proof.
  unfold isLatin.
  rewrite orb_true_iff, !andb_true_iff, !N.leb_le. tauto.
Qed.

Ltac step_latin :=
  rewrite whileLoop_step by (simpl; lia);
  erewrite loopBody_latin by reflexivity;
  cbn [cursor results unknownSet Nat.add app].

Ltac step_blank :=
  rewrite whileLoop_step by (simpl; lia);
  erewrite loopBody_blank by (reflexivity || discriminate);
  cbn [cursor results unknownSet Nat.add app].

(** The run on the six code units of the sample text: five letters and
    one space. *)
Lemma ni_hao_run (cedict : Dictionary) (csv : CsvDictionary) (fuel : nat)
      (out : list ProcessedSegment) (unk : list UnknownWord) (log : list str) :
  keys cedict <> [] -> 6 <= fuel ->
  processScript fuel (mkApp text_ni_hao cedict csv out unk log) =
  Some (mkApp text_ni_hao cedict csv
              [latinSegment 110%N; latinSegment 105%N; latinSegment 104%N;
               latinSegment 97%N; latinSegment 111%N]
              [] log).
Proof.
  intros Hk Hf. rewrite processScript_loaded by exact Hk.
  do 6 (destruct fuel as [|fuel]; [lia|]).
  step_latin. step_latin. step_blank. step_latin. step_latin. step_latin.
  rewrite whileLoop_done by (simpl; lia). reflexivity.
Qed.

(** C7, as the claim has it, fails on its own example: the text has
    five letters, so five Matched segments are produced and not six. *)
Lemma ni_hao_has_five_segments :
  exists app,
    processScript 6 (mkApp text_ni_hao sampleCedict [] [] [] []) = Some app /\
    length (filter isMatched (processedOutput app)) = 5 /\
    length (filter isMatched (processedOutput app)) <> 6 /\
    length (processedOutput app) <> 6.
Proof.
  eexists. split; [reflexivity|]. simpl. repeat split; lia.
Qed.

(** C7, amended.  For every ASCII Latin letter at the cursor, the loop
    emits a one-character Matched segment whose sole annotation has the
    letter itself as pinyin, and moves the cursor by one.  In
    particular, with any Lexicon that has a key, the sample text gives
    exactly five Matched segments, one per letter, no Unmatched segment
    and no unknown word; the space is passed over. *)
Theorem latin_pass_through :
  (forall scriptText cedict csv st c,
      nth_error scriptText (cursor st) = Some c ->
      ((97 <= c <= 122)%N \/ (65 <= c <= 90)%N) ->
      loopBody scriptText cedict csv st =
      mkLoop (cursor st + 1) (results st ++ [latinSegment c]) (unknownSet st) /\
      text (latinSegment c) = [c] /\
      type (latinSegment c) = found /\
      exists a, data (latinSegment c) = DataObject a /\ pinyin a = [c]) /\
  (forall cedict csv fuel out unk log,
      keys cedict <> [] -> 6 <= fuel ->
      exists app,
        processScript fuel (mkApp text_ni_hao cedict csv out unk log) =
        Some app /\
        processedOutput app =
        [latinSegment 110%N; latinSegment 105%N; latinSegment 104%N;
         latinSegment 97%N; latinSegment 111%N] /\
        length (filter isMatched (processedOutput app)) = 5 /\
        filter isUnmatched (processedOutput app) = [] /\
        unknownWords app = []).
Proof.
  split.
  - intros scriptText cedict csv st c Hc Hl. apply isLatin_spec in Hl.
    split; [apply loopBody_latin; assumption|].
    repeat split. eexists; split; reflexivity.
  - intros cedict csv fuel out unk log Hk Hf.
    eexists. split; [apply ni_hao_run; assumption|].
    repeat split.
Qed.

Lemma latin_pass_through_witness :
  (loopBody text_ni_hao sampleCedict [] (mkLoop 0 [] []) =
   mkLoop (0 + 1) ([] ++ [latinSegment 110%N]) [] /\
   text (latinSegment 110%N) = [110%N] /\
   type (latinSegment 110%N) = found /\
   exists a, data (latinSegment 110%N) = DataObject a /\ pinyin a = [110%N]) /\
  exists app,
    processScript 6 (mkApp text_ni_hao sampleCedict [] [] [] []) = Some app /\
    processedOutput app =
    [latinSegment 110%N; latinSegment 105%N; latinSegment 104%N;
     latinSegment 97%N; latinSegment 111%N] /\
    length (filter isMatched (processedOutput app)) = 5 /\
    filter isUnmatched (processedOutput app) = [] /\
    unknownWords app = [].
Proof.
  split.
  - apply (proj1 latin_pass_through text_ni_hao sampleCedict []
                 (mkLoop 0 [] []) 110%N).
    + reflexivity.
    + left. split; discriminate.
  - apply (proj2 latin_pass_through sampleCedict [] 6 [] [] []).
    + discriminate.
    + lia.
Defined.

(** ** Curriculum precedence *)

(** C4, as the claim has it, fails for a word that begins with a Latin
    letter: the letter test comes before the dictionaries, so the word
    is never matched whole. *)
Lemma latin_initial_word_is_not_matched_whole :
  In tshirt (keys tshirtCedict) /\
  lookup tshirtCsv tshirt = Some [tshirtCsvEntry] /\
  processScript 2 (mkApp tshirt tshirtCedict tshirtCsv [] [] []) =
  Some (mkApp tshirt tshirtCedict tshirtCsv [latinSegment 84%N] [] []) /\
  [latinSegment 84%N] <>
  [mkSegment tshirt found (DataArray (map annOfCsv [tshirtCsvEntry]))].
Proof.
  split; [simpl; auto|]. split; [reflexivity|]. split; [reflexivity|].
  discriminate.
Qed.

Lemma annOfCsv_not_annOfDict (entries : list CsvEntry) (es : list DictEntry) :
  entries <> [] ->
  DataArray (map annOfCsv entries) <> DataArray (map annOfDict es).
Proof.
  destruct entries as [|e entries]; [congruence|].
  destruct es as [|d es]; simpl; intros _ H; inversion H.
Qed.

(** C4, amended.  For any word that is a key of both the Lexicon and the
    CurriculumLexicon and whose first code unit is not a newline, an
    ASCII Latin letter or white space, segmenting the text that consists
    of exactly that word yields exactly one Matched segment whose text
    is the word and whose annotations are the CurriculumLexicon entries
    of the word, which no list of Lexicon entries equals; no unknown
    word is reported. *)
Theorem curriculum_precedence
        (w : str) (c : char) (cedict : Dictionary) (csv : CsvDictionary)
        (entries : list CsvEntry) (fuel : nat)
        (out : list ProcessedSegment) (unk : list UnknownWord)
        (log : list str) :
  lexical w 0 c ->
  In w (keys cedict) -> lookup csv w = Some entries -> 1 <= fuel ->
  processScript fuel (mkApp w cedict csv out unk log) =
  Some (mkApp w cedict csv
              [mkSegment w found (DataArray (map annOfCsv entries))] [] log) /\
  (entries <> [] ->
   forall es, DataArray (map annOfCsv entries) <> DataArray (map annOfDict es)).
Proof.
  intros Hlex Hin Hcsv Hf. split.
  - assert (Hlen : 0 < length w).
    { destruct Hlex as (Hn & _). destruct w; [discriminate | simpl; lia]. }
    rewrite processScript_loaded by (eapply In_keys_nonempty; eauto).
    destruct fuel as [|fuel]; [lia|].
    rewrite whileLoop_step by (simpl; lia).
    rewrite (loopBody_known w cedict csv _ c w [w]);
      [ | exact Hlex | apply lexMatch_whole; exact Hin
        | apply GetSegmentsInCsv_direct; eapply truthy_lookup; eauto ].
    rewrite whileLoop_done by (simpl; lia).
    simpl. unfold foundSegment, dataOfCsv.
    rewrite (read_lookup _ _ _ _ Hcsv). reflexivity.
  - intros Hne es. apply annOfCsv_not_annOfDict; exact Hne.
Qed.

Lemma curriculum_precedence_witness :
  processScript 1 (mkApp zh_nihao sampleCedict sampleCsv [] [] []) =
  Some (mkApp zh_nihao sampleCedict sampleCsv
              [mkSegment zh_nihao found
                         (DataArray (map annOfCsv [sampleCsvEntry]))] [] []) /\
  ([sampleCsvEntry] <> [] ->
   forall es, DataArray (map annOfCsv [sampleCsvEntry]) <>
              DataArray (map annOfDict es)).
Proof.
  apply (curriculum_precedence zh_nihao 20320%N sampleCedict sampleCsv
                               [sampleCsvEntry] 1 [] [] []).
  - apply (lexical_zh_ni zh_hao).
  - simpl; auto.
  - reflexivity.
  - lia.
Defined.

(** ** The empty dictionary *)

(** C5, as the claim has it, fails: the call on an empty Lexicon adds a
    segment to the output cell. *)
Lemma empty_lexicon_changes_the_output :
  exists app,
    processScript 0 (mkApp zh_nihao [] sampleCsv [] [] []) = Some app /\
    processedOutput app = [errorSegment] /\
    processedOutput app <> [].
Proof. eexists. split; [reflexivity|]. split; [reflexivity | discriminate]. Qed.

(** C5, amended.  On an empty Lexicon [processScript] signals the
    condition whatever the curriculum, the text and the fuel, and before
    any segmentation: it logs one warning, appends exactly one Unmatched
    segment that carries the fixed error message and no annotations to
    the output sequence already there, and returns; the earlier
    segments, the unknown-word report and the inputs are unchanged. *)
Theorem empty_lexicon_is_signalled
        (fuel : nat) (t : str) (d : Dictionary) (c : CsvDictionary)
        (out : list ProcessedSegment) (unk : list UnknownWord)
        (log : list str) :
  keys d = [] ->
  processScript fuel (mkApp t d c out unk log) =
  Some (mkApp t d c (out ++ [errorSegment]) unk (log ++ [warnEmpty])).
Proof.
  intros H. unfold processScript. simpl. rewrite H. reflexivity.
Qed.

Lemma empty_lexicon_is_signalled_witness :
  processScript 0 (mkApp zh_nihao [] sampleCsv [latinSegment 97%N] [] []) =
  Some (mkApp zh_nihao [] sampleCsv ([latinSegment 97%N] ++ [errorSegment]) []
              ([] ++ [warnEmpty])).
Proof.
  apply (empty_lexicon_is_signalled 0 zh_nihao [] sampleCsv
                                    [latinSegment 97%N] [] []).
  reflexivity.
Defined.

(** ** Annotations of the Matched segments *)

(** C8.  The code at the failing input: the segment pushed for a Latin
    letter is Matched, yet its [data] is one bare object and no list, so
    it carries no non-empty list of annotation records. *)
Theorem latin_segment_carries_no_annotation_list :
  exists app s,
    processScript 1 (mkApp (lit "a"%string) sampleCedict sampleCsv [] [] []) =
    Some app /\
    processedOutput app = [s] /\
    type s = found /\
    data s = DataObject (mkAnnotation None (lit "a"%string) None None) /\
    ~ carriesAnnotationList s.
Proof.
  exists (mkApp (lit "a"%string) sampleCedict sampleCsv
                [latinSegment 97%N] [] []), (latinSegment 97%N).
  repeat split. intros (a & l & H). discriminate H.
Qed.

(** ** Runs that return *)

Lemma processScript_Some (fuel : nat) (app app' : App) :
  keys (ccCedict app) <> [] -> processScript fuel app = Some app' ->
  exists st,
    whileLoop (scriptInput app) (ccCedict app) (csvDictionary app)
              fuel (mkLoop 0 [] []) = Some st /\
    app' = mkApp (scriptInput app) (ccCedict app) (csvDictionary app)
                 (results st)
                 (mapIndexed (unknownWordOf (ccCedict app)) 0 (unknownSet st))
                 (console app).
Proof.
  intros Hk. unfold processScript.
  destruct (keys (ccCedict app)); [congruence|].
  destruct (whileLoop _ _ _ _ _) as [st|]; [|discriminate].
  intros [= <-]. exists st. auto.
Qed.

Lemma processScript_total (fuel : nat) (app : App) :
  KeysNonEmpty (ccCedict app) -> KeysNonEmpty (csvDictionary app) ->
  length (scriptInput app) <= fuel ->
  exists app', processScript fuel app = Some app'.
Proof.
  intros Hd Hc Hf. unfold processScript.
  destruct (keys (ccCedict app)); [eauto|].
  destruct (whileLoop_terminates (scriptInput app) (ccCedict app)
                                 (csvDictionary app) fuel
                                 (mkLoop 0 [] []) Hd Hc)
    as [r ->]; [simpl; lia | eauto].
Qed.

(** A property of every run that returns holds of the run on enough
    fuel, which does return. *)
Lemma processScript_total_correct (P : App -> Prop) (app : App) :
  (forall fuel app', processScript fuel app = Some app' -> P app') ->
  KeysNonEmpty (ccCedict app) -> KeysNonEmpty (csvDictionary app) ->
  forall fuel, length (scriptInput app) <= fuel ->
               exists app', processScript fuel app = Some app' /\ P app'.
Proof.
  intros HP Hd Hc fuel Hf.
  destruct (processScript_total fuel app Hd Hc Hf) as [app' H].
  exists app'. split; [exact H | exact (HP fuel app' H)].
Qed.

Lemma firstn_snoc (A : Type) (l : list A) (i : nat) (x : A) :
  nth_error l i = Some x -> firstn (i + 1) l = firstn i l ++ [x].
Proof.
  revert i; induction l as [|y l IH]; intros [|i]; simpl; try discriminate.
  - intros [= ->]. reflexivity.
  - intros H. rewrite (IH i H). reflexivity.
Qed.

(** ** Newlines *)

Lemma newlineCount_app (a b : str) :
  newlineCount (a ++ b) = newlineCount a + newlineCount b.
Proof. unfold newlineCount. rewrite filter_app, length_app. reflexivity. Qed.

Lemma newlineCount_without (w : str) : ~ In newline w -> newlineCount w = 0.
Proof.
  unfold newlineCount. induction w as [|x w IH]; [reflexivity|].
  cbn [filter]. intros H. destruct (N.eqb newline x) eqn:E.
  - apply N.eqb_eq in E. destruct H; left; auto.
  - apply IH. intros Hin. apply H; right; exact Hin.
Qed.

Lemma newlineCount_unit (c : char) : c <> newline -> newlineCount [c] = 0.
Proof. intros H. apply newlineCount_without. simpl. intuition congruence. Qed.

Lemma structuralCount_app (a b : list ProcessedSegment) :
  structuralCount (a ++ b) = structuralCount a + structuralCount b.
Proof. unfold structuralCount. rewrite filter_app, length_app. reflexivity. Qed.

Lemma structuralCount_found (csv : CsvDictionary) (segs : list str) :
  structuralCount (map (foundSegment csv) segs) = 0.
Proof. induction segs; simpl; auto. Qed.

(** A Lexicon match of one code unit gives one word segment. *)
Lemma loopBody_single (scriptText : str) (cedict : Dictionary)
      (csv : CsvDictionary) (st : LoopState) (c : char) (w : str) :
  lexical scriptText (cursor st) c ->
  lexMatch scriptText cedict (cursor st) = Some w ->
  length w = 1 ->
  exists s u,
    loopBody scriptText cedict csv st =
    mkLoop (cursor st + 1) (results st ++ [s]) u /\
    text s = w /\ isStructural s = false.
Proof.
  intros Hlex Hm Hl. destruct (truthy csv w) eqn:E.
  - exists (foundSegment csv w), (unknownSet st).
    rewrite (loopBody_known scriptText cedict csv st c w [w] Hlex Hm
                            (GetSegmentsInCsv_direct csv w E)).
    rewrite Hl. repeat split.
  - exists (mkSegment w not_found (dataOfDict cedict w)),
           (setAdd (unknownSet st) w).
    rewrite (loopBody_unmatched scriptText cedict csv st c w Hlex Hm).
    + rewrite Hl. repeat split.
    + apply GetSegmentsInCsv_single; [lia | exact E].
Qed.

Section NewlineCount.
Variable scriptText : str.
Variable cedict : Dictionary.
Variable csv : CsvDictionary.
Hypothesis cedict_clean : KeysWithoutNewline cedict.
Hypothesis csv_clean : KeysWithoutNewline csv.

Lemma newlineInvariant_step (st st' : LoopState) :
  newlineInvariant scriptText st -> cursor st < length scriptText ->
  Iteration scriptText cedict csv st st' -> newlineInvariant scriptText st'.
Proof.
  unfold KeysWithoutNewline in *. rewrite Forall_forall in cedict_clean, csv_clean.
  intros (Hle & Hcount & Hall) Hlt Hit.
  split; [eapply Iteration_bound; eauto|].
  destruct Hit as [ Hc | c Hc Hn Hl | c Hc Hn Hl Hb
                    | c w segs Hlex Hm Hg | c w Hlex Hm Hg
                    | c w Hlex Hm Hcm | c Hlex Hm Hcm ]; simpl.
  - rewrite (firstn_snoc _ _ _ _ Hc), newlineCount_app, structuralCount_app.
    rewrite Hcount. split; [reflexivity|].
    apply Forall_app; split; [exact Hall|]. constructor; [|constructor].
    reflexivity.
  - rewrite (firstn_snoc _ _ _ _ Hc), newlineCount_app, structuralCount_app.
    rewrite Hcount, (newlineCount_unit c Hn). split; [reflexivity|].
    apply Forall_app; split; [exact Hall|]. constructor; [|constructor].
    discriminate.
  - rewrite (firstn_snoc _ _ _ _ Hc), newlineCount_app.
    rewrite Hcount, (newlineCount_unit c Hn). split; [lia | exact Hall].
  - apply lexMatch_Some in Hm as (Hin & Hs & _).
    rewrite (startsWith_slice _ _ _ Hle Hs), newlineCount_app, structuralCount_app.
    rewrite Hcount, structuralCount_found,
      (newlineCount_without w (cedict_clean w Hin)).
    split; [reflexivity|].
    apply Forall_app; split; [exact Hall|].
    apply Forall_forall. intros s Hs'. apply in_map_iff in Hs' as (x & <- & _).
    discriminate.
  - apply lexMatch_Some in Hm as (Hin & Hs & _).
    rewrite (startsWith_slice _ _ _ Hle Hs), newlineCount_app, structuralCount_app.
    rewrite Hcount, (newlineCount_without w (cedict_clean w Hin)).
    split; [reflexivity|].
    apply Forall_app; split; [exact Hall|]. constructor; [|constructor].
    discriminate.
  - apply csvMatch_Some in Hcm as (Hin & Hs).
    rewrite (startsWith_slice _ _ _ Hle Hs), newlineCount_app, structuralCount_app.
    rewrite Hcount, (newlineCount_without w (csv_clean w Hin)).
    split; [reflexivity|].
    apply Forall_app; split; [exact Hall|]. constructor; [|constructor].
    discriminate.
  - destruct Hlex as (Hc & Hn & _).
    rewrite (firstn_snoc _ _ _ _ Hc), newlineCount_app.
    rewrite Hcount, (newlineCount_unit c Hn). split; [lia | exact Hall].
Qed.

Lemma newlineInvariant_final (fuel : nat) (st : LoopState) :
  whileLoop scriptText cedict csv fuel (mkLoop 0 [] []) = Some st ->
  structuralCount (results st) = newlineCount scriptText /\
  Forall (fun s => isStructural s = true -> s = newlineSegment) (results st).
Proof.
  intros H.
  destruct (whileLoop_invariant scriptText cedict csv
              (newlineInvariant scriptText)
              newlineInvariant_step fuel (mkLoop 0 [] []) st)
    as ((Hle & Hcount & Hall) & Hge); [|exact H|].
  - repeat split; simpl; auto; lia.
  - rewrite firstn_all2 in Hcount by lia. auto.
Qed.

End NewlineCount.

(** C9, as the claim has it, fails for a newline inside a dictionary
    key: with the text of the example as the one Lexicon key, the
    Lexicon match at the first character takes the whole text, the
    cursor never stands on the newline, and the output is one Unmatched
    segment and no structural one, although the input has a newline. *)
Lemma newline_inside_a_key_gives_no_marker :
  exists app,
    processScript 3 (mkApp text_ni_newline_hao
                           [(text_ni_newline_hao, [sampleEntry])] []
                           [] [] []) = Some app /\
    newlineCount (scriptInput app) = 1 /\
    processedOutput app =
    [mkSegment text_ni_newline_hao not_found
               (DataArray [annOfDict sampleEntry])] /\
    structuralCount (processedOutput app) = 0 /\
    ~ In newlineSegment (processedOutput app).
Proof.
  eexists. split; [reflexivity|]. simpl.
  repeat split. intros [H|[]]. discriminate H.
Qed.

(** C9, amended.  Whenever the cursor is on a newline, the loop emits
    one structural segment of kind Unknown whose text is exactly the
    newline and which carries no annotations, and moves the cursor by
    one.  With the two one-character words as the Lexicon keys, whatever
    the curriculum, the text made of the first word, a newline and the
    second word gives exactly three segments: the marker stands between
    the two word segments.  When the Lexicon is not empty and no
    dictionary key contains a newline, the structural segments of every
    run that returns are as many as the newlines of the input, each of
    them the marker; and the run returns when no key is empty. *)
Theorem newline_marker :
  (forall scriptText cedict csv st,
      nth_error scriptText (cursor st) = Some newline ->
      loopBody scriptText cedict csv st =
      mkLoop (cursor st + 1) (results st ++ [newlineSegment]) (unknownSet st) /\
      newlineSegment = mkSegment [newline] unknown DataAbsent) /\
  (forall e1 e2 csv fuel out unk log,
      3 <= fuel ->
      exists app s1 s2,
        processScript fuel (mkApp text_ni_newline_hao
                                  [(zh_ni, e1); (zh_hao, e2)] csv out unk log) =
        Some app /\
        processedOutput app = [s1; newlineSegment; s2] /\
        text s1 = zh_ni /\ text s2 = zh_hao /\
        isStructural s1 = false /\ isStructural s2 = false) /\
  (forall app,
      keys (ccCedict app) <> [] ->
      KeysWithoutNewline (ccCedict app) ->
      KeysWithoutNewline (csvDictionary app) ->
      (forall fuel app',
          processScript fuel app = Some app' -> markersMatchNewlines app') /\
      (KeysNonEmpty (ccCedict app) -> KeysNonEmpty (csvDictionary app) ->
       forall fuel,
         length (scriptInput app) <= fuel ->
         exists app',
           processScript fuel app = Some app' /\ markersMatchNewlines app')).
Proof.
  split; [|split].
  - intros scriptText cedict csv st Hc.
    split; [apply loopBody_newline; exact Hc | reflexivity].
  - intros e1 e2 csv fuel out unk log Hf.
    rewrite processScript_loaded by discriminate.
    do 3 (destruct fuel as [|fuel]; [lia|]).
    rewrite whileLoop_step by (simpl; lia).
    destruct (loopBody_single text_ni_newline_hao [(zh_ni, e1); (zh_hao, e2)]
                              csv (mkLoop 0 [] []) 20320%N zh_ni)
      as (s1 & u1 & -> & Ht1 & Hs1);
      [repeat split; discriminate | reflexivity | reflexivity |].
    cbn [cursor results unknownSet Nat.add app].
    rewrite whileLoop_step by (simpl; lia).
    rewrite loopBody_newline by reflexivity.
    cbn [cursor results unknownSet Nat.add app].
    rewrite whileLoop_step by (simpl; lia).
    match goal with
    | |- context [loopBody ?t ?d ?c ?s] =>
        destruct (loopBody_single t d c s 22909%N zh_hao)
          as (s2 & u2 & -> & Ht2 & Hs2);
        [repeat split; discriminate | reflexivity | reflexivity |]
    end.
    cbn [cursor results unknownSet Nat.add app].
    rewrite whileLoop_done by (simpl; lia).
    eexists; exists s1, s2. split; [reflexivity|]. simpl. auto.
  - intros app Hk Hnd Hnc.
    assert (Hpartial : forall fuel app',
               processScript fuel app = Some app' -> markersMatchNewlines app').
    { intros fuel app' H.
      apply (processScript_Some fuel app app' Hk) in H as (st & Hloop & ->).
      unfold markersMatchNewlines; simpl.
      eapply newlineInvariant_final; eauto. }
    split; [exact Hpartial|].
    apply processScript_total_correct; exact Hpartial.
Qed.

Lemma newline_marker_witness :
  (loopBody text_ni_newline_hao sampleCedict [] (mkLoop 1 [] []) =
   mkLoop (1 + 1) ([] ++ [newlineSegment]) [] /\
   newlineSegment = mkSegment [newline] unknown DataAbsent) /\
  (exists app s1 s2,
      processScript 3 (mkApp text_ni_newline_hao
                             [(zh_ni, [sampleEntry]); (zh_hao, [sampleEntry])]
                             sampleCsv [] [] []) =
      Some app /\
      processedOutput app = [s1; newlineSegment; s2] /\
      text s1 = zh_ni /\ text s2 = zh_hao /\
      isStructural s1 = false /\ isStructural s2 = false) /\
  (exists app',
      processScript 3 (mkApp text_ni_newline_hao sampleCedict sampleCsv
                             [] [] []) =
      Some app' /\ markersMatchNewlines app').
Proof.
  split; [|split].
  - apply (proj1 newline_marker text_ni_newline_hao sampleCedict []
                 (mkLoop 1 [] [])).
    reflexivity.
  - apply (proj1 (proj2 newline_marker) [sampleEntry] [sampleEntry] sampleCsv
                 3 [] [] []).
    lia.
  - refine (proj2 (proj2 (proj2 newline_marker)
                         (mkApp text_ni_newline_hao sampleCedict sampleCsv
                                [] [] []) _ _ _) _ _ 3 _).
    + discriminate.
    + repeat constructor; simpl; intuition discriminate.
    + repeat constructor; simpl; intuition discriminate.
    + repeat constructor; discriminate.
    + repeat constructor; discriminate.
    + simpl; lia.
Defined.

(** ** The report of the unknown words *)

Lemma setHas_In (s : list str) (w : str) : setHas s w = true <-> In w s.
Proof.
  unfold setHas. rewrite existsb_exists. split.
  - intros (x & Hx & E). apply str_eqb_eq in E. subst; exact Hx.
  - intros H. exists w. split; [exact H | apply str_eqb_refl].
Qed.

Lemma setAdd_NoDup (s : list str) (w : str) : NoDup s -> NoDup (setAdd s w).
Proof.
  intros H. unfold setAdd. destruct (setHas s w) eqn:E; [exact H|].
  apply NoDup_app; [exact H | repeat constructor; simpl; tauto |].
  intros x Hx [<-|[]]. apply setHas_In in Hx. congruence.
Qed.

Lemma unmatchedWords_app (seen : list str) (a b : list ProcessedSegment) :
  unmatchedWords seen (a ++ b) =
  unmatchedWords seen a ++ unmatchedWords (seen ++ unmatchedWords seen a) b.
Proof.
  revert seen; induction a as [|s a IH]; intros seen; simpl.
  - rewrite app_nil_r. reflexivity.
  - destruct (isUnmatched s && negb (setHas seen (text s))).
    + simpl. rewrite IH, <- app_assoc. reflexivity.
    + apply IH.
Qed.

Lemma unmatchedWords_found (seen : list str) (csv : CsvDictionary)
      (segs : list str) :
  unmatchedWords seen (map (foundSegment csv) segs) = [].
Proof. induction segs; simpl; auto. Qed.

(** Pushing an Unmatched segment and adding its word to the set is one
    more step of the scan. *)
Lemma unmatchedWords_push (segs : list ProcessedSegment) (s : ProcessedSegment) :
  isUnmatched s = true ->
  unmatchedWords [] (segs ++ [s]) = setAdd (unmatchedWords [] segs) (text s).
Proof.
  intros H. rewrite unmatchedWords_app. simpl. rewrite H. unfold setAdd.
  destruct (setHas (unmatchedWords [] segs) (text s)); simpl;
    [apply app_nil_r | reflexivity].
Qed.

Lemma unmatchedWords_skip (segs : list ProcessedSegment) (s : ProcessedSegment) :
  isUnmatched s = false ->
  unmatchedWords [] (segs ++ [s]) = unmatchedWords [] segs.
Proof.
  intros H. rewrite unmatchedWords_app. simpl. rewrite H. apply app_nil_r.
Qed.

(** A word is kept exactly when it is new and some Unmatched segment
    has it as text. *)
Lemma In_unmatchedWords (seen : list str) (segs : list ProcessedSegment)
      (w : str) :
  In w (unmatchedWords seen segs) <->
  ~ In w seen /\ exists s, In s segs /\ type s = not_found /\ text s = w.
Proof.
  revert seen; induction segs as [|s segs IH]; intros seen; simpl.
  - split; [tauto | intros (_ & x & [] & _)].
  - assert (Hty : isUnmatched s = true <-> type s = not_found)
      by (unfold isUnmatched; destruct (type s); split; congruence).
    destruct (isUnmatched s) eqn:Eu; simpl.
    + destruct (setHas seen (text s)) eqn:Es; simpl.
      * apply setHas_In in Es. rewrite IH. split.
        -- intros (Hn & x & Hx & Hr). split; [exact Hn|]. exists x; auto.
        -- intros (Hn & x & [<-|Hx] & Ht & Hw).
           ++ subst w. contradiction.
           ++ split; [exact Hn|]. exists x; auto.
      * assert (Hns : ~ In (text s) seen)
          by (rewrite <- setHas_In; congruence).
        rewrite IH, in_app_iff. simpl. split.
        -- intros [<-|(Hn & x & Hx & Hr)].
           ++ split; [exact Hns|]. exists s. repeat split; auto.
              apply Hty; reflexivity.
           ++ split; [tauto|]. exists x; auto.
        -- intros (Hn & x & [<-|Hx] & Ht & Hw); [left; exact Hw|].
           destruct (list_eq_dec N.eq_dec (text s) w) as [E|E];
             [left; exact E|].
           right. split; [|exists x; auto].
           intros [H|[H|[]]]; [contradiction | congruence].
    + rewrite IH. split.
      * intros (Hn & x & Hx & Hr). split; [exact Hn|]. exists x; auto.
      * intros (Hn & x & [<-|Hx] & Ht & Hw).
        -- apply Hty in Ht. congruence.
        -- split; [exact Hn|]. exists x; auto.
Qed.

Lemma annotation_of_dataOfDict (cedict : Dictionary) (w : str) :
  annotationPinyin (dataOfDict cedict w) = firstPinyin (lookup cedict w) /\
  annotationMeaning (dataOfDict cedict w) = firstMeaning (lookup cedict w).
Proof.
  unfold dataOfDict, read.
  destruct (lookup cedict w) as [[|e l]|]; simpl; auto.
  destruct (objectPrototype w); auto.
Qed.

(** The scan of the specification, on segments that carry the Lexicon
    entries of their words, is the indexed map of [processScript] over
    the words kept. *)
Lemma collectFrom_mapIndexed (cedict : Dictionary) (idx : nat)
      (seen : list str) (segs : list ProcessedSegment) :
  Forall (fun s => isUnmatched s = true ->
                   data s = dataOfDict cedict (text s)) segs ->
  collectFrom (idx + 1) seen segs =
  mapIndexed (unknownWordOf cedict) idx (unmatchedWords seen segs).
Proof.
  intros H; revert idx seen.
  induction H as [|s segs Hs _ IH]; intros idx seen; simpl; [reflexivity|].
  destruct (isUnmatched s) eqn:Eu; simpl; [|apply IH].
  destruct (setHas seen (text s)); simpl; [apply IH|].
  rewrite (Hs eq_refl).
  destruct (annotation_of_dataOfDict cedict (text s)) as [-> ->].
  unfold unknownWordOf at 1. f_equal. apply (IH (S idx)).
Qed.

Lemma mapIndexed_word (cedict : Dictionary) (idx : nat) (l : list str) :
  map word (mapIndexed (unknownWordOf cedict) idx l) = l.
Proof. revert idx; induction l; intros idx; simpl; [|rewrite IHl]; auto. Qed.

Lemma mapIndexed_index (cedict : Dictionary) (idx : nat) (l : list str) :
  map index (mapIndexed (unknownWordOf cedict) idx l) =
  seq (idx + 1) (length l).
Proof.
  revert idx; induction l as [|w l IH]; intros idx; simpl; [reflexivity|].
  rewrite IH. reflexivity.
Qed.

Lemma length_mapIndexed (A B : Type) (f : A -> nat -> B) (idx : nat)
      (l : list A) :
  length (mapIndexed f idx l) = length l.
Proof. revert idx; induction l; intros idx; simpl; auto. Qed.

Lemma mapIndexed_entries (cedict : Dictionary) (idx : nat) (l : list str) :
  Forall (fun u => u_pinyin u = firstPinyin (lookup cedict (word u)) /\
                   u_meaning u = firstMeaning (lookup cedict (word u)))
         (mapIndexed (unknownWordOf cedict) idx l).
Proof.
  revert idx; induction l; intros idx; simpl; constructor; simpl; auto.
Qed.

Lemma unknownInvariant_step (scriptText : str) (cedict : Dictionary)
      (csv : CsvDictionary) (st st' : LoopState) :
  unknownInvariant cedict st -> cursor st < length scriptText ->
  Iteration scriptText cedict csv st st' -> unknownInvariant cedict st'.
Proof.
  intros (Hset & Hnd & Hall) _ Hit.
  destruct Hit as [ Hc | c Hc Hn Hl | c Hc Hn Hl Hb
                    | c w segs Hlex Hm Hg | c w Hlex Hm Hg
                    | c w Hlex Hm Hcm | c Hlex Hm Hcm ];
    unfold unknownInvariant; simpl.
  - rewrite unmatchedWords_skip by reflexivity.
    repeat split; auto. apply Forall_app; split; auto.
    repeat constructor. discriminate.
  - rewrite unmatchedWords_skip by reflexivity.
    repeat split; auto. apply Forall_app; split; auto.
    repeat constructor. discriminate.
  - repeat split; auto.
  - rewrite unmatchedWords_app, unmatchedWords_found, app_nil_r.
    repeat split; auto. apply Forall_app; split; auto.
    apply Forall_forall. intros s Hs. apply in_map_iff in Hs as (x & <- & _).
    discriminate.
  - rewrite unmatchedWords_push by reflexivity. simpl. rewrite Hset.
    repeat split; auto.
    + rewrite <- Hset. apply setAdd_NoDup; exact Hnd.
    + apply Forall_app; split; auto.
  - rewrite unmatchedWords_skip by reflexivity.
    repeat split; auto. apply Forall_app; split; auto.
    repeat constructor. discriminate.
  - repeat split; auto.
Qed.

(** C6.  The report that [processScript] builds is the one the collector
    of the specification computes from the segments: only the Unmatched
    segments count, a text is reported once, at its first occurrence,
    the records are unique by word and their ranks are 1..N in that
    order; pinyin and meaning of a record are those of the entry at
    index 0 of the Lexicon list of the word, and are empty strings when
    the list has no entry.  This holds of every run that returns, and
    the run returns when no key is empty. *)
Theorem unknown_word_report (app : App) :
  keys (ccCedict app) <> [] ->
  (forall fuel app',
      processScript fuel app = Some app' -> reportCorrect app') /\
  (KeysNonEmpty (ccCedict app) -> KeysNonEmpty (csvDictionary app) ->
   forall fuel,
     length (scriptInput app) <= fuel ->
     exists app', processScript fuel app = Some app' /\ reportCorrect app').
Proof.
  intros Hk.
  assert (Hpartial : forall fuel app',
             processScript fuel app = Some app' -> reportCorrect app').
  { intros fuel app' H.
    apply (processScript_Some fuel app app' Hk) in H as (st & Hloop & ->).
    destruct (whileLoop_invariant (scriptInput app) (ccCedict app)
                (csvDictionary app) (unknownInvariant (ccCedict app))
                (unknownInvariant_step (scriptInput app) (ccCedict app)
                                       (csvDictionary app))
                fuel (mkLoop 0 [] []) st)
      as ((Hset & Hnd & Hall) & _); [|exact Hloop|].
    { repeat split; simpl; constructor. }
    unfold reportCorrect; simpl.
    split; [|split; [|split; [|split]]].
    - unfold collectUnknown. change 1 with (0 + 1).
      rewrite (collectFrom_mapIndexed (ccCedict app) 0 [] (results st) Hall).
      rewrite Hset. reflexivity.
    - intros w. rewrite mapIndexed_word, Hset, In_unmatchedWords. simpl. tauto.
    - rewrite mapIndexed_word. exact Hnd.
    - rewrite mapIndexed_index, length_mapIndexed. reflexivity.
    - eapply Forall_impl; [|apply mapIndexed_entries].
      intros u [Hp Hm]. split; [exact Hp|]. split; [exact Hm|].
      intros E. rewrite E in Hp, Hm. split; assumption. }
  split; [exact Hpartial|].
  apply processScript_total_correct; exact Hpartial.
Qed.

Lemma unknown_word_report_witness :
  exists app',
    processScript 5 (mkApp (zh_nihao ++ zh_ni ++ zh_nihao) sampleCedict []
                           [] [] []) = Some app' /\
    reportCorrect app'.
Proof.
  refine (proj2 (unknown_word_report
                   (mkApp (zh_nihao ++ zh_ni ++ zh_nihao) sampleCedict []
                          [] [] []) _) _ _ 5 _).
  - discriminate.
  - repeat constructor; discriminate.
  - constructor.
  - simpl; lia.
Defined.

(** A word met twice is reported once, at the rank of its first
    occurrence. *)
Lemma unknown_word_report_example :
  processScript 5 (mkApp (zh_nihao ++ zh_ni ++ zh_nihao) sampleCedict []
                         [] [] []) =
  Some (mkApp (zh_nihao ++ zh_ni ++ zh_nihao) sampleCedict []
              [mkSegment zh_nihao not_found (DataArray [annOfDict sampleEntry]);
               mkSegment zh_ni not_found (DataArray [annOfDict sampleEntry]);
               mkSegment zh_nihao not_found (DataArray [annOfDict sampleEntry])]
              [mkUnknownWord 1 zh_nihao (lit "ni3"%string) (lit "you"%string);
               mkUnknownWord 2 zh_ni (lit "ni3"%string) (lit "you"%string)]
              []).
Proof. reflexivity. Qed.

(** ** Reconstruction of the input *)

Lemma GetSegmentsInCsv_length (csv : CsvDictionary) (w : str)
      (segs : list str) :
  GetSegmentsInCsv csv w = Some segs -> 1 <= length segs <= 2.
Proof.
  unfold GetSegmentsInCsv. destruct (truthy csv w).
  - intros [= <-]. simpl; lia.
  - intros H. apply scanSplits_Some in H as (j & _ & -> & _). simpl; lia.
Qed.

Lemma spans_app (a b : list Piece) : spans (a ++ b) = spans a ++ spans b.
Proof. unfold spans. rewrite map_app, concat_app. reflexivity. Qed.

Lemma segmentTexts_app (a b : list ProcessedSegment) :
  segmentTexts (a ++ b) = segmentTexts a ++ segmentTexts b.
Proof. unfold segmentTexts. rewrite map_app, concat_app. reflexivity. Qed.

Lemma segmentTexts_found (csv : CsvDictionary) (segs : list str) :
  segmentTexts (map (foundSegment csv) segs) = concat segs.
Proof.
  unfold segmentTexts. rewrite map_map. simpl. rewrite map_id. reflexivity.
Qed.

Lemma wellCut_app (scriptText : str) (cedict : Dictionary)
      (csv : CsvDictionary) (i : nat) (a b : list Piece) :
  wellCut scriptText cedict csv i (a ++ b) <->
  wellCut scriptText cedict csv i a /\
  wellCut scriptText cedict csv (i + length (spans a)) b.
Proof.
  revert i; induction a as [|p a IH]; intros i; simpl.
  - rewrite Nat.add_0_r. tauto.
  - unfold spans in *. simpl. rewrite length_app, IH, Nat.add_assoc. tauto.
Qed.

(** The texts of the segments are the kept spans, in order. *)
Lemma wellCut_keptSpans (scriptText : str) (cedict : Dictionary)
      (csv : CsvDictionary) (i : nat) (ps : list Piece) :
  wellCut scriptText cedict csv i ps ->
  segmentTexts (concat (map emitted ps)) = keptSpans ps.
Proof.
  revert i; induction ps as [|p ps IH]; intros i; simpl; [reflexivity|].
  intros [Hp Hr]. rewrite segmentTexts_app, (IH _ Hr).
  unfold keptSpans, kept, pieceOk in *. simpl.
  destruct (emitted p) as [|s l]; simpl; [reflexivity|].
  destruct Hp as [<- _]. reflexivity.
Qed.

Section Cut.
Variable scriptText : str.
Variable cedict : Dictionary.
Variable csv : CsvDictionary.

(** One more piece behind the cursor. *)
Lemma cutInvariant_extend (st : LoopState) (n : nat) (sp : str)
      (em : list ProcessedSegment) (u : list str) :
  cutInvariant scriptText cedict csv st ->
  firstn (cursor st + n) scriptText = firstn (cursor st) scriptText ++ sp ->
  pieceOk scriptText cedict csv (cursor st) (mkPiece sp em) ->
  cursor st + n <= length scriptText ->
  cutInvariant scriptText cedict csv
               (mkLoop (cursor st + n) (results st ++ em) u).
Proof.
  intros (Hle & ps & Hsp & Hem & Hwc) Hfirst Hok Hn.
  split; [exact Hn|]. exists (ps ++ [mkPiece sp em]). simpl.
  split; [|split].
  - rewrite spans_app, Hsp, Hfirst. unfold spans. simpl.
    rewrite app_nil_r. reflexivity.
  - rewrite map_app, concat_app, Hem. simpl. rewrite app_nil_r. reflexivity.
  - apply wellCut_app. split; [exact Hwc|]. simpl. split; [|exact I].
    rewrite Hsp, length_firstn, Nat.min_l by exact Hle. exact Hok.
Qed.

Lemma cutInvariant_step (st st' : LoopState) :
  cutInvariant scriptText cedict csv st -> cursor st < length scriptText ->
  Iteration scriptText cedict csv st st' ->
  cutInvariant scriptText cedict csv st'.
Proof.
  intros Hinv Hlt Hit.
  pose proof (Iteration_bound scriptText cedict csv st st' Hlt Hit) as Hb.
  assert (Hle : cursor st <= length scriptText) by lia.
  destruct Hit as [ Hc0 | c Hc0 Hn Hl | c Hc0 Hn Hl Hbl
                    | c w segs Hlex Hm Hg | c w Hlex Hm Hg
                    | c w Hlex Hm Hcm | c Hlex Hm Hcm ]; simpl in Hb.
  - apply (cutInvariant_extend st 1 [newline]); auto.
    + apply firstn_snoc; exact Hc0.
    + split; [reflexivity | simpl; lia].
  - apply (cutInvariant_extend st 1 [c]); auto.
    + apply firstn_snoc; exact Hc0.
    + split; [reflexivity | simpl; lia].
  - rewrite <- (app_nil_r (results st)).
    apply (cutInvariant_extend st 1 [c]); auto.
    + apply firstn_snoc; exact Hc0.
    + split; [reflexivity|]. exists c. auto.
  - pose proof (lexMatch_Some _ _ _ _ Hm) as (Hin & Hs & _).
    apply (cutInvariant_extend st (length w) w); auto.
    + apply startsWith_slice; assumption.
    + pose proof (GetSegmentsInCsv_length csv w segs Hg) as Hlen.
      pose proof (GetSegmentsInCsv_Some csv w segs Hg) as (Hcat & _).
      unfold pieceOk. simpl.
      destruct segs as [|x segs]; [simpl in Hlen; lia|].
      change (foundSegment csv x :: map (foundSegment csv) segs)
        with (map (foundSegment csv) (x :: segs)).
      rewrite segmentTexts_found, length_map. split; [exact Hcat | lia].
  - pose proof (lexMatch_Some _ _ _ _ Hm) as (Hin & Hs & _).
    apply (cutInvariant_extend st (length w) w); auto.
    + apply startsWith_slice; assumption.
    + split; [apply app_nil_r | simpl; lia].
  - pose proof (csvMatch_Some _ _ _ _ Hcm) as (Hin & Hs).
    apply (cutInvariant_extend st (length w) w); auto.
    + apply startsWith_slice; assumption.
    + split; [apply app_nil_r | simpl; lia].
  - destruct Hlex as (Hc0 & Hn & Hl & Hbl).
    rewrite <- (app_nil_r (results st)).
    apply (cutInvariant_extend st 1 [c]); auto.
    + apply firstn_snoc; exact Hc0.
    + split; [reflexivity|]. exists c. repeat split; auto.
      right. split; [apply lexMatch_None | apply csvMatch_None]; assumption.
Qed.

End Cut.

(** C1, as the claim has it, fails on white space: the space of the
    sample text belongs to no segment, and the texts of the segments
    concatenate to the five letters. *)
Lemma segment_texts_drop_the_space :
  exists app,
    processScript 6 (mkApp text_ni_hao sampleCedict [] [] [] []) = Some app /\
    segmentTexts (processedOutput app) = lit "nihao"%string /\
    segmentTexts (processedOutput app) <> text_ni_hao.
Proof.
  eexists. split; [reflexivity|]. split; [reflexivity | discriminate].
Qed.

(** C1, amended.  For every input text and every pair of lexicons (the
    Lexicon with at least one key), the input of a run that returns is
    cut into consecutive pieces, one per position visited: a piece is
    either covered by the one or two segments emitted there, whose texts
    concatenate to exactly the piece, or it is a single code unit that
    produced no segment, namely white space other than the newline or a
    unit at which no key of either lexicon matches.  The segments are
    those of the pieces in order, so that concatenating the text fields
    of all segments reproduces the input with the passed-over units
    removed: nothing else is dropped, nothing is duplicated and nothing
    is reordered.  The run returns when no key is empty. *)
Theorem reconstruction (app : App) :
  keys (ccCedict app) <> [] ->
  (forall fuel app',
      processScript fuel app = Some app' -> reconstructs app') /\
  (KeysNonEmpty (ccCedict app) -> KeysNonEmpty (csvDictionary app) ->
   forall fuel,
     length (scriptInput app) <= fuel ->
     exists app', processScript fuel app = Some app' /\ reconstructs app').
Proof.
  intros Hk.
  assert (Hpartial : forall fuel app',
             processScript fuel app = Some app' -> reconstructs app').
  { intros fuel app' H.
    apply (processScript_Some fuel app app' Hk) in H as (st & Hloop & ->).
    destruct (whileLoop_invariant (scriptInput app) (ccCedict app)
                (csvDictionary app)
                (cutInvariant (scriptInput app) (ccCedict app)
                              (csvDictionary app))
                (cutInvariant_step (scriptInput app) (ccCedict app)
                                   (csvDictionary app))
                fuel (mkLoop 0 [] []) st)
      as ((Hle & ps & Hsp & Hem & Hwc) & Hge); [|exact Hloop|].
    { split; [simpl; lia|]. exists []. repeat split. }
    exists ps. simpl.
    rewrite firstn_all2 in Hsp by exact Hge.
    repeat split; auto.
    rewrite <- Hem. eapply wellCut_keptSpans; eauto. }
  split; [exact Hpartial|].
  apply processScript_total_correct; exact Hpartial.
Qed.

Lemma reconstruction_witness :
  exists app',
    processScript 6 (mkApp text_ni_hao sampleCedict sampleCsv [] [] []) =
    Some app' /\
    reconstructs app'.
Proof.
  refine (proj2 (reconstruction
                   (mkApp text_ni_hao sampleCedict sampleCsv [] [] []) _)
                _ _ 6 _).
  - discriminate.
  - repeat constructor; discriminate.
  - repeat constructor; discriminate.
  - simpl; lia.
Defined.

(** ** The shape of the Matched segments *)

Lemma matchedShape_found (csv : CsvDictionary) (w : str) :
  truthy csv w = true -> matchedShape csv (foundSegment csv w).
Proof.
  intros Ht _. right. unfold foundSegment, dataOfCsv; simpl.
  unfold truthy in Ht. unfold read in *.
  destruct (lookup csv w) as [es|] eqn:E.
  - left. exists es. auto.
  - right. destruct (objectPrototype w); [auto | discriminate].
Qed.

Lemma matchedShape_step (scriptText : str) (cedict : Dictionary)
      (csv : CsvDictionary) (st st' : LoopState) :
  Forall (matchedShape csv) (results st) ->
  cursor st < length scriptText ->
  Iteration scriptText cedict csv st st' ->
  Forall (matchedShape csv) (results st').
Proof.
  intros Hall _ Hit.
  destruct Hit as [ Hc | c Hc Hn Hl | c Hc Hn Hl Hb
                    | c w segs Hlex Hm Hg | c w Hlex Hm Hg
                    | c w Hlex Hm Hcm | c Hlex Hm Hcm ]; simpl; auto;
    apply Forall_app; split; auto.
  - constructor; [|constructor]. intros H; discriminate H.
  - constructor; [|constructor]. intros _. left. exists c. auto.
  - apply GetSegmentsInCsv_Some in Hg as (_ & _ & Hkeys).
    rewrite Forall_forall in Hkeys |- *. intros s Hs.
    apply in_map_iff in Hs as (x & <- & Hx).
    apply matchedShape_found. auto.
  - constructor; [|constructor]. intros H; discriminate H.
  - constructor; [|constructor]. apply matchedShape_found.
    apply truthy_In_keys. apply csvMatch_Some in Hcm. tauto.
Qed.

(** Every Matched segment of a run is the segment of a Latin letter,
    with its bare object, or carries the list of the curriculum entries
    of its text, which is non-empty when the curriculum has no empty
    list, or has a name of [Object.prototype] as text and the member of
    that name as data. *)
Lemma matched_segments_shape (app : App) (fuel : nat) (app' : App) :
  keys (ccCedict app) <> [] ->
  processScript fuel app = Some app' -> matchedShapes app'.
Proof.
  intros Hk H.
  apply (processScript_Some fuel app app' Hk) in H as (st & Hloop & ->).
  destruct (whileLoop_invariant (scriptInput app) (ccCedict app)
              (csvDictionary app)
              (fun s => Forall (matchedShape (csvDictionary app)) (results s))
              (matchedShape_step (scriptInput app) (ccCedict app)
                                 (csvDictionary app))
              fuel (mkLoop 0 [] []) st) as (Hall & _);
    [constructor | exact Hloop |].
  unfold matchedShapes; simpl.
  split; [exact Hall|]. intros Hne.
  eapply Forall_impl; [|exact Hall].
  intros s Hs Hty.
  destruct (Hs Hty) as [Hl|[(es & Hes & Hdata)|(_ & Hp & Hdata)]];
    [left; exact Hl | | right; right; split; assumption].
  right; left. destruct es as [|e es]; [destruct (Hne _ Hes)|].
  exists (annOfCsv e), (map annOfCsv es). exact Hdata.
Qed.

(** * More properties of the component *)

(** ** Runs and reruns *)

(** X1.  A run on a Lexicon that has a key leaves the text, the two
    dictionaries and the console as they were, replaces the output and
    the report whatever they held before, and run again on the cells it
    left gives the same cells. *)
Theorem rerun_changes_nothing (fuel : nat) (app app' : App) :
  keys (ccCedict app) <> [] ->
  processScript fuel app = Some app' ->
  scriptInput app' = scriptInput app /\
  ccCedict app' = ccCedict app /\
  csvDictionary app' = csvDictionary app /\
  console app' = console app /\
  (forall out unk,
      processScript fuel (mkApp (scriptInput app) (ccCedict app)
                                (csvDictionary app) out unk (console app)) =
      Some app') /\
  processScript fuel app' = Some app'.
Proof.
  intros Hk H.
  apply (processScript_Some fuel app app' Hk) in H as (st & Hloop & ->).
  simpl. repeat split.
  - intros out unk. rewrite processScript_loaded by exact Hk.
    rewrite Hloop. reflexivity.
  - rewrite processScript_loaded by exact Hk. rewrite Hloop. reflexivity.
Qed.

Lemma rerun_changes_nothing_witness :
  exists app',
    processScript 3 staleApp = Some app' /\
    scriptInput app' = scriptInput staleApp /\
    ccCedict app' = ccCedict staleApp /\
    csvDictionary app' = csvDictionary staleApp /\
    console app' = console staleApp /\
    (forall out unk,
        processScript 3 (mkApp (scriptInput staleApp) (ccCedict staleApp)
                               (csvDictionary staleApp) out unk
                               (console staleApp)) =
        Some app') /\
    processScript 3 app' = Some app'.
Proof.
  eexists. split; [reflexivity|].
  apply (rerun_changes_nothing 3 staleApp).
  - discriminate.
  - reflexivity.
Defined.

Lemma clicks_empty (fuel n : nat) (t : str) (d : Dictionary)
      (c : CsvDictionary) (out : list ProcessedSegment)
      (unk : list UnknownWord) (log : list str) :
  keys d = [] ->
  clicks fuel n (mkApp t d c out unk log) =
  Some (mkApp t d c (out ++ repeat errorSegment n) unk
              (log ++ repeat warnEmpty n)).
Proof.
  intros Hk. revert out log. induction n as [|n IH]; intros out log; simpl.
  - rewrite !app_nil_r. reflexivity.
  - unfold processScript at 1. simpl. rewrite Hk.
    rewrite IH, <- !app_assoc. reflexivity.
Qed.

(** X2.  On an empty Lexicon the runs do not settle: [n] runs in a row
    leave [n] more error segments in the output and [n] more warnings on
    the console, after what was there, whatever the text, the curriculum
    and the fuel; the report is untouched. *)
Theorem empty_lexicon_clicks_accumulate (fuel n : nat) (app : App) :
  keys (ccCedict app) = [] ->
  exists app',
    clicks fuel n app = Some app' /\
    processedOutput app' = processedOutput app ++ repeat errorSegment n /\
    console app' = console app ++ repeat warnEmpty n /\
    unknownWords app' = unknownWords app /\
    scriptInput app' = scriptInput app /\
    ccCedict app' = ccCedict app /\
    csvDictionary app' = csvDictionary app.
Proof.
  destruct app as [t d c out unk log]; simpl. intros Hk.
  eexists. split; [apply clicks_empty; exact Hk|]. simpl. repeat split.
Qed.

Lemma empty_lexicon_clicks_accumulate_witness :
  exists app',
    clicks 0 3 (mkApp zh_nihao [] sampleCsv [] [] []) = Some app' /\
    processedOutput app' = [] ++ repeat errorSegment 3 /\
    console app' = [] ++ repeat warnEmpty 3 /\
    unknownWords app' = [] /\
    scriptInput app' = zh_nihao /\
    ccCedict app' = [] /\
    csvDictionary app' = sampleCsv.
Proof.
  apply (empty_lexicon_clicks_accumulate
           0 3 (mkApp zh_nihao [] sampleCsv [] [] [])).
  reflexivity.
Defined.

(** ** Sizes of the output *)

Lemma GetSegmentsInCsv_count (csv : CsvDictionary) (w : str)
      (segs : list str) :
  w <> [] -> GetSegmentsInCsv csv w = Some segs -> length segs <= length w.
Proof.
  intros Hw. unfold GetSegmentsInCsv. destruct (truthy csv w).
  - intros [= <-]. destruct w; [congruence | simpl; lia].
  - intros H. apply scanSplits_Some in H as (j & Hj & -> & _). simpl. lia.
Qed.

Lemma key_nonempty (V : Type) (o : list (str * V)) (k : str) :
  KeysNonEmpty o -> In k (keys o) -> k <> [].
Proof. unfold KeysNonEmpty. rewrite Forall_forall. auto. Qed.

Lemma nonempty_length (w : str) : w <> [] -> 1 <= length w.
Proof. destruct w; [congruence | simpl; lia]. Qed.

Section Sizes.
Variable scriptText : str.
Variable cedict : Dictionary.
Variable csv : CsvDictionary.
Hypothesis cedict_keys : KeysNonEmpty cedict.
Hypothesis csv_keys : KeysNonEmpty csv.

Lemma textsNonEmpty_step (st st' : LoopState) :
  Forall (fun s => text s <> []) (results st) ->
  cursor st < length scriptText ->
  Iteration scriptText cedict csv st st' ->
  Forall (fun s => text s <> []) (results st').
Proof.
  intros Hall _ Hit.
  destruct Hit as [ Hc | c Hc Hn Hl | c Hc Hn Hl Hb
                    | c w segs Hlex Hm Hg | c w Hlex Hm Hg
                    | c w Hlex Hm Hcm | c Hlex Hm Hcm ]; simpl; auto;
    apply Forall_app; split; auto.
  - constructor; [discriminate | constructor].
  - constructor; [discriminate | constructor].
  - apply GetSegmentsInCsv_Some in Hg as (_ & _ & Hkeys).
    rewrite Forall_forall in Hkeys |- *. intros s Hs.
    apply in_map_iff in Hs as (x & <- & Hx). simpl.
    destruct (proj1 (truthy_true _ csv x) (Hkeys x Hx)) as [Hin|Hp].
    + exact (key_nonempty _ csv x csv_keys Hin).
    + exact (objectPrototype_nonempty x Hp).
  - constructor; [|constructor]. simpl.
    apply lexMatch_Some in Hm as (Hin & _).
    exact (key_nonempty _ cedict w cedict_keys Hin).
  - constructor; [|constructor]. simpl.
    apply csvMatch_Some in Hcm as (Hin & _).
    exact (key_nonempty _ csv w csv_keys Hin).
Qed.

Lemma segmentCount_step (st st' : LoopState) :
  length (results st) <= cursor st ->
  cursor st < length scriptText ->
  Iteration scriptText cedict csv st st' ->
  length (results st') <= cursor st'.
Proof.
  intros Hle _ Hit.
  destruct Hit as [ Hc | c Hc Hn Hl | c Hc Hn Hl Hb
                    | c w segs Hlex Hm Hg | c w Hlex Hm Hg
                    | c w Hlex Hm Hcm | c Hlex Hm Hcm ]; simpl;
    rewrite ?length_app, ?length_map; simpl; try lia.
  - apply lexMatch_Some in Hm as (Hin & _).
    pose proof (GetSegmentsInCsv_count csv w segs
                  (key_nonempty _ cedict w cedict_keys Hin) Hg). lia.
  - apply lexMatch_Some in Hm as (Hin & _).
    pose proof (nonempty_length w (key_nonempty _ cedict w cedict_keys Hin)).
    lia.
  - apply csvMatch_Some in Hcm as (Hin & _).
    pose proof (nonempty_length w (key_nonempty _ csv w csv_keys Hin)). lia.
Qed.

End Sizes.

Lemma unmatchedWords_count (seen : list str) (segs : list ProcessedSegment) :
  length (unmatchedWords seen segs) <= length (filter isUnmatched segs).
Proof.
  revert seen; induction segs as [|s segs IH]; intros seen; simpl; [lia|].
  destruct (isUnmatched s); simpl.
  - destruct (setHas seen (text s)); simpl.
    + specialize (IH seen). lia.
    + specialize (IH (seen ++ [text s])). lia.
  - apply IH.
Qed.

(** X3.  When no key of either dictionary is empty, no segment of the
    output has an empty text: the run returns, and every segment holds
    at least one code unit of the input. *)
Theorem segment_texts_are_nonempty (app : App) :
  keys (ccCedict app) <> [] ->
  KeysNonEmpty (ccCedict app) -> KeysNonEmpty (csvDictionary app) ->
  (forall fuel app',
      processScript fuel app = Some app' -> textsNonEmpty app') /\
  (forall fuel,
      length (scriptInput app) <= fuel ->
      exists app', processScript fuel app = Some app' /\ textsNonEmpty app').
Proof.
  intros Hk Hd Hc.
  assert (Hpartial : forall fuel app',
             processScript fuel app = Some app' -> textsNonEmpty app').
  { intros fuel app' H.
    apply (processScript_Some fuel app app' Hk) in H as (st & Hloop & ->).
    unfold textsNonEmpty; simpl.
    apply (whileLoop_invariant (scriptInput app) (ccCedict app)
             (csvDictionary app)
             (fun s => Forall (fun x => text x <> []) (results s))
             (textsNonEmpty_step (scriptInput app) (ccCedict app)
                                 (csvDictionary app) Hd Hc)
             fuel (mkLoop 0 [] []) st); [constructor | exact Hloop]. }
  split; [exact Hpartial|].
  apply processScript_total_correct; assumption.
Qed.

Lemma segment_texts_are_nonempty_witness :
  exists app', processScript 3 staleApp = Some app' /\ textsNonEmpty app'.
Proof.
  refine (proj2 (segment_texts_are_nonempty staleApp _ _ _) 3 _).
  - discriminate.
  - repeat constructor; discriminate.
  - repeat constructor; discriminate.
  - simpl; lia.
Defined.

(** X4.  On a Lexicon that has a key, when no key of either dictionary
    is empty, the run returns, its output has at most as many segments
    as the text has code units, and the report has at most as many
    records as the output has Unmatched segments. *)
Theorem output_is_bounded (app : App) :
  keys (ccCedict app) <> [] ->
  KeysNonEmpty (ccCedict app) -> KeysNonEmpty (csvDictionary app) ->
  (forall fuel app',
      processScript fuel app = Some app' -> outputBounded app') /\
  (forall fuel,
      length (scriptInput app) <= fuel ->
      exists app', processScript fuel app = Some app' /\ outputBounded app').
Proof.
  intros Hk Hd Hc.
  assert (Hpartial : forall fuel app',
             processScript fuel app = Some app' -> outputBounded app').
  { intros fuel app' H.
    apply (processScript_Some fuel app app' Hk) in H as (st & Hloop & ->).
    unfold outputBounded; simpl. split.
    - destruct (whileLoop_invariant (scriptInput app) (ccCedict app)
                  (csvDictionary app)
                  (fun s => length (results s) <= cursor s)
                  (segmentCount_step (scriptInput app) (ccCedict app)
                                     (csvDictionary app) Hd Hc)
                  fuel (mkLoop 0 [] []) st) as (Hle & _);
        [simpl; lia | exact Hloop |].
      rewrite (whileLoop_cursor (scriptInput app) (ccCedict app)
                 (csvDictionary app) fuel (mkLoop 0 [] []) st) in Hle;
        [exact Hle | simpl; lia | exact Hloop].
    - destruct (whileLoop_invariant (scriptInput app) (ccCedict app)
                  (csvDictionary app) (unknownInvariant (ccCedict app))
                  (unknownInvariant_step (scriptInput app) (ccCedict app)
                                         (csvDictionary app))
                  fuel (mkLoop 0 [] []) st)
        as ((Hset & _ & _) & _); [|exact Hloop|].
      { repeat split; simpl; constructor. }
      rewrite length_mapIndexed, Hset. apply unmatchedWords_count. }
  split; [exact Hpartial|].
  apply processScript_total_correct; assumption.
Qed.

Lemma output_is_bounded_witness :
  exists app', processScript 3 staleApp = Some app' /\ outputBounded app'.
Proof.
  refine (proj2 (output_is_bounded staleApp _ _ _) 3 _).
  - discriminate.
  - repeat constructor; discriminate.
  - repeat constructor; discriminate.
  - simpl; lia.
Defined.

(** ** What [GetSegmentsInCsv] returns *)

Lemma GetSegmentsInCsv_None (csv : CsvDictionary) (w : str) :
  GetSegmentsInCsv csv w = None <->
  truthy csv w = false /\
  forall k, 1 <= k < length w ->
            truthy csv (firstn k w) && truthy csv (skipn k w) = false.
Proof.
  unfold GetSegmentsInCsv. split.
  - destruct (truthy csv w) eqn:E; [discriminate|]. intros H.
    split; [reflexivity|]. intros k Hk.
    apply (scanSplits_None csv w _ _ H k). lia.
  - intros [-> Hs].
    destruct (scanSplits csv w (length w - 1) 1) as [segs|] eqn:S;
      [|reflexivity].
    apply scanSplits_Some in S as (j & Hj & _ & H1 & H2 & _).
    specialize (Hs j ltac:(lia)). rewrite H1, H2 in Hs. discriminate.
Qed.

Lemma readable_truthy (csv : CsvDictionary) (k : str) :
  readable csv k <-> truthy csv k = true.
Proof. unfold readable. symmetry. apply truthy_true. Qed.

(** A word for which [GetSegmentsInCsv] returns [null] is no curriculum
    key, and no split of it gives two curriculum keys. *)
Lemma GetSegmentsInCsv_None_keys (csv : CsvDictionary) (w : str) :
  GetSegmentsInCsv csv w = None ->
  ~ In w (keys csv) /\
  forall k, 1 <= k < length w ->
            ~ (In (firstn k w) (keys csv) /\ In (skipn k w) (keys csv)).
Proof.
  intros H. apply GetSegmentsInCsv_None in H as [Hw Hs]. split.
  - intros Hin. rewrite (truthy_In_keys _ csv w Hin) in Hw. discriminate.
  - intros k Hk [H1 H2]. specialize (Hs k Hk).
    rewrite (truthy_In_keys _ csv _ H1), (truthy_In_keys _ csv _ H2) in Hs.
    discriminate.
Qed.

(** X5.  The test of [GetSegmentsInCsv] is the truthiness of a read of
    the curriculum, which holds at the curriculum keys and at the names
    of [Object.prototype].  The function returns [null] exactly when
    the word is neither and no split of it into two parts gives two
    such strings; it returns the word itself when the word is one; what
    it returns otherwise is two such strings that concatenate to the
    word, never more than two pieces: a word made of three curriculum
    words is not decomposed.  On an empty curriculum the word
    [valueOf] is returned as it is. *)
Theorem GetSegmentsInCsv_characterised (csv : CsvDictionary) (w : str) :
  (GetSegmentsInCsv csv w = None <->
   ~ readable csv w /\
   forall k, 1 <= k < length w ->
             ~ (readable csv (firstn k w) /\ readable csv (skipn k w))) /\
  (readable csv w -> GetSegmentsInCsv csv w = Some [w]) /\
  (forall segs,
      GetSegmentsInCsv csv w = Some segs ->
      concat segs = w /\ 1 <= length segs <= 2 /\
      Forall (readable csv) segs) /\
  GetSegmentsInCsv [] (lit "valueOf"%string) = Some [lit "valueOf"%string].
Proof.
  split; [|split; [|split; [|reflexivity]]].
  - rewrite GetSegmentsInCsv_None. split.
    + intros [Hw Hs]. split.
      * rewrite readable_truthy. congruence.
      * intros k Hk [H1 H2]. apply readable_truthy in H1, H2.
        specialize (Hs k Hk). rewrite H1, H2 in Hs. discriminate.
    + intros [Hw Hs]. split.
      * destruct (truthy csv w) eqn:E; [|reflexivity].
        apply readable_truthy in E. contradiction.
      * intros k Hk.
        destruct (truthy csv (firstn k w)) eqn:E1; [|reflexivity].
        destruct (truthy csv (skipn k w)) eqn:E2; [|reflexivity].
        apply readable_truthy in E1, E2. destruct (Hs k Hk). auto.
  - intros H. apply GetSegmentsInCsv_direct. apply readable_truthy. exact H.
  - intros segs H.
    pose proof (GetSegmentsInCsv_Some csv w segs H) as (Hc & _ & Hk).
    pose proof (GetSegmentsInCsv_length csv w segs H) as Hl.
    repeat split; auto; try lia.
    eapply Forall_impl; [|exact Hk]. intros s. apply readable_truthy.
Qed.

Lemma GetSegmentsInCsv_characterised_witness :
  GetSegmentsInCsv [(zh_ni, [sampleCsvEntry]); (zh_hao, [sampleCsvEntry]);
                    (zh_ma, [sampleCsvEntry])] zh_nihaoma = None /\
  GetSegmentsInCsv sampleCsv zh_nihao = Some [zh_nihao] /\
  (concat [zh_nihao; zh_ma] = zh_nihaoma /\
   1 <= length [zh_nihao; zh_ma] <= 2 /\
   Forall (readable sampleCsv) [zh_nihao; zh_ma]).
Proof.
  split; [|split].
  - apply (proj2 (proj1 (GetSegmentsInCsv_characterised
                           [(zh_ni, [sampleCsvEntry]);
                            (zh_hao, [sampleCsvEntry]);
                            (zh_ma, [sampleCsvEntry])] zh_nihaoma))).
    split.
    + intros [[H|[H|[H|[]]]]|H]; discriminate H.
    + intros k Hk. simpl in Hk.
      assert (k = 1 \/ k = 2) as [-> | ->] by lia; intros [H1 H2].
      * destruct H2 as [[H|[H|[H|[]]]]|H]; discriminate H.
      * destruct H1 as [[H|[H|[H|[]]]]|H]; discriminate H.
  - apply (proj1 (proj2 (GetSegmentsInCsv_characterised sampleCsv zh_nihao))).
    left. simpl; auto.
  - apply (proj1 (proj2 (proj2 (GetSegmentsInCsv_characterised
                                  sampleCsv zh_nihaoma)))
                 [zh_nihao; zh_ma]).
    reflexivity.
Defined.

(** ** The Unmatched segments and the reported words *)

Lemma unmatchedShape_step (scriptText : str) (cedict : Dictionary)
      (csv : CsvDictionary) (st st' : LoopState) :
  Forall (unmatchedShape cedict csv) (results st) ->
  cursor st < length scriptText ->
  Iteration scriptText cedict csv st st' ->
  Forall (unmatchedShape cedict csv) (results st').
Proof.
  intros Hall _ Hit.
  destruct Hit as [ Hc | c Hc Hn Hl | c Hc Hn Hl Hb
                    | c w segs Hlex Hm Hg | c w Hlex Hm Hg
                    | c w Hlex Hm Hcm | c Hlex Hm Hcm ]; simpl; auto;
    apply Forall_app; split; auto.
  - constructor; [|constructor]. intros H; discriminate H.
  - constructor; [|constructor]. intros H; discriminate H.
  - apply Forall_forall. intros s Hs.
    apply in_map_iff in Hs as (x & <- & _). intros H; discriminate H.
  - constructor; [|constructor]. intros _. simpl.
    apply lexMatch_Some in Hm as (Hin & _).
    apply GetSegmentsInCsv_None_keys in Hg as [Hw Hs]. auto.
  - constructor; [|constructor]. intros H; discriminate H.
Qed.

(** X6.  On a Lexicon that has a key, every Unmatched segment of a run
    that returns has a Lexicon key as text and the Lexicon entries of
    that key as annotations, and the curriculum covers the key neither
    directly nor by the two halves of a split; so every reported
    unknown word is a Lexicon word that is no curriculum word and no
    concatenation of two curriculum words.  The run returns when no key
    is empty. *)
Theorem unknown_words_are_outside_the_curriculum (app : App) :
  keys (ccCedict app) <> [] ->
  (forall fuel app',
      processScript fuel app = Some app' -> unmatchedOutsideCurriculum app') /\
  (KeysNonEmpty (ccCedict app) -> KeysNonEmpty (csvDictionary app) ->
   forall fuel,
     length (scriptInput app) <= fuel ->
     exists app',
       processScript fuel app = Some app' /\ unmatchedOutsideCurriculum app').
Proof.
  intros Hk.
  assert (Hpartial : forall fuel app',
             processScript fuel app = Some app' ->
             unmatchedOutsideCurriculum app').
  { intros fuel app' H.
    apply (processScript_Some fuel app app' Hk) in H as (st & Hloop & ->).
    destruct (whileLoop_invariant (scriptInput app) (ccCedict app)
                (csvDictionary app)
                (fun s => Forall (unmatchedShape (ccCedict app)
                                                 (csvDictionary app))
                                 (results s))
                (unmatchedShape_step (scriptInput app) (ccCedict app)
                                     (csvDictionary app))
                fuel (mkLoop 0 [] []) st) as (Hshape & _);
      [constructor | exact Hloop |].
    destruct (whileLoop_invariant (scriptInput app) (ccCedict app)
                (csvDictionary app) (unknownInvariant (ccCedict app))
                (unknownInvariant_step (scriptInput app) (ccCedict app)
                                       (csvDictionary app))
                fuel (mkLoop 0 [] []) st)
      as ((Hset & _ & _) & _); [|exact Hloop|].
    { repeat split; simpl; constructor. }
    unfold unmatchedOutsideCurriculum; simpl. split; [exact Hshape|].
    apply Forall_forall. intros u Hu.
    assert (Hw : In (word u) (unknownSet st)).
    { rewrite <- (mapIndexed_word (ccCedict app) 0 (unknownSet st)).
      apply in_map. exact Hu. }
    rewrite Hset in Hw. apply In_unmatchedWords in Hw as (_ & s & Hs & Hty & Ht).
    rewrite Forall_forall in Hshape.
    destruct (Hshape s Hs Hty) as (H1 & _ & H2 & H3).
    rewrite Ht in H1, H2, H3. repeat split; auto. }
  split; [exact Hpartial|].
  apply processScript_total_correct; exact Hpartial.
Qed.

Lemma unknown_words_are_outside_the_curriculum_witness :
  exists app',
    processScript 5 (mkApp (zh_nihao ++ zh_ni ++ zh_nihao) sampleCedict
                           [(zh_ma, [sampleCsvEntry])] [] [] []) =
    Some app' /\
    unmatchedOutsideCurriculum app'.
Proof.
  refine (proj2 (unknown_words_are_outside_the_curriculum
                   (mkApp (zh_nihao ++ zh_ni ++ zh_nihao) sampleCedict
                          [(zh_ma, [sampleCsvEntry])] [] [] []) _)
                _ _ 5 _).
  - discriminate.
  - repeat constructor; discriminate.
  - repeat constructor; discriminate.
  - simpl; lia.
Defined.

(** X7.  On a Lexicon that has a key, every Matched segment of a run
    that returns has one of three shapes: the segment of a Latin
    letter, with its bare object; a curriculum key as text and the
    curriculum entries of that key as annotations; or a name of
    [Object.prototype] that is no curriculum key as text, with the
    member of that name, which is no list of entries, as data.  When no
    curriculum key has an empty list, the segments of the second shape
    carry a non-empty list.  The run returns when no key is empty. *)
Theorem matched_segments_have_three_shapes (app : App) :
  keys (ccCedict app) <> [] ->
  (forall fuel app',
      processScript fuel app = Some app' -> matchedShapes app') /\
  (KeysNonEmpty (ccCedict app) -> KeysNonEmpty (csvDictionary app) ->
   forall fuel,
     length (scriptInput app) <= fuel ->
     exists app', processScript fuel app = Some app' /\ matchedShapes app').
Proof.
  intros Hk.
  assert (Hpartial : forall fuel app',
             processScript fuel app = Some app' -> matchedShapes app').
  { intros fuel app' H. exact (matched_segments_shape app fuel app' Hk H). }
  split; [exact Hpartial|].
  apply processScript_total_correct; exact Hpartial.
Qed.

Lemma matched_segments_have_three_shapes_witness :
  exists app', processScript 3 staleApp = Some app' /\ matchedShapes app'.
Proof.
  refine (proj2 (matched_segments_have_three_shapes staleApp _) _ _ 3 _).
  - discriminate.
  - repeat constructor; discriminate.
  - repeat constructor; discriminate.
  - simpl; lia.
Defined.

(** ** Text that needs no dictionary *)

Lemma skipn_nth_error (A : Type) (l : list A) (i : nat) (x : A) :
  nth_error l i = Some x -> skipn i l = x :: skipn (S i) l.
Proof.
  revert i; induction l as [|y l IH]; intros [|i]; simpl; try discriminate.
  - intros [= ->]. reflexivity.
  - intros H. rewrite (IH i H). reflexivity.
Qed.

Lemma loopBody_plain (scriptText : str) (cedict : Dictionary)
      (csv : CsvDictionary) (st : LoopState) (c : char) :
  nth_error scriptText (cursor st) = Some c -> isPlain c = true ->
  loopBody scriptText cedict csv st =
  mkLoop (cursor st + 1) (results st ++ plainSegments c) (unknownSet st).
Proof.
  intros Hc Hp. unfold plainSegments.
  destruct (N.eqb c newline) eqn:En.
  - apply N.eqb_eq in En; subst c. apply loopBody_newline; exact Hc.
  - apply N.eqb_neq in En. destruct (isLatin c) eqn:El.
    + apply loopBody_latin; assumption.
    + unfold isPlain in Hp. rewrite El in Hp. simpl in Hp.
      rewrite app_nil_r. apply (loopBody_blank _ _ _ st c); assumption.
Qed.

Lemma whileLoop_plain (scriptText : str) (cedict : Dictionary)
      (csv : CsvDictionary) :
  Forall (fun c => isPlain c = true) scriptText ->
  forall fuel st,
    cursor st <= length scriptText ->
    length scriptText - cursor st <= fuel ->
    whileLoop scriptText cedict csv fuel st =
    Some (mkLoop (length scriptText)
                 (results st ++
                    flat_map plainSegments (skipn (cursor st) scriptText))
                 (unknownSet st)).
Proof.
  intros Hall. induction fuel as [|fuel IH]; intros [i r u] Hle Hf;
    simpl in Hle, Hf.
  - assert (i = length scriptText) as -> by lia.
    rewrite whileLoop_done by (simpl; lia). simpl.
    rewrite skipn_all, app_nil_r. reflexivity.
  - destruct (Nat.eq_dec i (length scriptText)) as [->|Hne].
    + rewrite whileLoop_done by (simpl; lia). simpl.
      rewrite skipn_all, app_nil_r. reflexivity.
    + assert (Hlt : i < length scriptText) by lia.
      destruct (nth_error scriptText i) as [c|] eqn:Hc;
        [|apply nth_error_None in Hc; lia].
      rewrite whileLoop_step by exact Hlt.
      rewrite (loopBody_plain scriptText cedict csv (mkLoop i r u) c Hc).
      * rewrite IH by (simpl; lia). simpl.
        rewrite (skipn_nth_error _ _ _ _ Hc). simpl.
        rewrite <- app_assoc, Nat.add_1_r. reflexivity.
      * rewrite Forall_forall in Hall. apply Hall.
        eapply nth_error_In; eauto.
Qed.

(** X8.  A text made only of ASCII letters, newlines and other white
    space is segmented unit by unit whatever the two dictionaries hold,
    empty keys included, as long as the Lexicon has a key: a marker per
    newline, a pass-through segment per letter, nothing for the other
    white space, and an empty report; for the empty text the output is
    empty.  Fuel equal to the length of the text is enough. *)
Theorem plain_text_needs_no_dictionary
        (scriptText : str) (cedict : Dictionary) (csv : CsvDictionary)
        (fuel : nat) (out : list ProcessedSegment) (unk : list UnknownWord)
        (log : list str) :
  keys cedict <> [] ->
  Forall (fun c => isPlain c = true) scriptText ->
  length scriptText <= fuel ->
  processScript fuel (mkApp scriptText cedict csv out unk log) =
  Some (mkApp scriptText cedict csv
              (flat_map plainSegments scriptText) [] log).
Proof.
  intros Hk Hall Hf. rewrite processScript_loaded by exact Hk.
  rewrite (whileLoop_plain scriptText cedict csv Hall fuel (mkLoop 0 [] []))
    by (simpl; lia).
  reflexivity.
Qed.

Lemma plain_text_needs_no_dictionary_witness :
  processScript 6 (mkApp text_ni_hao [([], [sampleEntry])] [([], [])]
                         [errorSegment] [] []) =
  Some (mkApp text_ni_hao [([], [sampleEntry])] [([], [])]
              (flat_map plainSegments text_ni_hao) [] []).
Proof.
  apply (plain_text_needs_no_dictionary text_ni_hao [([], [sampleEntry])]
                                        [([], [])] 6 [errorSegment] [] []).
  - discriminate.
  - repeat constructor.
  - simpl; lia.
Defined.

(** ** The curriculum as a fallback *)

Lemma find_first (A : Type) (p : A -> bool) (a b : list A) (w : A) :
  (forall x, In x a -> p x = false) -> p w = true ->
  find p (a ++ w :: b) = Some w.
Proof.
  induction a as [|x a IH]; simpl; intros Ha Hw.
  - rewrite Hw. reflexivity.
  - rewrite (Ha x) by auto. apply IH; auto.
Qed.

(** X9.  Where no Lexicon key matches at the cursor, the curriculum key
    taken is the first one, in the enumeration order of the curriculum,
    that the text starts with there, whatever its length: a longer key
    that comes later is not considered.  It gives one Matched segment
    with its curriculum entries and the cursor moves by its length.
    When no curriculum key matches either, the unit is passed over:
    nothing is pushed and the cursor moves by one. *)
Theorem curriculum_fallback_takes_the_first_key
        (scriptText : str) (cedict : Dictionary) (csv : CsvDictionary)
        (st : LoopState) (c : char) :
  lexical scriptText (cursor st) c ->
  noKeyAt scriptText (keys cedict) (cursor st) ->
  (forall a w b,
      keys csv = a ++ w :: b ->
      noKeyAt scriptText a (cursor st) ->
      startsWith scriptText w (cursor st) = true ->
      loopBody scriptText cedict csv st =
      mkLoop (cursor st + length w) (results st ++ [foundSegment csv w])
             (unknownSet st)) /\
  (noKeyAt scriptText (keys csv) (cursor st) ->
   loopBody scriptText cedict csv st =
   mkLoop (cursor st + 1) (results st) (unknownSet st)).
Proof.
  intros Hlex Hno. apply lexMatch_None in Hno.
  rewrite (loopBody_lexical scriptText cedict csv st c Hlex), Hno. split.
  - intros a w b Hk Ha Hw. unfold csvMatch. rewrite Hk.
    rewrite (find_first _ _ a b w Ha Hw). reflexivity.
  - intros Hc. apply csvMatch_None in Hc. rewrite Hc. reflexivity.
Qed.

Lemma curriculum_fallback_takes_the_first_key_witness :
  loopBody zh_nihao [(zh_ma, [sampleEntry])]
           [(zh_ni, [sampleCsvEntry]); (zh_nihao, [sampleCsvEntry])]
           (mkLoop 0 [] []) =
  mkLoop (0 + length zh_ni)
         ([] ++ [foundSegment [(zh_ni, [sampleCsvEntry]);
                               (zh_nihao, [sampleCsvEntry])] zh_ni])
         [] /\
  loopBody zh_nihao [(zh_ma, [sampleEntry])]
           [(zh_ni, [sampleCsvEntry]); (zh_nihao, [sampleCsvEntry])]
           (mkLoop 1 [] []) =
  mkLoop (1 + 1) [] [].
Proof.
  assert (H0 : noKeyAt zh_nihao (keys [(zh_ma, [sampleEntry])]) 0)
    by (intros w [<-|[]]; reflexivity).
  assert (H1 : noKeyAt zh_nihao (keys [(zh_ma, [sampleEntry])]) 1)
    by (intros w [<-|[]]; reflexivity).
  split.
  - apply (proj1 (curriculum_fallback_takes_the_first_key
                    zh_nihao [(zh_ma, [sampleEntry])]
                    [(zh_ni, [sampleCsvEntry]); (zh_nihao, [sampleCsvEntry])]
                    (mkLoop 0 [] []) 20320%N
                    (lexical_zh_ni zh_hao) H0)
                 [] zh_ni [zh_nihao]).
    + reflexivity.
    + intros w [].
    + reflexivity.
  - apply (proj2 (curriculum_fallback_takes_the_first_key
                    zh_nihao [(zh_ma, [sampleEntry])]
                    [(zh_ni, [sampleCsvEntry]); (zh_nihao, [sampleCsvEntry])]
                    (mkLoop 1 [] []) 22909%N
                    ltac:(repeat split; discriminate) H1)).
    intros w [<-|[<-|[]]]; reflexivity.
Defined.

(** ** Clicks on the segments *)

Lemma EntriesNonEmpty_nil (V : Type) : EntriesNonEmpty (@nil (str * list V)).
Proof. intros k. discriminate. Qed.

Lemma EntriesNonEmpty_cons (V : Type) (k : str) (v : list V)
      (o : list (str * list V)) :
  v <> [] -> EntriesNonEmpty o -> EntriesNonEmpty ((k, v) :: o).
Proof.
  intros Hv Ho k'. cbn [lookup]. destruct (str_eqb k k'); [congruence | apply Ho].
Qed.

(** A click changes the selection only to the segment clicked, and
    only when that segment is Matched and carries a non-empty array or
    a member of [Object.prototype] whose [length] is truthy: it never
    clears the selection, and a click on an Unmatched segment, on the
    newline marker, on the error segment or on the segment of a Latin
    letter leaves the selection as it was. *)
Theorem showDetails_selects_annotated_matches
        (segment : ProcessedSegment) (selected : option ProcessedSegment) :
  (type segment = found -> carriesAnnotationList segment ->
   showDetails segment selected = Some segment) /\
  (type segment <> found \/
   (~ carriesAnnotationList segment /\
    forall k, data segment = DataMember k -> memberHasLength k = false) ->
   showDetails segment selected = selected) /\
  (forall c, showDetails (latinSegment c) selected = selected) /\
  showDetails newlineSegment selected = selected /\
  showDetails errorSegment selected = selected.
Proof.
  unfold showDetails, carriesAnnotationList. repeat split.
  - intros -> (a & l & ->). reflexivity.
  - intros [H|[H Hk]].
    + destruct (type segment); congruence.
    + destruct (type segment); auto.
      destruct (data segment) as [| |[|a l]|k]; auto.
      * destruct H. eauto.
      * simpl. rewrite (Hk k eq_refl). reflexivity.
Qed.

Lemma showDetails_selects_annotated_matches_witness :
  showDetails (mkSegment zh_nihao found (DataArray [annOfCsv sampleCsvEntry]))
              (Some errorSegment) =
  Some (mkSegment zh_nihao found (DataArray [annOfCsv sampleCsvEntry])) /\
  showDetails (mkSegment zh_nihao not_found
                         (DataArray [annOfDict sampleEntry]))
              (Some errorSegment) =
  Some errorSegment.
Proof.
  split.
  - apply (proj1 (showDetails_selects_annotated_matches
                    (mkSegment zh_nihao found
                               (DataArray [annOfCsv sampleCsvEntry]))
                    (Some errorSegment))).
    + reflexivity.
    + eexists; eexists; reflexivity.
  - apply (proj1 (proj2 (showDetails_selects_annotated_matches
                           (mkSegment zh_nihao not_found
                                      (DataArray [annOfDict sampleEntry]))
                           (Some errorSegment)))).
    left. discriminate.
Defined.

Lemma lookup_None_not_In (V : Type) (o : list (str * V)) (k : str) :
  lookup o k = None -> ~ In k (keys o).
Proof.
  intros H Hin. apply In_keys_lookup in Hin as [v Hv]. congruence.
Qed.

(** X10.  After a run on a Lexicon that has a key and a curriculum that
    has no empty list, a click on the segment of a Latin letter or on a
    segment that is not Matched leaves the selection as it was.  Every
    other Matched segment has as text a curriculum key, and then a
    click selects it, or a name of [Object.prototype] that is no
    curriculum key; a click on such a segment selects it when the
    member of that name has a truthy [length], as [constructor] has,
    and leaves the selection as it was when it has not, as for
    [toString].  The run returns when no key is empty. *)
Theorem clicks_open_the_curriculum_words (app : App) :
  keys (ccCedict app) <> [] ->
  EntriesNonEmpty (csvDictionary app) ->
  (forall fuel app',
      processScript fuel app = Some app' -> clicksAsExpected app') /\
  (KeysNonEmpty (ccCedict app) -> KeysNonEmpty (csvDictionary app) ->
   forall fuel,
     length (scriptInput app) <= fuel ->
     exists app', processScript fuel app = Some app' /\ clicksAsExpected app').
Proof.
  intros Hk Hne.
  assert (Hpartial : forall fuel app',
             processScript fuel app = Some app' -> clicksAsExpected app').
  { intros fuel app' H.
    pose proof (matched_segments_shape app fuel app' Hk H) as [Hall _].
    apply (processScript_Some fuel app app' Hk) in H as (st & _ & ->).
    simpl in Hall. rewrite Forall_forall in Hall.
    intros s selected Hs. simpl in Hs |- *. split.
    - intros [(c & _ & ->)|Hty]; [reflexivity|].
      unfold showDetails. destruct (type s); congruence.
    - intros Hty Hnot.
      destruct (Hall s Hs Hty)
        as [(c & _ & ->)|[(es & Hes & Hd)|(Hno & Hp & Hd)]].
      + destruct (Hnot c eq_refl).
      + left. split; [eapply lookup_In_keys; eauto|].
        unfold showDetails. rewrite Hty, Hd.
        destruct es as [|e es]; [destruct (Hne _ Hes) | reflexivity].
      + right. split; [apply lookup_None_not_In; exact Hno|].
        split; [exact Hp|].
        unfold showDetails. rewrite Hty, Hd. reflexivity. }
  split; [exact Hpartial|].
  apply processScript_total_correct; exact Hpartial.
Qed.

Lemma clicks_open_the_curriculum_words_witness :
  exists app', processScript 3 staleApp = Some app' /\ clicksAsExpected app'.
Proof.
  refine (proj2 (clicks_open_the_curriculum_words staleApp _ _) _ _ 3 _).
  - discriminate.
  - repeat (apply EntriesNonEmpty_cons; [discriminate|]).
    apply EntriesNonEmpty_nil.
  - repeat constructor; discriminate.
  - repeat constructor; discriminate.
  - simpl; lia.
Defined.

(** ** The two views *)



Section LineBreaks.
Variable scriptText : str.
Variable cedict : Dictionary.
Variable csv : CsvDictionary.
Hypothesis cedict_clean : KeysWithoutNewline cedict.
Hypothesis csv_clean : KeysWithoutNewline csv.


End LineBreaks.





(** X12.  In the annotated view of a run on a Lexicon that has a key, a
    segment that is no line break shows, as ruby text, the pinyin at
    index 0 of the list it came from: the Lexicon list of its text for
    an Unmatched segment, the curriculum list of its text for a Matched
    one whose text is a curriculum key; it is shown bare when that list
    is empty, and the segment of a Latin letter is always shown bare,
    its pinyin never displayed.  A Matched segment whose text is no
    curriculum key is named after a member of [Object.prototype]: it is
    shown bare when the [length] of the member is falsy, and when it is
    truthy the node cannot be built, since the member has no element at
    index 0.  The run returns when no key is empty. *)
Theorem annotated_view_shows_first_pinyin (app : App) :
  keys (ccCedict app) <> [] ->
  (forall fuel app',
      processScript fuel app = Some app' -> annotatedAsExpected app') /\
  (KeysNonEmpty (ccCedict app) -> KeysNonEmpty (csvDictionary app) ->
   forall fuel,
     length (scriptInput app) <= fuel ->
     exists app',
       processScript fuel app = Some app' /\ annotatedAsExpected app').
Proof.
  intros Hk.
  assert (Hpartial : forall fuel app',
             processScript fuel app = Some app' -> annotatedAsExpected app').
  { intros fuel app' H.
    pose proof (matched_segments_shape app fuel app' Hk H) as [Hm _].
    apply (processScript_Some fuel app app' Hk) in H as (st & Hloop & ->).
    destruct (whileLoop_invariant (scriptInput app) (ccCedict app)
                (csvDictionary app)
                (fun s => Forall (unmatchedShape (ccCedict app)
                                                 (csvDictionary app))
                                 (results s))
                (unmatchedShape_step (scriptInput app) (ccCedict app)
                                     (csvDictionary app))
                fuel (mkLoop 0 [] []) st) as (Hu & _);
      [constructor | exact Hloop |].
    simpl in Hm. unfold annotatedAsExpected; simpl.
    rewrite Forall_forall in Hm, Hu |- *. intros s Hs Hbr.
    destruct (type s) eqn:Hty.
    - destruct (Hm s Hs Hty)
        as [(c & Hc & ->)|[(es & Hes & Hd)|(Hno & Hp & Hd)]].
      + left. exists c. repeat split; auto.
        unfold annotatedNode. rewrite Hbr. reflexivity.
      + right; left. split; [eapply lookup_In_keys; eauto|].
        unfold annotatedNode, rubyOfCsv. rewrite Hbr, Hd, Hes.
        destruct es; reflexivity.
      + right; right. split; [apply lookup_None_not_In; exact Hno|].
        split; [exact Hp|].
        unfold annotatedNode, nodeOfMember. rewrite Hbr, Hd. reflexivity.
    - destruct (Hu s Hs Hty) as (Hin & Hd & _).
      apply In_keys_lookup in Hin as [l Hl].
      unfold annotatedNode, rubyOfCedict. rewrite Hbr, Hd.
      unfold dataOfDict. rewrite (read_lookup _ _ _ _ Hl), Hl.
      destruct l; reflexivity.
    - exact I. }
  split; [exact Hpartial|].
  apply processScript_total_correct; exact Hpartial.
Qed.

Lemma annotated_view_shows_first_pinyin_witness :
  exists app',
    processScript 5 (mkApp (zh_nihao ++ zh_ni ++ zh_nihao) sampleCedict
                           sampleCsv [] [] []) = Some app' /\
    annotatedAsExpected app'.
Proof.
  refine (proj2 (annotated_view_shows_first_pinyin
                   (mkApp (zh_nihao ++ zh_ni ++ zh_nihao) sampleCedict
                          sampleCsv [] [] []) _) _ _ 5 _).
  - discriminate.
  - repeat constructor; discriminate.
  - repeat constructor; discriminate.
  - simpl; lia.
Defined.

(** ** [trim] *)

Lemma trimStart_idem (s : str) : trimStart (trimStart s) = trimStart s.
Proof.
  induction s as [|c s IH]; simpl; [reflexivity|].
  destruct (isBlank c) eqn:E; [exact IH|]. simpl. rewrite E. reflexivity.
Qed.

Lemma trimEnd_idem (s : str) : trimEnd (trimEnd s) = trimEnd s.
Proof.
  induction s as [|c s IH]; simpl; [reflexivity|].
  destruct (trimEnd s) as [|x r] eqn:E.
  - destruct (isBlank c) eqn:Eb; simpl; [reflexivity|]. rewrite Eb. reflexivity.
  - simpl in IH |- *. rewrite IH. reflexivity.
Qed.

(** Trimming at the end keeps a first unit that is no white space. *)
Lemma trimEnd_head (c : char) (s : str) :
  isBlank c = false -> exists r, trimEnd (c :: s) = c :: r.
Proof.
  intros Hc. simpl. destruct (trimEnd s); [rewrite Hc|]; eauto.
Qed.

Lemma trimStart_fixed (s : str) :
  trimStart s = s <-> s = [] \/ exists c r, s = c :: r /\ isBlank c = false.
Proof.
  destruct s as [|c r]; simpl.
  - split; auto.
  - destruct (isBlank c) eqn:E.
    + split.
      * intros H. exfalso.
        assert (Hl : length (trimStart r) <= length r).
        { clear. induction r as [|x r IH]; simpl; [lia|].
          destruct (isBlank x); simpl; lia. }
        rewrite H in Hl. simpl in Hl. lia.
      * intros [H|(c' & r' & H & Hb)]; [discriminate|].
        inversion H; subst. congruence.
    + split; [intros _; right; eauto | reflexivity].
Qed.

Lemma trim_idem (s : str) : trim (trim s) = trim s.
Proof.
  unfold trim.
  assert (H : trimStart (trimEnd (trimStart s)) = trimEnd (trimStart s)).
  { apply trimStart_fixed.
    destruct (proj1 (trimStart_fixed (trimStart s)) (trimStart_idem s))
      as [->|(c & r & -> & Hc)]; [left; reflexivity|].
    right. destruct (trimEnd_head c r Hc) as [r' ->]. eauto. }
  rewrite H. apply trimEnd_idem.
Qed.

Lemma trimStart_split (s : str) :
  exists a, s = a ++ trimStart s /\ Forall (fun c => isBlank c = true) a.
Proof.
  induction s as [|c s (a & Ha & Hall)]; simpl.
  - exists []. split; [reflexivity | constructor].
  - destruct (isBlank c) eqn:E.
    + exists (c :: a). split; [simpl; congruence | constructor; assumption].
    + exists []. split; [reflexivity | constructor].
Qed.

Lemma trimEnd_split (s : str) :
  exists b, s = trimEnd s ++ b /\ Forall (fun c => isBlank c = true) b.
Proof.
  induction s as [|c s (b & Hb & Hall)]; simpl.
  - exists []. split; [reflexivity | constructor].
  - destruct (trimEnd s) as [|x r] eqn:E.
    + destruct (isBlank c) eqn:Ec.
      * exists (c :: b). simpl in Hb. subst s.
        split; [reflexivity | constructor; assumption].
      * exists b. simpl in *. subst s. split; [reflexivity | assumption].
    + exists b. simpl in *. rewrite Hb at 1. split; [reflexivity | assumption].
Qed.

Lemma trimEnd_last (s : str) :
  trimEnd s = [] \/ exists r c, trimEnd s = r ++ [c] /\ isBlank c = false.
Proof.
  induction s as [|x s IH]; simpl; [left; reflexivity|].
  destruct (trimEnd s) as [|y r] eqn:E.
  - destruct (isBlank x) eqn:Ex; [left; reflexivity|].
    right. exists [], x. auto.
  - right. destruct IH as [H|(r' & c & H & Hc)]; [discriminate|].
    exists (x :: r'), c. rewrite H. auto.
Qed.

(** ** Own keys of an object *)

Section OwnKeyFacts.
Variable V : Type.

Lemma keys_updateKey (o : list (str * V)) (k : str) (f : V -> V) :
  keys (updateKey o k f) = keys o.
Proof.
  induction o as [|[k0 v0] o IH]; simpl; [reflexivity|].
  destruct (str_eqb k0 k); simpl; [reflexivity | rewrite IH; reflexivity].
Qed.

Lemma lookup_updateKey (o : list (str * V)) (k k' : str) (f : V -> V) :
  lookup (updateKey o k f) k' =
  if str_eqb k k' then option_map f (lookup o k') else lookup o k'.
Proof.
  induction o as [|[k0 v0] o IH]; simpl.
  - destruct (str_eqb k k'); reflexivity.
  - destruct (str_eqb k0 k) eqn:E0; simpl.
    + apply str_eqb_eq in E0; subst k0.
      destruct (str_eqb k k'); reflexivity.
    + rewrite IH. destruct (str_eqb k0 k') eqn:E1; [|reflexivity].
      apply str_eqb_eq in E1; subst k0.
      destruct (str_eqb k k') eqn:E2; [|reflexivity].
      apply str_eqb_eq in E2; subst k. rewrite str_eqb_refl in E0.
      discriminate.
Qed.

Lemma In_keys_insertIndexKey (n : N) (k : str) (v : V) (o : list (str * V))
      (x : str) :
  In x (keys (insertIndexKey n k v o)) <-> x = k \/ In x (keys o).
Proof.
  induction o as [|[k0 v0] o IH]; simpl.
  - intuition congruence.
  - destruct (arrayIndex k0) as [m|]; [destruct (m <? n)%N|]; simpl;
      rewrite ?IH; intuition congruence.
Qed.

Lemma lookup_insertIndexKey (n : N) (k k' : str) (v : V) (o : list (str * V)) :
  lookup o k = None ->
  lookup (insertIndexKey n k v o) k' =
  if str_eqb k k' then Some v else lookup o k'.
Proof.
  induction o as [|[k0 v0] o IH]; simpl; [reflexivity|].
  destruct (str_eqb k0 k) eqn:E0; [discriminate|]. intros Hk.
  assert (Hsame : lookup ((k, v) :: (k0, v0) :: o) k' =
                  if str_eqb k k' then Some v
                  else if str_eqb k0 k' then Some v0 else lookup o k')
    by reflexivity.
  destruct (arrayIndex k0) as [m|]; [destruct (m <? n)%N|]; try exact Hsame.
  simpl. rewrite (IH Hk).
  destruct (str_eqb k0 k') eqn:E1; [|reflexivity].
  apply str_eqb_eq in E1; subst k0.
  destruct (str_eqb k k') eqn:E2; [|reflexivity].
  apply str_eqb_eq in E2; subst k. rewrite str_eqb_refl in E0. discriminate.
Qed.

Lemma lookup_snoc (k k' : str) (v : V) (o : list (str * V)) :
  lookup o k = None ->
  lookup (o ++ [(k, v)]) k' = if str_eqb k k' then Some v else lookup o k'.
Proof.
  induction o as [|[k0 v0] o IH]; simpl; [reflexivity|].
  destruct (str_eqb k0 k) eqn:E0; [discriminate|]. intros Hk.
  rewrite (IH Hk). destruct (str_eqb k0 k') eqn:E1; [|reflexivity].
  apply str_eqb_eq in E1; subst k0.
  destruct (str_eqb k k') eqn:E2; [|reflexivity].
  apply str_eqb_eq in E2; subst k. rewrite str_eqb_refl in E0. discriminate.
Qed.

Lemma lookup_defineKey (k k' : str) (v : V) (o : list (str * V)) :
  lookup o k = None ->
  lookup (defineKey o k v) k' = if str_eqb k k' then Some v else lookup o k'.
Proof.
  unfold defineKey. destruct (arrayIndex k);
    [apply lookup_insertIndexKey | apply lookup_snoc].
Qed.

Lemma In_keys_defineKey (k : str) (v : V) (o : list (str * V)) (x : str) :
  In x (keys (defineKey o k v)) <-> x = k \/ In x (keys o).
Proof.
  unfold defineKey. destruct (arrayIndex k).
  - apply In_keys_insertIndexKey.
  - unfold keys. rewrite map_app, in_app_iff. simpl. intuition congruence.
Qed.

Lemma NoDup_insertIndexKey (n : N) (k : str) (v : V) (o : list (str * V)) :
  ~ In k (keys o) -> NoDup (keys o) -> NoDup (keys (insertIndexKey n k v o)).
Proof.
  induction o as [|[k0 v0] o IH]; simpl; intros Hk Hnd.
  - constructor; [tauto | constructor].
  - assert (Hcons : NoDup (k :: k0 :: keys o))
      by (constructor; [simpl; tauto | exact Hnd]).
    destruct (arrayIndex k0) as [m|]; [destruct (m <? n)%N|]; try exact Hcons.
    simpl. inversion Hnd; subst. constructor.
    + rewrite In_keys_insertIndexKey. intuition congruence.
    + apply IH; tauto.
Qed.

Lemma NoDup_defineKey (k : str) (v : V) (o : list (str * V)) :
  ~ In k (keys o) -> NoDup (keys o) -> NoDup (keys (defineKey o k v)).
Proof.
  unfold defineKey. destruct (arrayIndex k).
  - apply NoDup_insertIndexKey.
  - intros Hk Hnd. unfold keys. rewrite map_app. simpl.
    apply NoDup_app; [exact Hnd | repeat constructor; simpl; tauto |].
    intros x Hx [<-|[]]. exact (Hk Hx).
Qed.

Lemma Forall_insertIndexKey (P : str * V -> Prop) (n : N) (k : str) (v : V)
      (o : list (str * V)) :
  P (k, v) -> Forall P o -> Forall P (insertIndexKey n k v o).
Proof.
  intros Hp. induction o as [|[k0 v0] o IH]; simpl; intros Ho.
  - constructor; auto.
  - destruct (arrayIndex k0) as [m|]; [destruct (m <? n)%N|];
      try (constructor; assumption).
    inversion Ho; subst. constructor; auto.
Qed.

Lemma Forall_defineKey (P : str * V -> Prop) (k : str) (v : V)
      (o : list (str * V)) :
  P (k, v) -> Forall P o -> Forall P (defineKey o k v).
Proof.
  unfold defineKey. destruct (arrayIndex k).
  - apply Forall_insertIndexKey.
  - intros Hp Ho. apply Forall_app. split; [exact Ho | repeat constructor; auto].
Qed.

Lemma Forall_updateKey (P : str * V -> Prop) (k : str) (f : V -> V)
      (o : list (str * V)) :
  (forall v, P (k, v) -> P (k, f v)) -> Forall P o ->
  Forall P (updateKey o k f).
Proof.
  intros Hf. induction o as [|[k0 v0] o IH]; simpl; intros Ho; [constructor|].
  inversion Ho; subst.
  destruct (str_eqb k0 k) eqn:E.
  - apply str_eqb_eq in E; subst k0. constructor; auto.
  - constructor; auto.
Qed.

End OwnKeyFacts.

(** ** The dictionary built from the rows *)

Lemma fileEntries_app (o : option (list CsvEntry)) (a b : list CsvEntry) :
  fileEntries (fileEntries o a) b = fileEntries o (a ++ b).
Proof.
  destruct o as [l|]; destruct a as [|x a]; destruct b as [|y b]; simpl;
    rewrite ?app_nil_r, <- ?app_assoc; reflexivity.
Qed.

Lemma entryOf_trimmed (r : Row) (e : CsvEntry) :
  entryOf r = Some e -> fieldsTrimmed e.
Proof.
  unfold entryOf.
  destruct (Chapter r), (Pinyin r), (Category r), (Meaning r);
    try discriminate.
  intros [= <-]. unfold fieldsTrimmed; simpl.
  repeat split; apply trim_idem.
Qed.

Section ParseFacts.
Variable inherited : str -> bool.

Lemma addRow_spec (d : CsvDictionary) (r : Row) :
  addRow inherited d r =
  match Simplified r with
  | None | Some [] => Some d
  | Some k =>
      match entryOf r with
      | None => None
      | Some e =>
          if has d k then Some (updateKey d k (fun l => l ++ [e]))
          else if inherited k then None
          else Some (defineKey d k [e])
      end
  end.
Proof.
  unfold addRow, entryOf.
  destruct (Simplified r) as [[|c k]|]; try reflexivity.
  destruct (Chapter r), (Pinyin r), (Category r), (Meaning r); reflexivity.
Qed.

Lemma addRow_wellBuilt (d d' : CsvDictionary) (r : Row) :
  wellBuilt inherited d -> addRow inherited d r = Some d' ->
  wellBuilt inherited d'.
Proof.
  intros (Hk & He & Hn & Hi & Ht). rewrite addRow_spec.
  destruct (Simplified r) as [[|c k]|];
    try (intros [= <-]; repeat split; assumption).
  destruct (entryOf r) as [e|] eqn:Ee; [|discriminate].
  pose proof (entryOf_trimmed r e Ee) as Hte.
  destruct (has d (c :: k)) eqn:Eh.
  - intros [= <-]. unfold wellBuilt, KeysNonEmpty.
    rewrite keys_updateKey. repeat split; auto.
    + intros k'. rewrite lookup_updateKey.
      destruct (str_eqb (c :: k) k'); [|apply He].
      destruct (lookup d k') as [l|]; simpl; [|discriminate].
      intros [= H]. destruct l; discriminate H.
    + apply Forall_updateKey; [|exact Ht]. simpl. intros v Hv.
      apply Forall_app. split; [exact Hv|].
      constructor; [exact Hte | constructor].
  - destruct (inherited (c :: k)) eqn:Ei; [discriminate|].
    intros [= <-]. apply has_false_lookup in Eh.
    assert (Hnot : ~ In (c :: k) (keys d))
      by (rewrite <- has_In_keys; apply has_false_lookup in Eh; congruence).
    unfold wellBuilt, KeysNonEmpty in *.
    rewrite !Forall_forall in *. repeat split.
    + intros x Hx. apply In_keys_defineKey in Hx as [->|Hx];
        [discriminate | auto].
    + intros k'. rewrite (lookup_defineKey _ _ _ _ _ Eh).
      destruct (str_eqb (c :: k) k'); [discriminate | apply He].
    + apply NoDup_defineKey; assumption.
    + intros x Hx. apply In_keys_defineKey in Hx as [->|Hx]; auto.
    + apply Forall_forall. apply Forall_defineKey.
      * simpl. constructor; [exact Hte | constructor].
      * apply Forall_forall. exact Ht.
Qed.

Lemma entriesFor_single (k : str) (r : Row) :
  entriesFor k [r] =
  match Simplified r, entryOf r with
  | Some (c :: k'), Some e => if str_eqb (c :: k') k then [e] else []
  | _, _ => []
  end.
Proof.
  cbn [entriesFor]. destruct (Simplified r) as [[|c k0]|]; try reflexivity;
    destruct (entryOf r); try reflexivity;
    destruct (str_eqb (c :: k0) k); reflexivity.
Qed.

Lemma addRow_lookup (d d' : CsvDictionary) (r : Row) (k : str) :
  addRow inherited d r = Some d' ->
  lookup d' k = fileEntries (lookup d k) (entriesFor k [r]).
Proof.
  rewrite addRow_spec, entriesFor_single.
  destruct (Simplified r) as [[|c k0]|]; lazy beta iota;
    try (intros [= <-]; destruct (lookup d k); reflexivity).
  destruct (entryOf r) as [e|]; lazy beta iota; [|discriminate].
  destruct (has d (c :: k0)) eqn:Eh.
  - intros [= <-]. rewrite lookup_updateKey.
    destruct (str_eqb (c :: k0) k) eqn:E.
    + apply str_eqb_eq in E; subst k. unfold has in Eh.
      destruct (lookup d (c :: k0)); [reflexivity | discriminate].
    + destruct (lookup d k); reflexivity.
  - destruct (inherited (c :: k0)); [discriminate|].
    intros [= <-]. apply has_false_lookup in Eh.
    rewrite (lookup_defineKey _ _ _ _ _ Eh).
    destruct (str_eqb (c :: k0) k) eqn:E.
    + apply str_eqb_eq in E; subst k. rewrite Eh. reflexivity.
    + destruct (lookup d k); reflexivity.
Qed.

Lemma entriesFor_cons (k : str) (r : Row) (rows : list Row) :
  entriesFor k (r :: rows) = entriesFor k [r] ++ entriesFor k rows.
Proof.
  cbn [entriesFor]. destruct (Simplified r) as [[|c k0]|]; try reflexivity;
    destruct (entryOf r); try reflexivity;
    destruct (str_eqb (c :: k0) k); reflexivity.
Qed.

Lemma forEachRow_lookup (rows : list Row) (d d' : CsvDictionary) (k : str) :
  forEachRow inherited d rows = Some d' ->
  lookup d' k = fileEntries (lookup d k) (entriesFor k rows).
Proof.
  revert d; induction rows as [|r rows IH]; intros d.
  - simpl. intros [= <-]. destruct (lookup d k); reflexivity.
  - cbn [forEachRow]. destruct (addRow inherited d r) as [d1|] eqn:E;
      [|discriminate].
    intros H. rewrite (IH d1 H), (addRow_lookup d d1 r k E).
    rewrite fileEntries_app, <- entriesFor_cons. reflexivity.
Qed.

Lemma forEachRow_wellBuilt (rows : list Row) (d d' : CsvDictionary) :
  wellBuilt inherited d -> forEachRow inherited d rows = Some d' ->
  wellBuilt inherited d'.
Proof.
  revert d; induction rows as [|r rows IH]; intros d Hd.
  - simpl. intros [= <-]. exact Hd.
  - cbn [forEachRow]. destruct (addRow inherited d r) as [d1|] eqn:E;
      [|discriminate].
    apply IH. eapply addRow_wellBuilt; eauto.
Qed.

Lemma addRow_None (d : CsvDictionary) (r : Row) :
  wellBuilt inherited d ->
  (addRow inherited d r = None <-> offending inherited r = true).
Proof.
  intros (_ & _ & _ & Hi & _). rewrite addRow_spec. unfold offending.
  destruct (Simplified r) as [[|c k]|];
    try (split; discriminate).
  destruct (entryOf r) as [e|]; [|split; reflexivity].
  destruct (has d (c :: k)) eqn:Eh.
  - apply has_In_keys in Eh. rewrite Forall_forall in Hi.
    rewrite (Hi _ Eh). split; discriminate.
  - destruct (inherited (c :: k)); split; congruence.
Qed.

Lemma forEachRow_None (rows : list Row) (d : CsvDictionary) :
  wellBuilt inherited d ->
  (forEachRow inherited d rows = None <->
   exists r, In r rows /\ offending inherited r = true).
Proof.
  revert d; induction rows as [|r rows IH]; intros d Hd.
  - simpl. split; [discriminate | intros (r & [] & _)].
  - cbn [forEachRow]. destruct (addRow inherited d r) as [d1|] eqn:E.
    + rewrite (IH d1 (addRow_wellBuilt d d1 r Hd E)).
      assert (Hr : offending inherited r <> true).
      { intros H. apply (addRow_None d r Hd) in H. congruence. }
      split.
      * intros (x & Hx & Ho). exists x. simpl; auto.
      * intros (x & [<-|Hx] & Ho); [contradiction | eauto].
    + split; [|reflexivity]. intros _. exists r. split; [simpl; auto|].
      apply (addRow_None d r Hd). exact E.
Qed.

Lemma wellBuilt_nil : wellBuilt inherited [].
Proof.
  repeat split; try constructor. intros k. discriminate.
Qed.

End ParseFacts.

(** ** The enumeration order of the built dictionary *)

Lemma keepFirst_app (seen a b : list str) :
  keepFirst seen (a ++ b) =
  keepFirst seen a ++ keepFirst (seen ++ keepFirst seen a) b.
Proof.
  revert seen; induction a as [|k a IH]; intros seen; simpl.
  - rewrite app_nil_r. reflexivity.
  - destruct (setHas seen k); [apply IH|].
    simpl. rewrite IH, <- app_assoc. reflexivity.
Qed.

Lemma keepFirst_nonIndex (seen ks : list str) :
  Forall (fun k => isIndexKey k = false) ks ->
  Forall (fun k => isIndexKey k = false) (keepFirst seen ks).
Proof.
  intros H; revert seen; induction H as [|k ks Hk _ IH]; intros seen; simpl;
    [constructor|].
  destruct (setHas seen k); [apply IH | constructor; [exact Hk | apply IH]].
Qed.

Lemma filter_nonIndex (ks : list str) :
  Forall (fun k => isIndexKey k = false)
         (filter (fun k => negb (isIndexKey k)) ks).
Proof.
  apply Forall_forall. intros k Hk. apply filter_In in Hk as [_ Hk].
  destruct (isIndexKey k); [discriminate | reflexivity].
Qed.

Lemma insertIndexKey_order (V : Type) (n : N) (k : str) (v : V)
      (idx oth : list str) :
  arrayIndex k = Some n ->
  Forall (fun x => isIndexKey x = true) idx ->
  StronglySorted indexLe idx ->
  Forall (fun x => isIndexKey x = false) oth ->
  forall o : list (str * V),
    keys o = idx ++ oth ->
    exists idx',
      keys (insertIndexKey n k v o) = idx' ++ oth /\
      Forall (fun x => isIndexKey x = true) idx' /\
      StronglySorted indexLe idx' /\
      (forall x, In x idx' -> x = k \/ In x idx).
Proof.
  intros Hk Hidx Hsorted Hoth.
  assert (Hik : isIndexKey k = true) by (unfold isIndexKey; rewrite Hk; auto).
  induction Hsorted as [|x idx Hs IH Hx]; intros o Ho.
  - assert (Hone : Forall (fun x => isIndexKey x = true) [k] /\
                   StronglySorted indexLe [k] /\
                   (forall x, In x [k] -> x = k \/ In x [])).
    { split; [constructor; [exact Hik | constructor]|].
      split; [constructor; constructor|].
      intros x [<-|[]]. left; reflexivity. }
    exists [k]. simpl in Ho. destruct o as [|[k0 v0] o]; simpl.
    + destruct oth; [|discriminate]. split; [reflexivity | exact Hone].
    + destruct oth as [|y oth]; [discriminate|]. simpl in Ho.
      injection Ho as E Ho. subst k0.
      assert (Hy : arrayIndex y = None).
      { inversion Hoth as [|? ? Hy' ?]; subst. unfold isIndexKey in Hy'.
        destruct (arrayIndex y); [discriminate | reflexivity]. }
      rewrite Hy. simpl. rewrite Ho. split; [reflexivity | exact Hone].
  - destruct o as [|[k0 v0] o]; [discriminate|]. simpl in Ho.
    injection Ho as E0 Ho. subst k0.
    assert (Hxi : isIndexKey x = true /\
                  Forall (fun y => isIndexKey y = true) idx)
      by (inversion Hidx; subst; auto).
    destruct Hxi as [Hxi Hrest].
    simpl. unfold isIndexKey in Hxi.
    destruct (arrayIndex x) as [m|] eqn:Em; [|discriminate].
    destruct (m <? n)%N eqn:E.
    + apply N.ltb_lt in E.
      destruct (IH Hrest o Ho) as (idx' & Hkeys & Hall & Hsort & Hmem).
      exists (x :: idx'). simpl. rewrite Hkeys.
      split; [reflexivity|]. split; [|split].
      * constructor; [unfold isIndexKey; rewrite Em; reflexivity | exact Hall].
      * constructor; [exact Hsort|]. apply Forall_forall. intros y Hy.
        destruct (Hmem y Hy) as [->|Hy'].
        -- unfold indexLe. rewrite Em, Hk. lia.
        -- rewrite Forall_forall in Hx. auto.
      * intros y [<-|Hy]; [right; left; reflexivity|].
        destruct (Hmem y Hy); [left | right; right]; assumption.
    + apply N.ltb_ge in E.
      exists (k :: x :: idx). simpl. rewrite Ho.
      split; [reflexivity|]. split; [|split].
      * constructor; [exact Hik|]. constructor; [|exact Hrest].
        unfold isIndexKey; rewrite Em; reflexivity.
      * constructor; [constructor; assumption|].
        constructor; [unfold indexLe; rewrite Hk, Em; exact E|].
        rewrite Forall_forall in Hx |- *. intros y Hy.
        specialize (Hx y Hy). unfold indexLe in *. rewrite Hk.
        rewrite Em in Hx. destruct (arrayIndex y); [lia | exact Hx].
      * intros y [<-|Hy]; auto.
Qed.

Section KeyOrder.
Variable inherited : str -> bool.

Lemma addRow_order (d d' : CsvDictionary) (r : Row) (idx oth : list str) :
  keys d = idx ++ oth ->
  Forall (fun x => isIndexKey x = true) idx ->
  StronglySorted indexLe idx ->
  Forall (fun x => isIndexKey x = false) oth ->
  addRow inherited d r = Some d' ->
  exists idx',
    keys d' =
    idx' ++ oth ++
         keepFirst oth (filter (fun k => negb (isIndexKey k))
                               (simplifiedKeys [r])) /\
    Forall (fun x => isIndexKey x = true) idx' /\
    StronglySorted indexLe idx'.
Proof.
  intros Hkeys Hidx Hsorted Hoth. rewrite addRow_spec. cbn [simplifiedKeys].
  destruct (Simplified r) as [[|c k]|];
    try (intros [= <-]; exists idx; simpl; rewrite app_nil_r; auto).
  destruct (entryOf r) as [e|]; [|discriminate].
  cbn [filter]. destruct (has d (c :: k)) eqn:Eh.
  - intros [= <-]. rewrite keys_updateKey. exists idx.
    apply has_In_keys in Eh. rewrite Hkeys in Eh.
    destruct (isIndexKey (c :: k)) eqn:Ei; cbn [negb keepFirst].
    + rewrite app_nil_r. auto.
    + assert (Hin : In (c :: k) oth).
      { apply in_app_iff in Eh as [Hin|Hin]; [|exact Hin].
        rewrite Forall_forall in Hidx. rewrite (Hidx _ Hin) in Ei.
        discriminate. }
      apply setHas_In in Hin. rewrite Hin, app_nil_r. auto.
  - destruct (inherited (c :: k)); [discriminate|]. intros [= <-].
    assert (Hnot : ~ In (c :: k) (keys d))
      by (rewrite <- has_In_keys; congruence).
    unfold defineKey, isIndexKey.
    destruct (arrayIndex (c :: k)) as [n|] eqn:Ea; cbn [negb keepFirst filter].
    + destruct (insertIndexKey_order _ n (c :: k) [e] idx oth Ea Hidx Hsorted
                                     Hoth d Hkeys)
        as (idx' & Hk' & Hall & Hsort & _).
      exists idx'. rewrite Hk', app_nil_r. auto.
    + exists idx. unfold keys in *. rewrite map_app, Hkeys. simpl.
      assert (Hs : setHas oth (c :: k) = false).
      { destruct (setHas oth (c :: k)) eqn:E; [|reflexivity].
        apply setHas_In in E. destruct Hnot. change (map fst d) with (keys d).
        unfold keys. rewrite Hkeys. apply in_app_iff; auto. }
      rewrite Hs, <- app_assoc. auto.
Qed.

Lemma simplifiedKeys_cons (r : Row) (rows : list Row) :
  simplifiedKeys (r :: rows) = simplifiedKeys [r] ++ simplifiedKeys rows.
Proof.
  cbn [simplifiedKeys]. destruct (Simplified r) as [[|c k]|]; reflexivity.
Qed.

Lemma forEachRow_order (rows : list Row) (d d' : CsvDictionary)
      (idx oth : list str) :
  keys d = idx ++ oth ->
  Forall (fun x => isIndexKey x = true) idx ->
  StronglySorted indexLe idx ->
  Forall (fun x => isIndexKey x = false) oth ->
  forEachRow inherited d rows = Some d' ->
  exists idx',
    keys d' =
    idx' ++ oth ++
         keepFirst oth (filter (fun k => negb (isIndexKey k))
                               (simplifiedKeys rows)) /\
    Forall (fun x => isIndexKey x = true) idx' /\
    StronglySorted indexLe idx'.
Proof.
  revert d idx oth; induction rows as [|r rows IH];
    intros d idx oth Hkeys Hidx Hsorted Hoth.
  - simpl. intros [= <-]. exists idx. rewrite app_nil_r. auto.
  - cbn [forEachRow]. destruct (addRow inherited d r) as [d1|] eqn:E;
      [|discriminate].
    intros H.
    destruct (addRow_order d d1 r idx oth Hkeys Hidx Hsorted Hoth E)
      as (idx1 & Hk1 & Hall1 & Hsort1).
    assert (Hoth1 : Forall (fun x => isIndexKey x = false)
                           (oth ++ keepFirst oth
                                  (filter (fun k => negb (isIndexKey k))
                                          (simplifiedKeys [r])))).
    { apply Forall_app. split; [exact Hoth|].
      apply keepFirst_nonIndex, filter_nonIndex. }
    destruct (IH d1 idx1 _ Hk1 Hall1 Hsort1 Hoth1 H)
      as (idx' & Hk' & Hall' & Hsort').
    exists idx'. rewrite (simplifiedKeys_cons r rows), filter_app, keepFirst_app.
    rewrite Hk', <- app_assoc. auto.
Qed.

End KeyOrder.

(** ** What [parseCsvData] stores *)

Lemma entriesFor_nonempty (inherited : str -> bool) (k : str)
      (rows : list Row) :
  (forall r, In r rows -> offending inherited r = false) ->
  (entriesFor k rows <> [] <-> In k (simplifiedKeys rows)).
Proof.
  induction rows as [|r rows IH]; intros Hok.
  - simpl. split; [congruence | tauto].
  - assert (IH' := IH (fun x Hx => Hok x (or_intror Hx))).
    assert (Hr := Hok r (or_introl eq_refl)). unfold offending in Hr.
    cbn [entriesFor simplifiedKeys].
    destruct (Simplified r) as [[|c k0]|]; try exact IH'.
    destruct (entryOf r) as [e|]; [|discriminate].
    destruct (str_eqb (c :: k0) k) eqn:E.
    + apply str_eqb_eq in E. split; [intros _; left; exact E | discriminate].
    + apply str_eqb_neq in E. rewrite IH'. simpl. intuition congruence.
Qed.

(** X13.  When the rows are stored without an exception, the own
    property of the new dictionary under any key is exactly the list of
    the entries of the rows whose [Simplified] is that key, in row
    order, each with its four fields trimmed, and the dictionary has no
    own property under a key that no row names: a read at such a key
    gives the member of [Object.prototype] of that name when there is
    one, and [undefined] otherwise.  The rows without a [Simplified]
    value, or with the empty one, leave no trace.  The keys are the
    [Simplified] values as they stand, white space included. *)
Theorem parsed_rows_are_filed_in_order
        (inherited : str -> bool) (rows : list Row) (d : CsvDictionary) :
  parseRows inherited rows = Some d ->
  (forall k, lookup d k = filedUnder k rows) /\
  (forall k, In k (keys d) <-> In k (simplifiedKeys rows)) /\
  (forall k, read d k =
             match filedUnder k rows with
             | Some es => Own es
             | None => if objectPrototype k then Member k else Undefined
             end).
Proof.
  unfold parseRows. intros H.
  assert (Hl : forall k, lookup d k = filedUnder k rows).
  { intros k. rewrite (forEachRow_lookup inherited rows [] d k H).
    unfold filedUnder. simpl. destruct (entriesFor k rows); reflexivity. }
  split; [exact Hl|].
  split; [|intros k; unfold read; rewrite Hl; reflexivity]. intros k.
  assert (Hok : forall r, In r rows -> offending inherited r = false).
  { intros r Hr. destruct (offending inherited r) eqn:E; [|reflexivity].
    assert (Hn : forEachRow inherited [] rows = None)
      by (apply (forEachRow_None inherited rows [] (wellBuilt_nil inherited));
          eauto).
    congruence. }
  rewrite <- (entriesFor_nonempty inherited k rows Hok).
  rewrite <- has_In_keys. unfold has. rewrite Hl. unfold filedUnder.
  destruct (entriesFor k rows); split; congruence.
Qed.

Lemma parsed_rows_are_filed_in_order_witness :
  exists d,
    parseRows objectPrototype sampleRows = Some d /\
    (forall k, lookup d k = filedUnder k sampleRows) /\
    (forall k, In k (keys d) <-> In k (simplifiedKeys sampleRows)) /\
    (forall k, read d k =
               match filedUnder k sampleRows with
               | Some es => Own es
               | None => if objectPrototype k then Member k else Undefined
               end).
Proof.
  eexists. split; [reflexivity|].
  apply (parsed_rows_are_filed_in_order objectPrototype sampleRows).
  reflexivity.
Defined.

(** X14.  A dictionary that [parseCsvData] stores has no empty key, no
    key with an empty list of entries, no key twice, no key that names
    a member of [Object.prototype], and only entries whose fields have
    no white space at either end. *)
Theorem parsed_dictionary_is_well_built
        (inherited : str -> bool) (rows : list Row) (d : CsvDictionary) :
  parseRows inherited rows = Some d -> wellBuilt inherited d.
Proof.
  unfold parseRows. intros H.
  exact (forEachRow_wellBuilt inherited rows [] d (wellBuilt_nil inherited) H).
Qed.

Lemma parsed_dictionary_is_well_built_witness :
  exists d,
    parseRows objectPrototype sampleRows = Some d /\
    wellBuilt objectPrototype d.
Proof.
  eexists. split; [reflexivity|].
  apply (parsed_dictionary_is_well_built objectPrototype sampleRows).
  reflexivity.
Defined.

(** X15.  [parseCsvData] throws in the loop over the rows, before it
    assigns the curriculum, exactly when some row has a non-empty
    [Simplified] and either lacks one of the columns [Chapter],
    [Pinyin], [Category], [Meaning] or names a member of
    [Object.prototype]; rows without [Simplified] never make it throw,
    whatever else they lack. *)
Theorem parse_throws_on_offending_rows
        (inherited : str -> bool) (rows : list Row) :
  parseRows inherited rows = None <->
  exists r, In r rows /\ offending inherited r = true.
Proof.
  unfold parseRows. apply forEachRow_None. apply wellBuilt_nil.
Qed.

Lemma parse_throws_on_offending_rows_witness :
  parseRows objectPrototype (sampleRows ++ [brokenRow]) = None /\
  parseRows objectPrototype
            [rowOf (lit "toString"%string) [] [] [] []] = None.
Proof.
  split.
  - apply (proj2 (parse_throws_on_offending_rows
                    objectPrototype (sampleRows ++ [brokenRow]))).
    exists brokenRow. split; [|reflexivity].
    apply in_or_app. right. left. reflexivity.
  - apply (proj2 (parse_throws_on_offending_rows
                    objectPrototype
                    [rowOf (lit "toString"%string) [] [] [] []])).
    eexists. split; [left; reflexivity | reflexivity].
Defined.

(** X16.  The stored dictionary enumerates its keys as a JavaScript
    object does: first the keys that are array indices, in ascending
    numeric order, then the other keys in the order of the first row
    that names each of them. *)
Theorem parsed_keys_keep_row_order
        (inherited : str -> bool) (rows : list Row) (d : CsvDictionary) :
  parseRows inherited rows = Some d -> ownKeyOrder (keys d) rows.
Proof.
  unfold parseRows. intros H.
  destruct (forEachRow_order inherited rows [] d [] []) as (idx & Hk & Hi & Hs);
    try constructor; try exact H.
  exists idx. auto.
Qed.

Lemma parsed_keys_keep_row_order_witness :
  exists d,
    parseRows objectPrototype sampleRows = Some d /\
    keys d = [lit "7"%string; zh_nihao; zh_ma] /\
    ownKeyOrder (keys d) sampleRows.
Proof.
  eexists. split; [reflexivity|]. split; [reflexivity|].
  apply (parsed_keys_keep_row_order objectPrototype sampleRows).
  reflexivity.
Defined.

(** ** From the rows to the segments *)

Lemma wellBuilt_keys (inherited : str -> bool) (d : CsvDictionary) :
  wellBuilt inherited d -> KeysNonEmpty d /\ EntriesNonEmpty d.
Proof. intros (H1 & H2 & _). auto. Qed.

(** X17.  With a curriculum that [parseCsvData] stored and a Lexicon that
    has a key and no empty key, [processScript] returns on every text,
    and every Matched segment of the output other than those of the
    Latin letters carries a non-empty list of curriculum entries, or
    has a name of [Object.prototype] as text and carries the member of
    that name. *)
Theorem parsed_curriculum_always_returns
        (inherited : str -> bool) (rows : list Row) (app : App) :
  parseRows inherited rows = Some (csvDictionary app) ->
  keys (ccCedict app) <> [] -> KeysNonEmpty (ccCedict app) ->
  forall fuel,
    length (scriptInput app) <= fuel ->
    exists app',
      processScript fuel app = Some app' /\ matchedCarryLists app'.
Proof.
  intros Hp Hk Hd fuel Hf.
  destruct (wellBuilt_keys inherited _
              (forEachRow_wellBuilt inherited rows [] _
                                    (wellBuilt_nil inherited) Hp))
    as [Hc He].
  apply processScript_total_correct; auto.
  intros fuel' app' H.
  pose proof (matched_segments_shape app fuel' app' Hk H) as [_ Hall].
  apply (processScript_Some fuel' app app' Hk) in H as (st & _ & ->).
  exact (Hall He).
Qed.

Lemma parsed_curriculum_always_returns_witness :
  exists app',
    processScript 3 (mkApp zh_nihaoma sampleCedict
                           [(lit "7"%string,
                             [mkCsvEntry (lit "2"%string) (lit "qi1"%string)
                                         (lit "number"%string)
                                         (lit "seven"%string)]);
                            (zh_nihao,
                             [mkCsvEntry (lit "1"%string)
                                         (lit "ni3 hao3"%string)
                                         (lit "phrase"%string)
                                         (lit "hello"%string);
                              mkCsvEntry (lit "3"%string)
                                         (lit "ni3 hao3"%string)
                                         (lit "phrase"%string)
                                         (lit "hi"%string)]);
                            (zh_ma,
                             [mkCsvEntry (lit "2"%string) (lit "ma5"%string)
                                         (lit "particle"%string)
                                         (lit "question"%string)])]
                           [] [] []) = Some app' /\
    matchedCarryLists app'.
Proof.
  refine (parsed_curriculum_always_returns objectPrototype sampleRows
            (mkApp zh_nihaoma sampleCedict _ [] [] []) _ _ _ 3 _).
  - reflexivity.
  - discriminate.
  - repeat constructor; discriminate.
  - simpl; lia.
Defined.

(** ** Words that the matching cannot reach *)

Lemma startsWith_head (scriptText w : str) (i : nat) (c : char) :
  nth_error scriptText i = Some c -> startsWith scriptText w i = true ->
  w = [] \/ exists r, w = c :: r.
Proof.
  intros Hc. unfold startsWith. rewrite (skipn_nth_error _ _ _ _ Hc).
  destruct w as [|x w]; [left; reflexivity|]. simpl.
  intros H. apply andb_true_iff in H as [H _]. apply N.eqb_eq in H.
  right. exists w. congruence.
Qed.

Lemma startsLexical_step (scriptText : str) (cedict : Dictionary)
      (csv : CsvDictionary) (st st' : LoopState) :
  Forall (fun s => type s = not_found -> startsLexical (text s)) (results st) ->
  cursor st < length scriptText ->
  Iteration scriptText cedict csv st st' ->
  Forall (fun s => type s = not_found -> startsLexical (text s)) (results st').
Proof.
  intros Hall _ Hit.
  destruct Hit as [ Hc | c Hc Hn Hl | c Hc Hn Hl Hb
                    | c w segs Hlex Hm Hg | c w Hlex Hm Hg
                    | c w Hlex Hm Hcm | c Hlex Hm Hcm ]; simpl;
    try exact Hall; apply Forall_app; (split; [exact Hall|]).
  - constructor; [|constructor]. intros H; discriminate H.
  - constructor; [|constructor]. intros H; discriminate H.
  - apply Forall_forall. intros s Hs.
    apply in_map_iff in Hs as (x & <- & _). intros H; discriminate H.
  - constructor; [|constructor]. intros _. simpl.
    apply lexMatch_Some in Hm as (_ & Hs & _).
    destruct Hlex as (Hc & Hn & Hl & Hb).
    destruct (startsWith_head _ _ _ _ Hc Hs) as [->|(r & ->)]; simpl; auto.
  - constructor; [|constructor]. intros H; discriminate H.
Qed.

(** X18.  On a Lexicon that has a key, no Unmatched segment and no
    reported unknown word of a run that returns begins with a newline,
    an ASCII letter or white space:
    a Lexicon word with such a first character, like the headword made
    of the letter T and a Chinese character, is never matched at the
    cursor and never reported.  The run returns when no key is empty. *)
Theorem unknown_words_never_start_with_a_letter (app : App) :
  keys (ccCedict app) <> [] ->
  (forall fuel app',
      processScript fuel app = Some app' -> unmatchedStartLexical app') /\
  (KeysNonEmpty (ccCedict app) -> KeysNonEmpty (csvDictionary app) ->
   forall fuel,
     length (scriptInput app) <= fuel ->
     exists app',
       processScript fuel app = Some app' /\ unmatchedStartLexical app').
Proof.
  intros Hk.
  assert (Hpartial : forall fuel app',
             processScript fuel app = Some app' -> unmatchedStartLexical app').
  { intros fuel app' H.
    apply (processScript_Some fuel app app' Hk) in H as (st & Hloop & ->).
    destruct (whileLoop_invariant (scriptInput app) (ccCedict app)
                (csvDictionary app)
                (fun s => Forall (fun x => type x = not_found ->
                                           startsLexical (text x))
                                 (results s))
                (startsLexical_step (scriptInput app) (ccCedict app)
                                    (csvDictionary app))
                fuel (mkLoop 0 [] []) st) as (Hshape & _);
      [constructor | exact Hloop |].
    destruct (whileLoop_invariant (scriptInput app) (ccCedict app)
                (csvDictionary app) (unknownInvariant (ccCedict app))
                (unknownInvariant_step (scriptInput app) (ccCedict app)
                                       (csvDictionary app))
                fuel (mkLoop 0 [] []) st)
      as ((Hset & _ & _) & _); [|exact Hloop|].
    { repeat split; simpl; constructor. }
    unfold unmatchedStartLexical; simpl. split; [exact Hshape|].
    apply Forall_forall. intros u Hu.
    assert (Hw : In (word u) (unknownSet st)).
    { rewrite <- (mapIndexed_word (ccCedict app) 0 (unknownSet st)).
      apply in_map. exact Hu. }
    rewrite Hset in Hw. apply In_unmatchedWords in Hw as (_ & s & Hs & Hty & Ht).
    rewrite Forall_forall in Hshape. rewrite <- Ht. auto. }
  split; [exact Hpartial|].
  apply processScript_total_correct; exact Hpartial.
Qed.

Lemma unknown_words_never_start_with_a_letter_witness :
  exists app',
    processScript 2 (mkApp tshirt tshirtCedict [] [] [] []) = Some app' /\
    unmatchedStartLexical app'.
Proof.
  refine (proj2 (unknown_words_never_start_with_a_letter
                   (mkApp tshirt tshirtCedict [] [] [] []) _) _ _ 2 _).
  - discriminate.
  - repeat constructor; discriminate.
  - constructor.
  - simpl; lia.
Defined.

(** ** The empty string as a Lexicon key *)

Lemma stuck_at_start (scriptText : str) (cedict : Dictionary)
      (csv : CsvDictionary) :
  0 < length scriptText ->
  (forall st, cursor st = 0 ->
              cursor (loopBody scriptText cedict csv st) = 0) ->
  forall fuel st,
    cursor st = 0 -> whileLoop scriptText cedict csv fuel st = None.
Proof.
  intros Hlen Hstuck. induction fuel as [|fuel IH]; intros st Hst.
  - simpl. rewrite Hst.
    destruct (0 <? length scriptText) eqn:E; [reflexivity|].
    apply Nat.ltb_ge in E. lia.
  - rewrite whileLoop_step by lia. apply IH. apply Hstuck. exact Hst.
Qed.

(** X19.  The empty string as a Lexicon key makes the loop hang: when
    the text begins with a character that reaches the dictionary
    matching and no non-empty Lexicon key matches there, every
    iteration selects the empty key, pushes a segment and leaves the
    cursor at 0, so [processScript] returns on no amount of fuel. *)
Theorem empty_lexicon_key_hangs
        (scriptText : str) (cedict : Dictionary) (csv : CsvDictionary)
        (c : char) (fuel : nat) (out : list ProcessedSegment)
        (unk : list UnknownWord) (log : list str) :
  lexical scriptText 0 c ->
  In [] (keys cedict) ->
  (forall k, In k (keys cedict) -> k <> [] ->
             startsWith scriptText k 0 = false) ->
  processScript fuel (mkApp scriptText cedict csv out unk log) = None.
Proof.
  intros Hlex Hin Hno.
  rewrite processScript_loaded by (eapply In_keys_nonempty; eauto).
  assert (Hlen : 0 < length scriptText).
  { destruct Hlex as (Hc & _). destruct scriptText; [discriminate|simpl; lia]. }
  assert (Hm : lexMatch scriptText cedict 0 = Some []).
  { destruct (lexMatch scriptText cedict 0) as [w|] eqn:E.
    - apply lexMatch_Some in E as (Hw & Hs & _).
      destruct w as [|x w]; [reflexivity|].
      rewrite (Hno (x :: w) Hw) in Hs by discriminate. discriminate.
    - apply lexMatch_None in E. specialize (E [] Hin). discriminate. }
  rewrite (stuck_at_start scriptText cedict csv Hlen); [reflexivity| |reflexivity].
  intros st Hst.
  assert (Hlex' : lexical scriptText (cursor st) c) by (rewrite Hst; exact Hlex).
  rewrite (loopBody_lexical scriptText cedict csv st c Hlex'), Hst, Hm.
  destruct (GetSegmentsInCsv csv []); reflexivity.
Qed.

Lemma empty_lexicon_key_hangs_witness :
  processScript 1000 (mkApp zh_nihao [(zh_ma, [sampleEntry]); ([], [])]
                            sampleCsv [] [] []) = None.
Proof.
  apply (empty_lexicon_key_hangs zh_nihao [(zh_ma, [sampleEntry]); ([], [])]
                                 sampleCsv 20320%N 1000 [] [] []).
  - apply (lexical_zh_ni zh_hao).
  - simpl; auto.
  - intros k [<-|[<-|[]]] Hk; [reflexivity | destruct (Hk eq_refl)].
Defined.

(** ** A segment that carries a function *)

